(** * xparse: grammar algebra, recursive-descent parser and finite automata

    A shallow embedding of the Python package [xparse] and the proofs of
    the properties stated about it.  Python dictionaries are [gmap]s,
    Python sets are [gset]s, lists are lists; a call that can raise
    returns a [result]. *)

From Stdlib Require Import ZArith Lia.
From stdpp Require Import base option list gmap sets strings.

Set Warnings "-clear-no-such-hyp".

Open Scope string_scope.
Open Scope list_scope.
Open Scope nat_scope.

(** ** Exceptions and results *)

Inductive exn : Type :=
| IndexError
| KeyError
| TypeError
| ValueError
| AttributeError
| AutomatonError.

(** The outcome of a call: a value, a raised exception, or [Diverge] when
    the recursion budget of the model is exhausted. *)
Inductive result (A : Type) : Type :=
| Ok (a : A)
| Raise (e : exn)
| Diverge.

Arguments Ok {A} a.
Arguments Raise {A} e.
Arguments Diverge {A}.

#[global] Instance result_ret : MRet result := fun _ a => Ok a.
#[global] Instance result_bind : MBind result := fun _ _ f m =>
  match m with
  | Ok a => f a
  | Raise e => Raise e
  | Diverge => Diverge
  end.
#[global] Instance result_fmap : FMap result := fun _ _ f m =>
  match m with
  | Ok a => Ok (f a)
  | Raise e => Raise e
  | Diverge => Diverge
  end.

(** Python list indexing [l[i]]: a negative index counts from the end. *)
Definition py_index (n : nat) (i : Z) : option nat :=
  if decide (0 ≤ i < Z.of_nat n)%Z then Some (Z.to_nat i)
  else if decide (- Z.of_nat n ≤ i < 0)%Z then Some (Z.to_nat (Z.of_nat n + i))
  else None.

Definition py_getitem {A} (l : list A) (i : Z) : result A :=
  match py_index (length l) i with
  | Some k => match l !! k with Some x => Ok x | None => Raise IndexError end
  | None => Raise IndexError
  end.

(** ** automata.py *)

Module Automata.

Definition EPSILON : string := "'e".
Definition DOT : string := "dot".

Definition flatten_lists {A} (lists : list (list A)) : list A :=
  concat lists.

Definition set_union `{Countable A} (sets : list (gset A)) : gset A :=
  ⋃ sets.

(** *** TableRow *)

(** The [default] of a row: [None], a plain value, or a callable that
    constructs the value. *)
Inductive Default (V : Type) : Type :=
| DefaultNone
| DefaultValue (v : V)
| DefaultCallable (mk : unit → V).

Arguments DefaultNone {V}.
Arguments DefaultValue {V} v.
Arguments DefaultCallable {V} mk.

Record TableRow (V : Type) : Type := mkTableRow {
  data : gmap string V;
  default : Default V
}.

Arguments mkTableRow {V} data default.
Arguments data {V} t.
Arguments default {V} t.

Section TableRow.
Context {V : Type}.

(** [TableRow.__init__]; an absent or empty dictionary gives the empty one. *)
Definition TableRow_init (d : gmap string V) (dflt : Default V) : TableRow V :=
  mkTableRow d dflt.

(** [_return_default]; Python's [None] is [None]. *)
Definition _return_default (r : TableRow V) : option V :=
  match default r with
  | DefaultNone => None
  | DefaultValue v => Some v
  | DefaultCallable mk => Some (mk tt)
  end.

Definition row_getitem (r : TableRow V) (item : string) : option V :=
  match data r !! item with
  | Some v => Some v
  | None => _return_default r
  end.

Definition row_setitem (r : TableRow V) (item : string) (value : V) : TableRow V :=
  mkTableRow (<[item := value]> (data r)) (default r).

Definition row_map (func : V → V) (r : TableRow V) : TableRow V :=
  TableRow_init (func <$> data r) (default r).
End TableRow.

(** Insertion sort on column names, in the order Python compares strings. *)
Fixpoint insert_sorted (x : string) (l : list string) : list string :=
  match l with
  | [] => [x]
  | y :: l' => if String.leb x y then x :: l else y :: insert_sorted x l'
  end.

Definition sorted (l : list string) : list string :=
  foldr insert_sorted [] l.

Definition row_columns {V} (r : TableRow V) : list string :=
  sorted (elements (dom (data r))).

(** *** Table *)

Record Table (V : Type) : Type := mkTable {
  tdefault : Default V;
  tdata : list (TableRow V)
}.

Arguments mkTable {V} tdefault tdata.
Arguments tdefault {V} t.
Arguments tdata {V} t.

Section Table.
Context {V : Type}.

(** [_process_data]: every row is rebuilt with the table's default. *)
Definition Table_process_data (rows : list (TableRow V)) (dflt : Default V)
  : list (TableRow V) :=
  (λ row, TableRow_init (data row) dflt) <$> rows.

Definition Table_init (rows : list (TableRow V)) (dflt : Default V) : Table V :=
  mkTable dflt (Table_process_data rows dflt).

(** A table given as a list of dictionaries. *)
Definition Table_of_dicts (rows : list (gmap string V)) (dflt : Default V)
  : Table V :=
  mkTable dflt ((λ d, TableRow_init d dflt) <$> rows).

Definition table_len (t : Table V) : nat := length (tdata t).

Definition table_getitem (t : Table V) (row_index : Z) : result (TableRow V) :=
  py_getitem (tdata t) row_index.

Definition table_final (t : Table V) : Z := Z.of_nat (table_len t) - 1.

Definition with_empty_row (dflt : Default V) : Table V :=
  Table_of_dicts [∅] dflt.

Definition table_map (func : V → V) (t : Table V) : Table V :=
  Table_init (row_map func <$> tdata t) (tdefault t).

Definition table_columns (t : Table V) : list string :=
  sorted (elements (set_union (list_to_set ∘ row_columns <$> tdata t))).

(** [table[i][item] = value]: the row object at index [i] is updated in place. *)
Definition table_setcell (t : Table V) (i : Z) (item : string) (value : V)
  : result (Table V) :=
  match py_index (table_len t) i with
  | Some k =>
      match tdata t !! k with
      | Some row => Ok (mkTable (tdefault t) (<[k := row_setitem row item value]> (tdata t)))
      | None => Raise IndexError
      end
  | None => Raise IndexError
  end.
End Table.

(** *** Nfa *)

(** States are row indices; a cell holds a set of states. *)
Record Nfa : Type := mkNfa {
  table : Table (gset nat);
  _epsilon_closure : list (gset nat)
}.

Definition Default_set : Default (gset nat) := DefaultCallable (λ _, ∅).

Definition nfa_len (t : Table (gset nat)) : nat := table_len t.

(** [self[state][item]] for a state given as a non-negative integer; the
    cell is [None] when the column is missing and the default is [None]. *)
Definition cell (t : Table (gset nat)) (state : nat) (item : string)
  : result (option (gset nat)) :=
  match tdata t !! state with
  | Some row => Ok (row_getitem row item)
  | None => Raise IndexError
  end.

(** [set_union] applied to the cells: iterating over [None] is a
    [TypeError]. *)
Fixpoint set_union_cells (cells : list (option (gset nat))) : result (gset nat) :=
  match cells with
  | [] => Ok ∅
  | None :: _ => Raise TypeError
  | Some s :: rest => u ← set_union_cells rest; Ok (s ∪ u)
  end.

(** [[self[u][item] for u in states]] *)
Definition cells_of (t : Table (gset nat)) (states : gset nat) (item : string)
  : result (list (option (gset nat))) :=
  mapM (λ u, cell t u item) (elements states).

(** The local function [iter_search] of [_find_epsilon_closure]; [fuel]
    bounds the depth of the recursion. *)
Fixpoint iter_search (fuel : nat) (t : Table (gset nat)) (states update : gset nat)
  : result (gset nat) :=
  match fuel with
  | 0 => Diverge
  | S fuel' =>
      if decide (update = ∅) then Ok states
      else
        let update1 := update ∖ states in
        let states1 := states ∪ update1 in
        cs ← cells_of t update1 EPSILON;
        update2 ← set_union_cells cs;
        iter_search fuel' t states1 (update2 ∖ states1)
  end.

(** Every call adds a state to [states] or is the last but one, so
    [len + 2] calls are enough (lemma [iter_search_terminates]). *)
Definition closure_fuel (t : Table (gset nat)) : nat := nfa_len t + 2.

Definition _find_epsilon_closure (t : Table (gset nat)) (state : nat)
  : result (gset nat) :=
  c ← cell t state EPSILON;
  match c with
  | None => Ok {[state]}
  | Some update => iter_search (closure_fuel t) t {[state]} update
  end.

(** [Nfa.__init__] on a [Table] object. *)
Definition Nfa_init (t : Table (gset nat)) : result Nfa :=
  closures ← mapM (_find_epsilon_closure t) (seq 0 (nfa_len t));
  Ok (mkNfa t closures).

(** [Nfa.__init__] on a list of dictionaries: the default is [set]. *)
Definition Nfa_of_dicts (rows : list (gmap string (gset nat))) : result Nfa :=
  Nfa_init (Table_of_dicts rows Default_set).

Definition shift (i : nat) (x : gset nat) : gset nat :=
  set_map (λ elem, elem + i) x.

Definition offsets_of (lengths : list nat) : list nat :=
  0 :: ((λ i, sum_list (take (S i) lengths)) <$> seq 0 (length lengths - 1)).

Definition _concat_tables (tables : list (Table (gset nat)))
  : result (Table (gset nat) * list nat) :=
  match tables with
  | [] => Raise IndexError
  | first :: _ =>
      let dflt := tdefault first in
      let lengths := table_len <$> tables in
      let offsets := offsets_of lengths in
      let shifted := zip_with (λ t i, table_map (shift i) t) tables offsets in
      Ok (Table_init (concat (tdata <$> shifted)) dflt, offsets)
  end.

(** [self._epsilon_closure[state]] *)
Definition epsilon_closure_int (n : Nfa) (state : nat) : result (gset nat) :=
  match _epsilon_closure n !! state with
  | Some c => Ok c
  | None => Raise IndexError
  end.

Definition epsilon_closure (n : Nfa) (states : gset nat) : result (gset nat) :=
  cs ← mapM (epsilon_closure_int n) (elements states);
  Ok (set_union cs).

Definition final (n : Nfa) : Z := table_final (table n).

Definition get_input_characters (n : Nfa) (states : gset nat) : result (gset string) :=
  cols ← mapM (λ state,
            match tdata (table n) !! state with
            | Some row => Ok (list_to_set (C := gset string) (row_columns row))
            | None => Raise IndexError
            end) (elements states);
  Ok (set_union cols ∖ {[EPSILON]}).

Definition is_final (n : Nfa) (states : gset nat) : bool :=
  bool_decide (0 ≤ final n)%Z && bool_decide (Z.to_nat (final n) ∈ states).

Definition transition (n : Nfa) (states : gset nat) (char : string)
  : result (gset nat) :=
  start ← epsilon_closure n states;
  cs ← cells_of (table n) start char;
  end_ ← set_union_cells cs;
  epsilon_closure n end_.

(** The characters of a Python string, each a string of length one. *)
Fixpoint chars (s : string) : list string :=
  match s with
  | EmptyString => []
  | String c s' => String c EmptyString :: chars s'
  end.

Fixpoint match_loop (n : Nfa) (states : gset nat) (w : list string) : result bool :=
  match w with
  | [] => Ok (is_final n states)
  | char :: w' =>
      states' ← transition n states char;
      if decide (states' = ∅) then Ok false else match_loop n states' w'
  end.

Definition Nfa_match (n : Nfa) (s : string) : result bool :=
  match_loop n {[0]} (chars s).

Definition Nfa_epsilon : result Nfa :=
  Nfa_of_dicts [{[EPSILON := {[1]}]}; ∅].

Definition Nfa_char (char : string) : result Nfa :=
  Nfa_of_dicts [{[char := {[1]}]}; ∅].

(** [for offset in offsets: table[offset - 1][EPSILON] = value offset] *)
Fixpoint link_rows (t : Table (gset nat)) (offsets : list nat)
    (value : nat → gset nat) : result (Table (gset nat)) :=
  match offsets with
  | [] => Ok t
  | offset :: rest =>
      t' ← table_setcell t (Z.of_nat offset - 1) EPSILON (value offset);
      link_rows t' rest value
  end.

Definition Nfa_concat (nfas : list Nfa) : result Nfa :=
  '(t, offsets) ← _concat_tables (table <$> nfas);
  t' ← link_rows t (drop 1 offsets) (λ offset, {[offset]});
  Nfa_init t'.

Definition Nfa_union (nfas : list Nfa) : result Nfa :=
  let tables := ([with_empty_row Default_set] ++ (table <$> nfas)
                 ++ [with_empty_row Default_set])%list in
  '(t, offsets) ← _concat_tables tables;
  t0 ← table_setcell t 0 EPSILON
         (list_to_set (take (length offsets - 2) (drop 1 offsets)));
  t' ← link_rows t0 (drop 2 offsets) (λ _, {[Z.to_nat (table_final t0)]});
  Nfa_init t'.

Definition Nfa_star (nfa : Nfa) : result Nfa :=
  let tables := [with_empty_row Default_set; table nfa;
                 with_empty_row Default_set] in
  '(t, _) ← _concat_tables tables;
  t0 ← table_setcell t 0 EPSILON {[1; Z.to_nat (table_final t)]};
  t' ← table_setcell t0 (table_final t0 - 1) EPSILON {[0; Z.to_nat (table_final t0)]};
  Nfa_init t'.

(** *** Dfa *)

Record Dfa : Type := mkDfa {
  dfa_table : gmap nat (gmap string nat);
  finals : gset nat
}.

(** The [for char in sorted(input_chars)] loop of [_translate_nfa].  The
    work list [stack] has its top at the head. *)
Fixpoint translate_chars (nfa : Nfa) (nfa_state : gset nat) (cs : list string)
    (registered_states : gmap (gset nat) nat) (stack : list (gset nat))
    (row : gmap string nat)
  : result (gmap (gset nat) nat * list (gset nat) * gmap string nat) :=
  match cs with
  | [] => Ok (registered_states, stack, row)
  | char :: cs' =>
      new_nfa_state ← transition nfa nfa_state char;
      match registered_states !! new_nfa_state with
      | None =>
          let new_dfa_state := size registered_states in
          translate_chars nfa nfa_state cs'
            (<[new_nfa_state := new_dfa_state]> registered_states)
            (new_nfa_state :: stack)
            (<[char := new_dfa_state]> row)
      | Some new_dfa_state =>
          translate_chars nfa nfa_state cs' registered_states stack
            (<[char := new_dfa_state]> row)
      end
  end.

(** The [while stack] loop of [_translate_nfa]; [fuel] bounds the number
    of iterations. *)
Fixpoint translate_loop (fuel : nat) (nfa : Nfa)
    (data : gmap nat (gmap string nat)) (fin : gset nat)
    (registered_states : gmap (gset nat) nat) (stack : list (gset nat))
  : result (gmap nat (gmap string nat) * gset nat) :=
  match stack with
  | [] => Ok (data, fin)
  | nfa_state :: stack' =>
      match fuel with
      | 0 => Diverge
      | S fuel' =>
          match registered_states !! nfa_state with
          | None => Raise KeyError
          | Some dfa_state =>
              let row := from_option id ∅ (data !! dfa_state) in
              input_chars ← get_input_characters nfa nfa_state;
              '(registered', stack'', row') ←
                translate_chars nfa nfa_state (sorted (elements input_chars))
                  registered_states stack' row;
              let data' := <[dfa_state := row']> data in
              let fin' := if is_final nfa nfa_state then fin ∪ {[dfa_state]} else fin in
              translate_loop fuel' nfa data' fin' registered' stack''
          end
      end
  end.

Definition _translate_nfa (fuel : nat) (nfa : Nfa)
  : result (gmap nat (gmap string nat) * gset nat) :=
  initial_state ← epsilon_closure_int nfa 0;
  translate_loop fuel nfa {[0 := ∅]} ∅ {[initial_state := 0]} [initial_state].

Definition Dfa_init (fuel : nat) (nfa : Nfa) : result Dfa :=
  '(t, fin) ← _translate_nfa fuel nfa;
  Ok (mkDfa t fin).

Definition dfa_is_final (d : Dfa) (state : nat) : bool :=
  bool_decide (state ∈ finals d).

(** A missing row or column is the [KeyError] that [match] catches. *)
Fixpoint dfa_match_loop (d : Dfa) (state : nat) (w : list string) : bool :=
  match w with
  | [] => dfa_is_final d state
  | char :: w' =>
      match dfa_table d !! state ≫= (λ row, row !! char) with
      | Some state' => dfa_match_loop d state' w'
      | None => false
      end
  end.

Definition Dfa_match (d : Dfa) (s : string) : bool :=
  dfa_match_loop d 0 (chars s).

(** *** Automata built by the combinators *)

(** [eps_step t x y]: the table has an epsilon-transition from [x] to [y]. *)
Definition eps_step (t : Table (gset nat)) (x y : nat) : Prop :=
  ∃ row s, tdata t !! x = Some row ∧ row_getitem row EPSILON = Some s ∧ y ∈ s.

(** A set of states of the table. *)
Definition in_range (t : Table (gset nat)) (states : gset nat) : Prop :=
  ∀ x, x ∈ states → x < table_len t.

Definition cells_below (bound : nat) (r : TableRow (gset nat)) : Prop :=
  ∀ k s x, data r !! k = Some s → x ∈ s → x < bound.

(** A row whose default is [set] and whose cells stay below [bound]. *)
Definition row_ok (bound : nat) (r : TableRow (gset nat)) : Prop :=
  default r = Default_set ∧ cells_below bound r.

(** Running sums: [prefix_sums off [l1; l2; ...] = [off; off + l1; ...]]. *)
Fixpoint prefix_sums (off : nat) (lengths : list nat) : list nat :=
  match lengths with
  | [] => []
  | l :: ls => off :: prefix_sums (off + l) ls
  end.

Definition wf_table (t : Table (gset nat)) : Prop :=
  tdefault t = Default_set ∧ Forall (row_ok (table_len t)) (tdata t).

(** The row of the final state has no key at all. *)
Definition final_row_empty (t : Table (gset nat)) : Prop :=
  ∃ row, last (tdata t) = Some row ∧ data row = ∅.

#[local] Unset Elimination Schemes.
(** The rows of the table made by [_concat_tables], the first table
    starting at [off]. *)
Definition shifted_rows (dflt : Default (gset nat)) (off : nat)
    (tables : list (Table (gset nat))) : list (TableRow (gset nat)) :=
  Table_process_data
    (concat (tdata <$> zip_with (λ t i, table_map (shift i) t) tables
               (prefix_sums off (table_len <$> tables)))) dflt.

Definition tables_ok (ts : list (Table (gset nat))) : Prop :=
  Forall (λ t, Forall (cells_below (table_len t)) (tdata t)) ts.

Definition nfa_table_ok (t : Table (gset nat)) : Prop :=
  wf_table t ∧ 2 ≤ table_len t ∧ final_row_empty t.

Inductive Built : Nfa → Prop :=
| Built_epsilon n :
    Nfa_epsilon = Ok n → Built n
| Built_char c n :
    Nfa_char c = Ok n → Built n
| Built_concat ns n :
    Forall Built ns → Nfa_concat ns = Ok n → Built n
| Built_union ns n :
    Forall Built ns → Nfa_union ns = Ok n → Built n
| Built_star m n :
    Built m → Nfa_star m = Ok n → Built n.
#[local] Set Elimination Schemes.

(** *** Runs of an automaton *)

(** [char_step t c x y]: the table has a transition on [c] from [x] to
    [y]; [eps_step t] is [char_step t EPSILON]. *)
Definition char_step (t : Table (gset nat)) (c : string) (x y : nat) : Prop :=
  ∃ row s, tdata t !! x = Some row ∧ row_getitem row c = Some s ∧ y ∈ s.

(** [nfa_path t w x z]: a run from [x] to [z] that reads the characters
    [w], with epsilon-transitions anywhere.  The column [EPSILON] is not a
    character. *)
Inductive nfa_path (t : Table (gset nat)) : list string → nat → nat → Prop :=
| path_nil x : nfa_path t [] x x
| path_eps w x y z :
    eps_step t x y → nfa_path t w y z → nfa_path t w x z
| path_char c w x y z :
    c ≠ EPSILON →
    char_step t c x y → nfa_path t w y z → nfa_path t (c :: w) x z.

(** The automaton accepts the characters [w]: it has a run on [w] from
    state 0 to its final state. *)
Definition accepts (n : Nfa) (w : list string) : Prop :=
  nfa_path (table n) w 0 (Z.to_nat (final n)).

(** The state at which the [i]-th table starts in the table made by
    [_concat_tables]. *)
Definition offset (ts : list (Table (gset nat))) (i : nat) : nat :=
  sum_list (take i (table_len <$> ts)).

(** Concatenation and iteration of languages. *)
Fixpoint lang_concat (ls : list (list string → Prop)) (w : list string)
  : Prop :=
  match ls with
  | [] => w = []
  | l :: ls' => ∃ w1 w2, w = w1 ++ w2 ∧ l w1 ∧ lang_concat ls' w2
  end.

Inductive lang_star (l : list string → Prop) : list string → Prop :=
| lang_star_nil : lang_star l []
| lang_star_app w1 w2 : l w1 → lang_star l w2 → lang_star l (w1 ++ w2).

(** *** The subset construction *)

(** The table is well formed and the cache of [Nfa.__init__] holds the
    closure of every state. *)
Definition nfa_ok (n : Nfa) : Prop :=
  wf_table (table n) ∧
  ∀ s, s < nfa_len (table n) →
    ∃ c, _epsilon_closure n !! s = Some c ∧
         _find_epsilon_closure (table n) s = Ok c.

(** A set of states of the automaton that epsilon-transitions do not
    leave. *)
Definition closed_states (n : Nfa) (states : gset nat) : Prop :=
  in_range (table n) states ∧
  ∀ x y, x ∈ states → eps_step (table n) x y → y ∈ states.

(** The registered sets are closed sets of states, numbered without
    repetition below the number of registered sets. *)
Definition registered_ok (n : Nfa) (registered_states : gmap (gset nat) nat)
  : Prop :=
  (∀ states i, registered_states !! states = Some i →
     i < size registered_states ∧ closed_states n states) ∧
  (∀ states states' i,
     registered_states !! states = Some i →
     registered_states !! states' = Some i → states = states').

(** The row of a set of states once the loop over its input characters
    is over. *)
Definition row_done (n : Nfa) (registered_states : gmap (gset nat) nat)
    (states : gset nat) (row : gmap string nat) : Prop :=
  ∃ input_chars,
    get_input_characters n states = Ok input_chars ∧
    (∀ char, is_Some (row !! char) ↔ char ∈ input_chars) ∧
    ∀ char k, row !! char = Some k →
      ∃ new_nfa_state, transition n states char = Ok new_nfa_state ∧
                       registered_states !! new_nfa_state = Some k.

(** What holds each time the [while stack] loop of [_translate_nfa]
    tests its condition: the sets on the work list are registered and
    have neither row entries nor a final mark yet, the others have their
    row and their final mark. *)
Definition translate_inv (n : Nfa) (data : gmap nat (gmap string nat))
    (fin : gset nat) (registered_states : gmap (gset nat) nat)
    (stack : list (gset nat)) : Prop :=
  registered_ok n registered_states ∧
  NoDup stack ∧
  (∀ i, is_Some (data !! i) ∨ i ∈ fin →
     ∃ states, registered_states !! states = Some i) ∧
  (∀ states, states ∈ stack →
     ∃ i, registered_states !! states = Some i ∧
          from_option id ∅ (data !! i) = ∅ ∧ i ∉ fin) ∧
  (∀ states i, registered_states !! states = Some i → states ∉ stack →
     (i ∈ fin ↔ is_final n states = true) ∧
     ∃ row, data !! i = Some row ∧ row_done n registered_states states row).

(** *** Row objects

    [TableRow] defines no [__eq__], so [==] on rows is the equality of
    [object]: two references are equal when they are the same object.
    Row objects are kept in a store and a row is its address. *)

Definition row_ref := nat.

Definition row_store (V : Type) := list (TableRow V).

Definition new_row {V} (d : gmap string V) (dflt : Default V) (h : row_store V)
  : row_ref * row_store V :=
  (length h, (h ++ [TableRow_init d dflt])%list).

Definition row_eq (a b : row_ref) : bool := bool_decide (a = b).

End Automata.

(** ** lexer/char_stream.py *)

Module Lexer.
Import Automata.

Record Token : Type := mkToken {
  category : string;
  lexeme : string
}.

Definition Token_init (cat : string) (lex : option string) : Token :=
  mkToken cat (from_option id cat lex).

Record CharacterStream : Type := mkCharacterStream {
  _admissible_characters : gset string;
  _special_characters : gset string;
  _escape_character : string;
  _general_class : string
}.

Definition _character_set (characters : option string) : gset string :=
  match characters with
  | None => ∅
  | Some s => list_to_set (chars s)
  end.

Definition CharacterStream_init (admissible special : option string)
    (escape general : string) : CharacterStream :=
  mkCharacterStream (_character_set admissible) (_character_set special)
    escape general.

Fixpoint tokenize_chars (lx : CharacterStream) (cs : list string)
    (tokens : list Token) : result (list Token) :=
  match cs with
  | [] => Ok tokens
  | char :: cs' =>
      if decide (char = _escape_character lx) then tokenize_chars lx cs' tokens
      else if decide (_admissible_characters lx ≠ ∅
                      ∧ char ∉ _admissible_characters lx)
      then Raise ValueError
      else if decide (char ∉ _special_characters lx)
      then tokenize_chars lx cs'
             (tokens ++ [Token_init (_general_class lx) (Some char)])%list
      else tokenize_chars lx cs' (tokens ++ [Token_init char None])%list
  end.

Definition tokenize (lx : CharacterStream) (s : string) : result (list Token) :=
  tokenize_chars lx (chars s) [].

(** The token [tokenize] makes of one character that is not the escape
    character. *)
Definition token_of (lx : CharacterStream) (char : string) : Token :=
  if decide (char ∈ _special_characters lx) then Token_init char None
  else Token_init (_general_class lx) (Some char).

(** The character passes the test on [admissible_characters]; an empty
    set admits every character. *)
Definition admitted (lx : CharacterStream) (char : string) : Prop :=
  _admissible_characters lx = ∅ ∨ char ∈ _admissible_characters lx.

(** The characters that [tokenize] does not skip. *)
Definition unescaped (lx : CharacterStream) (cs : list string) : list string :=
  filter (λ char, char ≠ _escape_character lx) cs.

End Lexer.

(** ** grammar.py *)

Module Grammar.

(** A Python value handled by the reductions: [None], a string (the
    lexeme of a token) or an object of the user's type [U]. *)
Inductive value (U : Type) : Type :=
| VNone
| VStr (s : string)
| VObj (u : U).

Arguments VNone {U}.
Arguments VStr {U} s.
Arguments VObj {U} u.

(** An element of a production.  A [NonTerminal] object is referred to by
    its index in the arena of non-terminal objects, since productions and
    non-terminals refer to each other. *)
Inductive element : Type :=
| Terminal (name : string)
| NonTerminal (ref : nat)
| Epsilon
| Action.

Section Grammar.
Context {U : Type}.

Record Return : Type := mkReturn {
  func : list (value U) → result (value U);
  args : option (list Z)
}.

Record Production : Type := mkProduction {
  head : option nat;
  elements : list element;
  return_value : option Return
}.

Record NonTerminalObj : Type := mkNonTerminal {
  name : string;
  productions : list Production
}.

Record Grammar : Type := mkGrammar {
  arena : list NonTerminalObj;
  non_terminals : list nat
}.
End Grammar.

Arguments Return U : clear implicits.
Arguments Production U : clear implicits.
Arguments NonTerminalObj U : clear implicits.
Arguments Grammar U : clear implicits.

End Grammar.

(** ** parser/parse_tree.py *)

Module ParseTree.
Import Lexer Grammar.

Section ParseTree.
Context {U : Type}.

Local Unset Elimination Schemes.
Inductive tree : Type :=
| Leaf (terminal : string) (token : option Token)
| Node (production : option (Production U)) (children : list tree)
| ActionChild.
Local Set Elimination Schemes.

(** [Node.set_from_production] followed by the loop of [_build_tree] over
    the children; [i] is the cursor [self._i] and [rec] builds a child
    node. *)
Fixpoint build_children (rec : nat → result (tree * nat))
    (es : list element) (i : nat) : result (list tree * nat) :=
  match es with
  | [] => Ok ([], i)
  | Terminal t :: es' =>
      '(cs, i') ← build_children rec es' i; Ok (Leaf t None :: cs, i')
  | NonTerminal _ :: es' =>
      '(c, i1) ← rec i;
      '(cs, i2) ← build_children rec es' i1;
      Ok (c :: cs, i2)
  | Action :: es' =>
      '(cs, i') ← build_children rec es' i; Ok (ActionChild :: cs, i')
  | Epsilon :: es' => build_children rec es' i
  end.

Fixpoint _build_tree (fuel : nat) (productions : list (Production U)) (i : nat)
  : result (tree * nat) :=
  match fuel with
  | 0 => Diverge
  | S fuel' =>
      match productions !! i with
      | None => Raise IndexError
      | Some production =>
          '(cs, i') ← build_children (_build_tree fuel' productions)
                        (elements production) (S i);
          Ok (Node (Some production) cs, i')
      end
  end.

(** [_find_leaves]: the leaves in the order [_visit_node] meets them. *)
Fixpoint _find_leaves (t : tree) : list tree :=
  match t with
  | Leaf _ _ => [t]
  | Node _ children => concat (_find_leaves <$> children)
  | ActionChild => []
  end.

(** The terminals of the leaves, in the order of the walk. *)
Fixpoint leaf_terminals (t : tree) : list string :=
  match t with
  | Leaf terminal _ => [terminal]
  | Node _ children => concat (leaf_terminals <$> children)
  | ActionChild => []
  end.


(** The leaf made for a terminal once its token is attached. *)
Definition labelled (terminal : string) (tok : Token) : tree :=
  Leaf terminal (Some tok).

(** The walk over the children of a node, handing the tokens that are
    left from one child to the next. *)
Definition add_tokens_children (rec : tree → list Token → tree * list Token)
  : list tree → list Token → list tree * list Token :=
  fix go l tokens :=
    match l with
    | [] => ([], tokens)
    | c :: l' =>
        let '(c', tokens1) := rec c tokens in
        let '(l'', tokens2) := go l' tokens1 in
        (c' :: l'', tokens2)
    end.

(** [_add_tokens]: the i-th leaf of [self.leaves] receives the i-th token;
    leaves beyond the tokens keep [None].  The leaves are the objects of
    the tree, so the tree is relabelled in the order of the walk. *)
Fixpoint _add_tokens (t : tree) (tokens : list Token) : tree * list Token :=
  match t with
  | Leaf terminal tok =>
      match tokens with
      | [] => (t, [])
      | k :: tokens' => (Leaf terminal (Some k), tokens')
      end
  | Node p children =>
      let '(cs, rest) := add_tokens_children _add_tokens children tokens in
      (Node p cs, rest)
  | ActionChild => (t, tokens)
  end.

Definition _this (xs : list (value U)) : result (value U) :=
  match xs with
  | [x] => Ok x
  | _ => Raise TypeError
  end.

(** [[args[i] for i in indices]] *)
Definition select_args (xs : list (value U)) (indices : list Z)
  : result (list (value U)) :=
  mapM (py_getitem xs) indices.

Fixpoint _return_value (t : tree) : result (value U) :=
  match t with
  | Leaf _ tok =>
      match tok with
      | Some k => Ok (VStr (lexeme k))
      | None => Raise AttributeError
      end
  | Node p children =>
      match p with
      | None => Raise AttributeError
      | Some production =>
          let action :=
            match return_value production with
            | Some r => func r
            | None => _this
            end in
          xs ← (fix go (l : list tree) : result (list (value U)) :=
                  match l with
                  | [] => Ok []
                  | c :: l' => x ← _return_value c; xs ← go l'; Ok (x :: xs)
                  end) children;
          xs' ← match return_value production with
                | Some r =>
                    match args r with
                    | Some indices => select_args xs indices
                    | None => Ok xs
                    end
                | None => Ok xs
                end;
          action xs'
      end
  | ActionChild => Raise TypeError
  end.

Record ParseTreeObj : Type := mkParseTree {
  root : tree;
  leaves : list tree;
  tree_return_value : value U
}.

(** [ParseTree.__init__].  The recursion of [_build_tree] moves the
    cursor forward at every call, so its depth is at most the number of
    productions. *)
Definition ParseTree_init (tokens : list Token)
    (productions : list (Production U)) : result ParseTreeObj :=
  '(skeleton, _) ← _build_tree (S (length productions)) productions 0;
  let '(root, _) := _add_tokens skeleton tokens in
  match root with
  | Node (Some production) _ =>
      match return_value production with
      | Some _ =>
          v ← _return_value root;
          Ok (mkParseTree root (_find_leaves root) v)
      | None => Ok (mkParseTree root (_find_leaves root) VNone)
      end
  | _ => Raise AttributeError
  end.
End ParseTree.

Arguments tree U : clear implicits.
Arguments ParseTreeObj U : clear implicits.

End ParseTree.

(** ** parser/recursive_descent.py *)

Module Parser.
Import Lexer Grammar ParseTree.

Section Parser.
Context {U : Type}.

(** The scan state of the parser.  [_stack] is kept in the order of the
    Python list: [append] adds at the end. *)
Record scan : Type := mkScan {
  _lookahead : option nat;
  _stack : list (Production U)
}.

Definition outcome : Type := result (bool * scan).

Section Scan.
Variable arena : list (NonTerminalObj U).
Variable _tokens : list Token.

Definition _advance_lookahead (st : scan) : scan :=
  match _lookahead st with
  | Some la =>
      let increased := la + 1 in
      mkScan (if decide (length _tokens ≤ increased) then None
              else Some increased) (_stack st)
  | None => st
  end.

Definition _match_terminal (terminal : string) (st : scan) : outcome :=
  match _lookahead st with
  | None => Ok (false, st)
  | Some la =>
      match _tokens !! la with
      | None => Raise IndexError
      | Some tok =>
          if decide (category tok = terminal)
          then Ok (true, _advance_lookahead st)
          else Ok (false, st)
      end
  end.

(** The loop of [_match_production] over the elements; [save] is the
    lookahead at the entry of the production. *)
Fixpoint match_elements (rec : element → scan → outcome)
    (save : option nat) (es : list element) (st : scan) : outcome :=
  match es with
  | [] => Ok (true, st)
  | e :: es' =>
      '(ok, st') ← rec e st;
      if ok : bool then match_elements rec save es' st'
      else Ok (false, mkScan save (_stack st'))
  end.

Definition _match_production (rec : element → scan → outcome)
    (production : Production U) (st : scan) : outcome :=
  match_elements rec (_lookahead st) (elements production) st.

(** The loop of [_match_non_terminal] over the alternatives; [save] is
    the length of the stack at the entry of the non-terminal. *)
Fixpoint match_alternatives (rec : element → scan → outcome)
    (save : nat) (ps : list (Production U)) (st : scan) : outcome :=
  match ps with
  | [] => Ok (false, st)
  | production :: ps' =>
      let st1 := mkScan (_lookahead st) (_stack st ++ [production])%list in
      '(ok, st2) ← _match_production rec production st1;
      if ok : bool then Ok (true, st2)
      else match_alternatives rec save ps'
             (mkScan (_lookahead st2) (take save (_stack st2)))
  end.

Definition _match_non_terminal (rec : element → scan → outcome)
    (alternatives : list (Production U)) (st : scan) : outcome :=
  match_alternatives rec (length (_stack st)) alternatives st.

(** The productions of the non-terminal object at address [ref]; an
    address outside the arena is a non-terminal that was never bound. *)
Definition productions_of (ref : nat) : list (Production U) :=
  match arena !! ref with
  | Some nt => productions nt
  | None => []
  end.

(** [fuel] bounds the nesting of non-terminals. *)
Fixpoint _match_production_element (fuel : nat) (production_element : element)
    (st : scan) : outcome :=
  match fuel with
  | 0 => Diverge
  | S fuel' =>
      match production_element with
      | Terminal t => _match_terminal t st
      | NonTerminal ref =>
          _match_non_terminal (_match_production_element fuel')
            (productions_of ref) st
      | Epsilon => Ok (true, st)
      | Action => Raise TypeError
      end
  end.

(** The token position a lookahead stands for; [None] is past the end. *)
Definition position (la : option nat) : nat :=
  match la with
  | Some i => i
  | None => length _tokens
  end.

(** The tokens from position [p] on have the categories [terminals]. *)
Definition consumed (p : nat) (terminals : list string) : Prop :=
  ∀ i t, terminals !! i = Some t →
    ∃ tok, _tokens !! (p + i) = Some tok ∧ category tok = t.

(** What a successful match of the elements [es] from [st] to [st']
    means for the tree: the productions [ps] it appended to the stack
    are exactly those from which [build] makes the children [cs] of
    [es], whatever precedes and follows them on the stack, and the
    leaves of [cs] stand for the tokens between the two lookaheads. *)
Definition parsed (build : list (Production U) → nat → result (tree U * nat))
    (es : list element) (st st' : scan) : Prop :=
  ∃ ps cs,
    _stack st' = _stack st ++ ps ∧
    position (_lookahead st')
    = position (_lookahead st) + length (concat (leaf_terminals <$> cs)) ∧
    consumed (position (_lookahead st)) (concat (leaf_terminals <$> cs)) ∧
    ∀ pre rest,
      build_children (build (pre ++ ps ++ rest)) es (length pre)
      = Ok (cs, length pre + length ps).

(** The children [cs] are derivation trees of the elements [es]: a terminal
    has a leaf of that terminal, a non-terminal has a node whose production
    is one of its alternatives and whose children are derivation trees of
    the elements of that production, and [Epsilon] has no child. *)
Inductive derives_children : list element → list (tree U) → Prop :=
| derives_nil : derives_children [] []
| derives_terminal t tok es cs :
    derives_children es cs →
    derives_children (Terminal t :: es) (Leaf t tok :: cs)
| derives_non_terminal ref q cs' es cs :
    q ∈ productions_of ref →
    derives_children (elements q) cs' →
    derives_children es cs →
    derives_children (NonTerminal ref :: es) (Node (Some q) cs' :: cs)
| derives_epsilon es cs :
    derives_children es cs →
    derives_children (Epsilon :: es) cs.




(** As [parsed], for the shape of the children instead of their leaves. *)
Definition derived (build : list (Production U) → nat → result (tree U * nat))
    (es : list element) (st st' : scan) : Prop :=
  ∃ ps cs,
    _stack st' = _stack st ++ ps ∧
    derives_children es cs ∧
    ∀ pre rest,
      build_children (build (pre ++ ps ++ rest)) es (length pre)
      = Ok (cs, length pre + length ps).
End Scan.

(** The state in which [_match_non_terminal] tries an alternative: the
    production is appended to the stack. *)
Definition push (production : Production U) (st : scan) : scan :=
  mkScan (_lookahead st) (_stack st ++ [production]).

(** [production] is tried from [st] and fails. *)
Definition alternative_fails (rec : element → scan → outcome)
    (st : scan) (production : Production U) : Prop :=
  ∃ st', _match_production rec production (push production st) = Ok (false, st').

(** A matcher of elements that only appends to the stack and leaves the
    state as it was when it fails. *)
Definition stack_discipline (rec : element → scan → outcome) : Prop :=
  ∀ e st b st', rec e st = Ok (b, st') →
    (∃ ps, _stack st' = _stack st ++ ps) ∧ (b = false → st' = st).

Record RecursiveDescentParser : Type := mkParser {
  grammar : Grammar U;
  lexer : CharacterStream;
  parse_tree : option (ParseTreeObj U);
  parser_return_value : value U;
  parser_tokens : list Token;
  parser_scan : scan
}.

Definition RecursiveDescentParser_init (g : Grammar U) (lx : CharacterStream)
  : RecursiveDescentParser :=
  mkParser g lx None VNone [] (mkScan None []).

Definition _reset (p : RecursiveDescentParser) (tokens : list Token)
  : RecursiveDescentParser :=
  mkParser (grammar p) (lexer p) None VNone tokens (mkScan (Some 0) []).

(** [_scan]: [self.grammar[0]] is the start symbol. *)
Definition _scan (fuel : nat) (p : RecursiveDescentParser)
  : result (bool * RecursiveDescentParser) :=
  match non_terminals (grammar p) !! 0 with
  | None => Raise IndexError
  | Some start =>
      '(res, st) ← _match_production_element (arena (grammar p))
                     (parser_tokens p) fuel (NonTerminal start) (parser_scan p);
      let p' := mkParser (grammar p) (lexer p) (parse_tree p)
                  (parser_return_value p) (parser_tokens p) st in
      Ok (res && bool_decide (_lookahead st = None), p')
  end.

Definition parse (fuel : nat) (p : RecursiveDescentParser) (s : string)
  : result (bool * RecursiveDescentParser) :=
  tokens ← tokenize (lexer p) s;
  '(ok, p1) ← _scan fuel (_reset p tokens);
  if ok : bool then
    pt ← ParseTree_init (parser_tokens p1) (_stack (parser_scan p1));
    Ok (true, mkParser (grammar p1) (lexer p1) (Some pt) (tree_return_value pt)
                (parser_tokens p1) (parser_scan p1))
  else Ok (false, p1).
End Parser.

Arguments scan U : clear implicits.
Arguments RecursiveDescentParser U : clear implicits.

End Parser.

(** ** regular/regex.py *)

Module Regex.
Import Automata Lexer Grammar ParseTree Parser.

(** The reductions of the grammar, as callables on Python values.  A
    call with the wrong number of arguments is a [TypeError]; using a
    string where an automaton is expected is an [AttributeError]. *)
Definition as_nfa (v : value Nfa) : result Nfa :=
  match v with
  | VObj n => Ok n
  | _ => Raise AttributeError
  end.

Definition call_union (xs : list (value Nfa)) : result (value Nfa) :=
  ns ← mapM as_nfa xs; n ← Nfa_union ns; Ok (VObj n).

Definition call_concat (xs : list (value Nfa)) : result (value Nfa) :=
  ns ← mapM as_nfa xs; n ← Nfa_concat ns; Ok (VObj n).

Definition call_star (xs : list (value Nfa)) : result (value Nfa) :=
  match xs with
  | [x] => n ← as_nfa x; s ← Nfa_star n; Ok (VObj s)
  | _ => Raise TypeError
  end.

(** [lambda x: Nfa.union(x, Nfa.epsilon())] *)
Definition call_optional (xs : list (value Nfa)) : result (value Nfa) :=
  match xs with
  | [x] => e ← Nfa_epsilon; call_union [x; VObj e]
  | _ => Raise TypeError
  end.

(** [lambda x: Nfa.concat(x, Nfa.star(x))] *)
Definition call_plus (xs : list (value Nfa)) : result (value Nfa) :=
  match xs with
  | [x] => s ← call_star [x]; call_concat [x; s]
  | _ => Raise TypeError
  end.

(** [lambda x: x] *)
Definition call_identity (xs : list (value Nfa)) : result (value Nfa) :=
  match xs with
  | [x] => Ok x
  | _ => Raise TypeError
  end.

(** [Nfa.char]: the argument is used as a column name. *)
Definition call_char (xs : list (value Nfa)) : result (value Nfa) :=
  match xs with
  | [VStr c] => n ← Nfa_char c; Ok (VObj n)
  | [_] => Raise TypeError
  | _ => Raise TypeError
  end.

(** Addresses of the four non-terminal objects. *)
Definition union : nat := 0.
Definition concat : nat := 1.
Definition star : nat := 2.
Definition item : nat := 3.

(** [union += concat + Terminal('|') + union >> Return(Nfa.union, args=[0, 2]) | concat]
    and the three other rules; [+] binds tighter than [>>], which binds
    tighter than [|]. *)
Definition union_productions : list (Production Nfa) :=
  [ mkProduction (Some union) [NonTerminal concat; Terminal "|"; NonTerminal union]
      (Some (mkReturn call_union (Some [0; 2]%Z)));
    mkProduction (Some union) [NonTerminal concat] None ].

Definition concat_productions : list (Production Nfa) :=
  [ mkProduction (Some concat) [NonTerminal star; NonTerminal concat]
      (Some (mkReturn call_concat None));
    mkProduction (Some concat) [NonTerminal star] None ].

Definition star_productions : list (Production Nfa) :=
  [ mkProduction (Some star) [NonTerminal item; Terminal "*"]
      (Some (mkReturn call_star (Some [0%Z])));
    mkProduction (Some star) [NonTerminal item; Terminal "?"]
      (Some (mkReturn call_optional (Some [0%Z])));
    mkProduction (Some star) [NonTerminal item; Terminal "+"]
      (Some (mkReturn call_plus (Some [0%Z])));
    mkProduction (Some star) [NonTerminal item] None ].

Definition item_productions : list (Production Nfa) :=
  [ mkProduction (Some item) [Terminal "("; NonTerminal union; Terminal ")"]
      (Some (mkReturn call_identity (Some [1%Z])));
    mkProduction (Some item) [Terminal "char"]
      (Some (mkReturn call_char None)) ].

Definition grammar : Grammar Nfa :=
  mkGrammar
    [ mkNonTerminal "UNION" union_productions;
      mkNonTerminal "CONCAT" concat_productions;
      mkNonTerminal "STAR" star_productions;
      mkNonTerminal "ITEM" item_productions ]
    [union; concat; star; item].

Definition lexer : CharacterStream :=
  CharacterStream_init None (Some "()*|?+") "\" "char".

Definition parser : RecursiveDescentParser Nfa :=
  RecursiveDescentParser_init grammar lexer.

(** The value left in [parser.return_value] by [parser.parse(pattern)]. *)
Definition NFA_of (fuel : nat) (pattern : string) : result (value Nfa) :=
  '(_, p) ← parse fuel parser pattern;
  Ok (parser_return_value p).

(** [compile]; [Dfa(nfa)] starts with [nfa.epsilon_closure(0)], which is
    an [AttributeError] when [nfa] is [None] or a string. *)
Definition compile (fuel : nat) (pattern : string) : result Dfa :=
  v ← NFA_of fuel pattern;
  nfa ← as_nfa v;
  Dfa_init fuel nfa.

(** [match] with a pattern given as a string. *)
Definition match_ (fuel : nat) (pattern : string) (s : string) : result bool :=
  automaton ← compile fuel pattern;
  Ok (Dfa_match automaton s).

End Regex.

(* PROPERTIES *)

(** ** examples/prefix.py *)

Module Prefix.
Import Lexer Grammar ParseTree Parser.

(** [int] on a lexeme.  The lexer emits one token per character, so the
    argument is a single character; anything but a decimal digit is a
    [ValueError]. *)
Definition int_of_digit (s : string) : result Z :=
  match s with
  | "0" => Ok 0%Z | "1" => Ok 1%Z | "2" => Ok 2%Z | "3" => Ok 3%Z
  | "4" => Ok 4%Z | "5" => Ok 5%Z | "6" => Ok 6%Z | "7" => Ok 7%Z
  | "8" => Ok 8%Z | "9" => Ok 9%Z
  | _ => Raise ValueError
  end.

(** [lambda x, y: x + y] *)
Definition call_add (xs : list (value Z)) : result (value Z) :=
  match xs with
  | [VObj x; VObj y] => Ok (VObj (x + y)%Z)
  | [VStr x; VStr y] => Ok (VStr (x ++ y)%string)
  | _ => Raise TypeError
  end.

(** [lambda x, y: x - y] *)
Definition call_sub (xs : list (value Z)) : result (value Z) :=
  match xs with
  | [VObj x; VObj y] => Ok (VObj (x - y)%Z)
  | _ => Raise TypeError
  end.

Definition call_int (xs : list (value Z)) : result (value Z) :=
  match xs with
  | [VStr s] => n ← int_of_digit s; Ok (VObj n)
  | [VObj n] => Ok (VObj n)
  | _ => Raise TypeError
  end.

Definition stmt : nat := 0.

Definition stmt_productions : list (Production Z) :=
  [ mkProduction (Some stmt) [Terminal "+"; NonTerminal stmt; NonTerminal stmt]
      (Some (mkReturn call_add (Some [1; 2]%Z)));
    mkProduction (Some stmt) [Terminal "-"; NonTerminal stmt; NonTerminal stmt]
      (Some (mkReturn call_sub (Some [1; 2]%Z)));
    mkProduction (Some stmt) [Terminal "digit"]
      (Some (mkReturn call_int None)) ].

Definition prefix_grammar : Grammar Z :=
  mkGrammar [mkNonTerminal "stmt" stmt_productions] [stmt].

Definition lexer : CharacterStream :=
  CharacterStream_init (Some "+-0123456789") (Some "+-") "\" "digit".

Definition parser : RecursiveDescentParser Z :=
  RecursiveDescentParser_init prefix_grammar lexer.

(** A grammar whose start symbol derives the empty string:
    [s = NonTerminal('S'); s += Epsilon()]. *)
Definition epsilon_grammar : Grammar Z :=
  mkGrammar [mkNonTerminal "S" [mkProduction (Some 0) [Epsilon] None]] [0].

Definition epsilon_parser : RecursiveDescentParser Z :=
  RecursiveDescentParser_init epsilon_grammar lexer.

End Prefix.

(** * Properties *)

(** ** The result monad *)

Lemma bind_Ok {A C} (m : result A) (k : A → result C) (c : C) :
  m ≫= k = Ok c ↔ ∃ a, m = Ok a ∧ k a = Ok c.
Proof.
  destruct m; simpl; split; try (intros (a' & ? & ?)); try done; eauto.
  by simplify_eq.
Qed.

Section ResultFacts.
Context {A B : Type}.
Implicit Types (f : A → result B) (l : list A).

Lemma mapM_Ok f l ys :
  mapM f l = Ok ys ↔ Forall2 (λ x y, f x = Ok y) l ys.
Proof.
  revert ys. induction l as [|x l IH]; intros ys; simpl.
  - split; [intros [= <-]; constructor | by inversion 1].
  - split.
    + intros H. apply bind_Ok in H as (y & Hy & H).
      apply bind_Ok in H as (k & Hk & [= <-]).
      constructor; [done | by apply IH].
    + inversion 1 as [|? y ? k Hy Hk]; subst.
      apply IH in Hk. cbn. rewrite Hy. cbn. by rewrite Hk.
Qed.

Lemma mapM_total f l :
  (∀ x, x ∈ l → ∃ y, f x = Ok y) → ∃ ys, mapM f l = Ok ys.
Proof.
  induction l as [|x l IH]; intros H; [by eexists|].
  destruct (H x) as [y Hy]; [left|].
  destruct IH as [ys Hys]; [intros; apply H; by right|].
  exists (y :: ys). apply mapM_Ok. constructor; [done | by apply mapM_Ok].
Qed.

Lemma mapM_not_Diverge f l :
  (∀ x, x ∈ l → f x ≠ Diverge) → mapM f l ≠ Diverge.
Proof.
  induction l as [|x l IH]; intros H; [done|].
  cbn. destruct (f x) eqn:Hx; cbn; [|done|].
  - destruct (mapM f l) eqn:Hl; cbn; [done..|].
    exfalso. apply IH; [|done]. intros; apply H; by right.
  - exfalso. apply (H x); [left | done].
Qed.
End ResultFacts.

(** ** The epsilon-closure search *)

Section ClosureFacts.
Import Automata.
Implicit Types (t : Table (gset nat)) (states update : gset nat).

Lemma cell_Ok t u k c :
  cell t u k = Ok c ↔ ∃ row, tdata t !! u = Some row ∧ c = row_getitem row k.
Proof.
  unfold cell. destruct (tdata t !! u) as [row|]; split.
  - intros [= <-]. eauto.
  - by intros (? & [= <-] & ->).
  - done.
  - by intros (? & ? & _).
Qed.

Lemma cell_not_Diverge t u k : cell t u k ≠ Diverge.
Proof. unfold cell. by destruct (tdata t !! u). Qed.

Lemma set_union_cells_not_Diverge cs : set_union_cells cs ≠ Diverge.
Proof.
  induction cs as [|[s|] cs IH]; simpl; try done.
  by destruct (set_union_cells cs).
Qed.

(** What the union of the cells of a set of states contains. *)
Lemma cells_union_list t k (l : list nat) cs u :
  mapM (λ x, cell t x k) l = Ok cs → set_union_cells cs = Ok u →
  (∀ x, x ∈ l → ∃ row s,
      tdata t !! x = Some row ∧ row_getitem row k = Some s ∧ s ⊆ u) ∧
  (∀ y, y ∈ u → ∃ x row s,
      x ∈ l ∧ tdata t !! x = Some row ∧ row_getitem row k = Some s ∧ y ∈ s).
Proof.
  intros H. apply mapM_Ok in H. revert u.
  induction H as [|x c l cs Hc _ IH]; intros u Hu.
  - simpl in Hu. injection Hu as <-. split; [by inversion 1 | set_solver].
  - simpl in Hu. destruct c as [s|]; [|done].
    apply bind_Ok in Hu as (u' & Hu' & [= <-]).
    apply cell_Ok in Hc as (row & Hrow & Hs).
    destruct (IH _ Hu') as [IH1 IH2]. split.
    + intros x' [->|Hx']%elem_of_cons.
      * exists row, s. split_and!; [done | done | set_solver].
      * destruct (IH1 _ Hx') as (row' & s' & ? & ? & ?).
        exists row', s'. split_and!; [done | done | set_solver].
    + intros y [Hy|Hy]%elem_of_union.
      * exists x, row, s. split_and!; [left | done | done | done].
      * destruct (IH2 _ Hy) as (x' & row' & s' & ? & ? & ? & ?).
        exists x', row', s'. split_and!; [by right | done..].
Qed.

Lemma cells_union t k states cs u :
  cells_of t states k = Ok cs → set_union_cells cs = Ok u →
  (∀ x, x ∈ states → ∃ row s,
      tdata t !! x = Some row ∧ row_getitem row k = Some s ∧ s ⊆ u) ∧
  (∀ y, y ∈ u → ∃ x row s,
      x ∈ states ∧ tdata t !! x = Some row ∧ row_getitem row k = Some s ∧ y ∈ s).
Proof.
  unfold cells_of. intros H1 H2.
  destruct (cells_union_list _ _ _ _ _ H1 H2) as [Ha Hb]. split.
  - intros x Hx. apply Ha. by apply elem_of_elements.
  - intros y Hy. destruct (Hb y Hy) as (x & row & s & Hx & ?).
    exists x, row, s. split; [by apply elem_of_elements in Hx | done].
Qed.

(** The result of the search: it keeps [states], every state of it is
    reachable by epsilon-transitions, and it is closed under them when
    the successors of [states] are already in [states ∪ update]. *)
Lemma iter_search_spec fuel t states update r :
  iter_search fuel t states update = Ok r →
  states ⊆ r ∧
  (∀ y, y ∈ r → ∃ x, x ∈ states ∪ update ∧ rtc (eps_step t) x y) ∧
  ((∀ x y, x ∈ states → eps_step t x y → y ∈ states ∪ update) →
   ∀ x y, x ∈ r → eps_step t x y → y ∈ r).
Proof.
  revert states update. induction fuel as [|fuel IH]; intros states update;
    [done|]. simpl. case_decide as Hupd.
  - intros [= <-]. subst update. split_and!; [done | | ].
    + intros y Hy. exists y. split; [set_solver | done].
    + intros Hcl x y Hx Hxy. specialize (Hcl x y Hx Hxy). set_solver.
  - intros H. apply bind_Ok in H as (cs & Hcs & H).
    apply bind_Ok in H as (u & Hu & H).
    destruct (cells_union _ _ _ _ _ Hcs Hu) as [Hsub Hsup].
    destruct (IH _ _ H) as (I1 & I2 & I3). split_and!.
    + set_solver.
    + intros y Hy. destruct (I2 y Hy) as (x & Hx & Hxy).
      apply elem_of_union in Hx as [Hx|Hx].
      * exists x. split; [set_solver | done].
      * apply elem_of_difference in Hx as [Hx _].
        destruct (Hsup x Hx) as (x0 & row & s & Hx0 & Hrow & Hs & Hin).
        exists x0. split; [set_solver|].
        eapply rtc_l; [|done]. by exists row, s.
    + intros Hcl. apply I3. intros x y Hx Hxy.
      destruct (decide (y ∈ states ∪ update ∖ states)) as [|Hy];
        [set_solver|].
      apply elem_of_union; right. apply elem_of_difference; split; [|done].
      apply elem_of_union in Hx as [Hx|Hx].
      * specialize (Hcl x y Hx Hxy). exfalso. apply Hy.
        destruct (decide (y ∈ states)); set_solver.
      * destruct (Hsub x Hx) as (row & s & Hrow & Hs & Hsu).
        destruct Hxy as (row' & s' & Hrow' & Hs' & Hy').
        simplify_eq. set_solver.
Qed.

Lemma find_epsilon_closure_spec t s c :
  _find_epsilon_closure t s = Ok c →
  s ∈ c ∧
  (∀ y, y ∈ c → rtc (eps_step t) s y) ∧
  (∀ x y, x ∈ c → eps_step t x y → y ∈ c).
Proof.
  unfold _find_epsilon_closure. intros H.
  apply bind_Ok in H as (o & Ho & H).
  apply cell_Ok in Ho as (row & Hrow & ->).
  destruct (row_getitem row EPSILON) as [update|] eqn:Hupd.
  - destruct (iter_search_spec _ _ _ _ _ H) as (I1 & I2 & I3). split_and!.
    + set_solver.
    + intros y Hy. destruct (I2 y Hy) as (x & Hx & Hxy).
      apply elem_of_union in Hx as [->%elem_of_singleton|Hx]; [done|].
      eapply rtc_l; [|done]. by exists row, update.
    + apply I3. intros x y ->%elem_of_singleton (row' & s' & ? & ? & ?).
      simplify_eq. set_solver.
  - injection H as <-. split_and!.
    + set_solver.
    + by intros y ->%elem_of_singleton.
    + intros x y ->%elem_of_singleton (row' & s' & ? & ? & ?). simplify_eq.
Qed.

(** *** Termination of the search *)

Lemma in_range_size t states : in_range t states → size states ≤ table_len t.
Proof.
  intros H. rewrite <-(size_set_seq (C := gset nat) 0 (table_len t)).
  apply subseteq_size. intros x Hx. apply elem_of_set_seq.
  specialize (H x Hx). lia.
Qed.

Lemma cells_of_in_range t k states cs :
  cells_of t states k = Ok cs → in_range t states.
Proof.
  unfold cells_of. intros H%mapM_Ok x Hx%elem_of_elements.
  apply list_elem_of_lookup in Hx as [i Hi].
  destruct (Forall2_lookup_l _ _ _ _ _ H Hi) as (c & _ & Hc).
  apply cell_Ok in Hc as (row & Hrow & _).
  by apply lookup_lt_Some in Hrow.
Qed.

Lemma cells_of_not_Diverge t k states : cells_of t states k ≠ Diverge.
Proof. apply mapM_not_Diverge. intros; apply cell_not_Diverge. Qed.

(** From a call whose [update] is disjoint from [states], every further
    call adds a state. *)
Lemma iter_search_terminates_disjoint fuel t states update :
  in_range t states → update ## states →
  table_len t + 1 ≤ fuel + size states →
  iter_search fuel t states update ≠ Diverge.
Proof.
  revert states update. induction fuel as [|fuel IH];
    intros states update Hr Hdisj Hfuel.
  - apply in_range_size in Hr. simpl in *. lia.
  - simpl. case_decide as Hupd; [done|].
    destruct (cells_of t (update ∖ states) EPSILON) as [cs| |] eqn:Hcs;
      cbn; [|done|by apply cells_of_not_Diverge in Hcs].
    destruct (set_union_cells cs) as [u| |] eqn:Hu;
      cbn; [|done|by apply set_union_cells_not_Diverge in Hu].
    apply cells_of_in_range in Hcs.
    assert (update ∖ states = update) as Heq by set_solver.
    rewrite Heq in *.
    assert (size update ≠ 0) by by intros ?%size_empty_inv%leibniz_equiv.
    apply IH.
    + intros x [?|?]%elem_of_union; auto.
    + set_solver.
    + rewrite size_union by set_solver. lia.
Qed.

Lemma iter_search_terminates fuel t states update :
  in_range t states →
  table_len t + 2 ≤ fuel + size states →
  iter_search fuel t states update ≠ Diverge.
Proof.
  intros Hr Hfuel. destruct fuel as [|fuel]; simpl.
  { apply in_range_size in Hr. lia. }
  case_decide as Hupd; [done|].
  destruct (cells_of t (update ∖ states) EPSILON) as [cs| |] eqn:Hcs;
    cbn; [|done|by apply cells_of_not_Diverge in Hcs].
  destruct (set_union_cells cs) as [u| |] eqn:Hu;
    cbn; [|done|by apply set_union_cells_not_Diverge in Hu].
  apply cells_of_in_range in Hcs.
  apply iter_search_terminates_disjoint.
  - intros x [?|?]%elem_of_union; auto.
  - set_solver.
  - rewrite size_union by set_solver. lia.
Qed.

(** The budget [closure_fuel] is never exhausted, whatever the table. *)
Lemma find_epsilon_closure_terminates t s :
  _find_epsilon_closure t s ≠ Diverge.
Proof.
  unfold _find_epsilon_closure.
  destruct (cell t s EPSILON) as [c| |] eqn:Hc; cbn;
    [|done|by apply cell_not_Diverge in Hc].
  destruct c as [update|]; [|done].
  apply cell_Ok in Hc as (row & Hrow%lookup_lt_Some & _).
  apply iter_search_terminates.
  - by intros x ->%elem_of_singleton.
  - rewrite size_singleton. unfold closure_fuel, nfa_len. lia.
Qed.

(** *** Well-formed tables raise nothing *)

Lemma wf_cell t x k :
  wf_table t → x < table_len t →
  ∃ s, cell t x k = Ok (Some s) ∧ in_range t s.
Proof.
  intros [_ Hwf] Hx. unfold cell.
  destruct (lookup_lt_is_Some_2 (tdata t) x Hx) as [row Hrow].
  rewrite Hrow. rewrite Forall_lookup in Hwf.
  destruct (Hwf _ _ Hrow) as [Hd Hcells].
  unfold row_getitem, _return_default. rewrite Hd.
  destruct (data row !! k) as [s|] eqn:Hs.
  - exists s. split; [done|]. intros y Hy. eapply Hcells; eauto.
  - exists ∅. split; [done|]. intros y Hy. set_solver.
Qed.

Lemma wf_cells_union t k states :
  wf_table t → in_range t states →
  ∃ cs u, cells_of t states k = Ok cs ∧ set_union_cells cs = Ok u ∧
          in_range t u.
Proof.
  intros Hwf Hr.
  destruct (mapM_total (λ x, cell t x k) (elements states)) as [cs Hcs].
  { intros x Hx%elem_of_elements.
    destruct (wf_cell t x k Hwf (Hr x Hx)) as (s & -> & _). eauto. }
  assert (∃ u, set_union_cells cs = Ok u) as [u Hu].
  { apply mapM_Ok in Hcs. clear Hr.
    induction Hcs as [|x c l cs' Hc Hrest IH]; [by eexists|].
    destruct IH as [u Hu]. apply cell_Ok in Hc as (row & Hrow & ->).
    destruct (wf_cell t x k Hwf) as (s & Hs & _);
      [by apply lookup_lt_Some in Hrow|].
    apply cell_Ok in Hs as (row' & Hrow' & Hs). simplify_eq.
    rewrite <-Hs. simpl. rewrite Hu. by eexists. }
  exists cs, u. split_and!; [done..|].
  destruct (cells_union _ _ _ _ _ Hcs Hu) as [_ Hsup].
  intros y Hy. destruct (Hsup y Hy) as (x & row & s & Hx & Hrow & Hs & Hin).
  destruct (wf_cell t x k Hwf (Hr x Hx)) as (s' & Hs' & Hrs).
  apply cell_Ok in Hs' as (row' & ? & ?). simplify_eq.
  apply Hrs. congruence.
Qed.

Lemma wf_iter_search fuel t states update e :
  wf_table t → in_range t states → in_range t update →
  iter_search fuel t states update ≠ Raise e.
Proof.
  intros Hwf. revert states update.
  induction fuel as [|fuel IH]; intros states update Hs Hu; [done|].
  simpl. case_decide; [done|].
  destruct (wf_cells_union t EPSILON (update ∖ states) Hwf)
    as (cs & u & -> & Hcu & Hru).
  { intros x [? _]%elem_of_difference. auto. }
  cbn. rewrite Hcu. cbn. apply IH.
  - intros x [?|[? _]%elem_of_difference]%elem_of_union; auto.
  - intros x [? _]%elem_of_difference. auto.
Qed.

Lemma wf_find_epsilon_closure t s :
  wf_table t → s < table_len t → ∃ c, _find_epsilon_closure t s = Ok c.
Proof.
  intros Hwf Hs.
  pose proof (find_epsilon_closure_terminates t s) as Hterm.
  destruct (_find_epsilon_closure t s) as [c|e|] eqn:Hc; [by eexists| |done].
  exfalso. unfold _find_epsilon_closure in Hc.
  destruct (wf_cell t s EPSILON Hwf Hs) as (u & Hu & Hru).
  rewrite Hu in Hc. cbn in Hc.
  eapply wf_iter_search; [done | | done | done].
  by intros x ->%elem_of_singleton.
Qed.

(** *** The cache of closures *)

Lemma Nfa_init_Ok t n :
  Nfa_init t = Ok n →
  table n = t ∧
  ∀ s, s < table_len t →
    ∃ c, _epsilon_closure n !! s = Some c ∧ _find_epsilon_closure t s = Ok c.
Proof.
  unfold Nfa_init. intros H. apply bind_Ok in H as (cl & Hcl & [= <-]).
  split; [done|]. intros s Hs. apply mapM_Ok in Hcl. simpl.
  destruct (Forall2_lookup_l _ _ _ s s Hcl) as (c & ? & ?); [|by eauto].
  by apply lookup_seq.
Qed.

Lemma wf_Nfa_init t : wf_table t → ∃ n, Nfa_init t = Ok n.
Proof.
  intros Hwf. unfold Nfa_init.
  destruct (mapM_total (_find_epsilon_closure t) (seq 0 (nfa_len t)))
    as [cl ->]; [|by eexists].
  intros s Hs. apply wf_find_epsilon_closure; [done|].
  apply elem_of_seq in Hs. unfold nfa_len in Hs. lia.
Qed.
End ClosureFacts.

(** ** Tables of the automata built by the combinators *)

Section TableFacts.
Import Automata.
Implicit Types (t : Table (gset nat)) (r : TableRow (gset nat)).

Lemma offsets_of_prefix_sums l ls :
  offsets_of (l :: ls) = prefix_sums 0 (l :: ls).
Proof.
  unfold offsets_of. simpl. f_equal. rewrite Nat.sub_0_r.
  assert (∀ off, (λ i, off + sum_list (take i ls)) <$> seq 0 (length ls)
                 = prefix_sums off ls) as H.
  { induction ls as [|a ls IH]; intros off; [done|].
    simpl. f_equal; [lia|]. rewrite <-IH, <-fmap_S_seq, <-list_fmap_compose.
    apply list_fmap_ext. intros _ i _. simpl. lia. }
  rewrite <-H. apply list_fmap_ext. intros _ i _. done.
Qed.

Lemma prefix_sums_length off ls : length (prefix_sums off ls) = length ls.
Proof. revert off. induction ls; intros; simpl; auto. Qed.

(** Every offset lies between the start and the beginning of the last
    table. *)
Lemma prefix_sums_bounds off ls ll :
  last ls = Some ll →
  Forall (λ o, off ≤ o ∧ o + ll ≤ off + sum_list ls) (prefix_sums off ls).
Proof.
  revert off. induction ls as [|a ls IH]; intros off Hl; [constructor|].
  simpl. constructor.
  - split; [lia|]. destruct ls as [|b ls]; simpl in *; [simplify_eq; lia|].
    assert (ll ≤ sum_list (b :: ls)); [|simpl in *; lia].
    clear -Hl. revert b Hl. induction ls as [|c ls IH]; intros b Hl;
      simpl in *; [simplify_eq; lia|].
    specialize (IH c Hl). lia.
  - destruct ls as [|b ls]; [constructor|].
    eapply Forall_impl; [apply IH; by rewrite last_cons_cons in Hl|].
    intros o [? ?]. simpl in *. lia.
Qed.

#[local] Arguments shifted_rows : simpl never.

Lemma shifted_rows_cons dflt off t ts :
  shifted_rows dflt off (t :: ts)
  = ((λ r, mkTableRow (shift off <$> data r) dflt) <$> tdata t)
    ++ shifted_rows dflt (off + table_len t) ts.
Proof.
  unfold shifted_rows, Table_process_data. simpl.
  rewrite fmap_app. f_equal.
  unfold Table_process_data. rewrite <-!list_fmap_compose.
  by apply list_fmap_ext.
Qed.

Lemma concat_tables_Ok first rest :
  _concat_tables (first :: rest)
  = Ok (mkTable (tdefault first)
          (shifted_rows (tdefault first) 0 (first :: rest)),
        prefix_sums 0 (table_len <$> first :: rest)).
Proof.
  unfold _concat_tables. rewrite fmap_cons, offsets_of_prefix_sums. done.
Qed.

Lemma shifted_rows_length dflt off ts :
  length (shifted_rows dflt off ts) = sum_list (table_len <$> ts).
Proof.
  revert off. induction ts as [|t ts IH]; intros off; [done|].
  rewrite shifted_rows_cons, length_app, length_fmap, IH. done.
Qed.

(** Shifting keeps the cells inside the concatenated table. *)
Lemma shifted_rows_ok off ts bound :
  Forall (λ t, Forall (cells_below (table_len t)) (tdata t)) ts →
  off + sum_list (table_len <$> ts) ≤ bound →
  Forall (row_ok bound) (shifted_rows Default_set off ts).
Proof.
  revert off. induction ts as [|t ts IH]; intros off Hts Hb; [constructor|].
  inversion Hts as [|? ? Ht Hts']; subst.
  rewrite shifted_rows_cons.
  change (off + (table_len t + sum_list (table_len <$> ts)) ≤ bound) in Hb.
  apply Forall_app. split.
  - apply Forall_fmap. eapply Forall_impl; [exact Ht|].
    intros r Hr. split; [done|]. intros k s x Hk Hx. simpl in Hk.
    rewrite lookup_fmap in Hk.
    destruct (data r !! k) as [s0|] eqn:Hs0; [|done].
    injection Hk as <-. unfold shift in Hx.
    apply elem_of_map in Hx as (y & -> & Hy).
    specialize (Hr k s0 y Hs0 Hy). lia.
  - apply IH; [done | lia].
Qed.

Lemma shifted_rows_last dflt off ts t :
  last ts = Some t → final_row_empty t →
  ∃ row, last (shifted_rows dflt off ts) = Some row ∧ data row = ∅.
Proof.
  revert off. induction ts as [|t0 ts IH]; intros off Hl Hfin; [done|].
  rewrite shifted_rows_cons. destruct ts as [|t1 ts].
  - injection Hl as ->. unfold shifted_rows. simpl. rewrite app_nil_r.
    destruct Hfin as (row & Hrow & Hd).
    rewrite fmap_last, Hrow. eexists. split; [done|]. simpl.
    rewrite Hd. apply fmap_empty.
  - rewrite last_cons_cons in Hl.
    destruct (IH (off + table_len t0) Hl Hfin) as (row & Hrow & Hd).
    exists row. split; [|done].
    rewrite last_app, Hrow. done.
Qed.

(** *** Assigning a cell *)

Lemma py_index_in n i : i < n → py_index n (Z.of_nat i) = Some i.
Proof.
  intros H. unfold py_index. rewrite decide_True by lia.
  by rewrite Nat2Z.id.
Qed.

Lemma setcell_Ok t i item v row :
  tdata t !! i = Some row →
  table_setcell t (Z.of_nat i) item v
  = Ok (mkTable (tdefault t) (<[i := row_setitem row item v]> (tdata t))).
Proof.
  intros Hrow. unfold table_setcell.
  rewrite py_index_in by (by apply lookup_lt_Some in Hrow).
  by rewrite Hrow.
Qed.

Lemma setcell_ok t i v :
  wf_table t → final_row_empty t → S i < table_len t → in_range t v →
  ∃ t', table_setcell t (Z.of_nat i) EPSILON v = Ok t' ∧
        wf_table t' ∧ final_row_empty t' ∧ table_len t' = table_len t.
Proof.
  intros [Hd Hwf] (lrow & Hlast & Hempty) Hi Hv.
  destruct (lookup_lt_is_Some_2 (tdata t) i) as [row Hrow];
    [unfold table_len in Hi; lia|].
  eexists. split; [by apply setcell_Ok|].
  assert (table_len (mkTable (tdefault t)
            (<[i := row_setitem row EPSILON v]> (tdata t))) = table_len t)
    as Hlen by (unfold table_len; simpl; apply length_insert).
  split_and!; [split; [done|] | | done].
  - rewrite Hlen. simpl. apply Forall_insert; [done|].
    rewrite Forall_lookup in Hwf. destruct (Hwf _ _ Hrow) as [Hrd Hrc].
    split; [done|]. intros k s x Hk Hx. simpl in Hk.
    apply lookup_insert_Some in Hk as [[_ <-]|[_ Hk]]; [by apply Hv|].
    by eapply Hrc.
  - exists lrow. split; [|done]. simpl.
    rewrite last_lookup in Hlast |- *. rewrite length_insert.
    rewrite list_lookup_insert_ne; [done|]. unfold table_len in Hi. lia.
Qed.

Lemma link_rows_ok t offsets value :
  wf_table t → final_row_empty t →
  Forall (λ o, 1 ≤ o ∧ o < table_len t ∧ in_range t (value o)) offsets →
  ∃ t', link_rows t offsets value = Ok t' ∧
        wf_table t' ∧ final_row_empty t' ∧ table_len t' = table_len t.
Proof.
  intros Hwf Hfin Hoff. revert t Hwf Hfin Hoff.
  induction offsets as [|o offsets IH]; intros t Hwf Hfin Hoff.
  - exists t. done.
  - inversion Hoff as [|? ? (Ho1 & Ho2 & Hv) Hoff']; subst.
    destruct (setcell_ok t (o - 1) (value o) Hwf Hfin) as
      (t1 & Ht1 & Hwf1 & Hfin1 & Hlen1); [lia | done |].
    destruct (IH t1 Hwf1 Hfin1) as (t' & Ht' & ? & ? & ?).
    { eapply Forall_impl; [exact Hoff'|]. intros o' (? & ? & Hr).
      unfold in_range. rewrite Hlen1. done. }
    exists t'. split_and!; [|done..|congruence].
    simpl. replace (Z.of_nat o - 1)%Z with (Z.of_nat (o - 1)) by lia.
    rewrite Ht1. done.
Qed.

(** *** The table made by [_concat_tables] *)

Lemma nfa_table_ok_cells t :
  wf_table t → Forall (cells_below (table_len t)) (tdata t).
Proof. intros [_ H]. eapply Forall_impl; [exact H|]. by intros r [_ ?]. Qed.

Lemma sum_list_last_le (ls : list nat) ll : last ls = Some ll → ll ≤ sum_list ls.
Proof.
  induction ls as [|a [|b ls] IH]; intros H; simpl in *; simplify_eq; [lia|].
  specialize (IH H). lia.
Qed.

Lemma concat_tables_ok first rest lst t :
  t = mkTable Default_set (shifted_rows Default_set 0 (first :: rest)) →
  tables_ok (first :: rest) →
  last (first :: rest) = Some lst → final_row_empty lst →
  1 ≤ table_len first → 1 ≤ table_len lst →
  wf_table t ∧ final_row_empty t ∧
  table_len t = sum_list (table_len <$> first :: rest) ∧
  table_len first ≤ table_len t ∧
  (rest ≠ [] → table_len first + table_len lst ≤ table_len t) ∧
  Forall (λ o, 1 ≤ o ∧ o < table_len t)
    (drop 1 (prefix_sums 0 (table_len <$> first :: rest))).
Proof.
  intros -> Hts Hlast Hfin Hf Hl.
  set (ts := first :: rest) in *.
  set (t := mkTable Default_set (shifted_rows Default_set 0 ts)).
  assert (table_len t = sum_list (table_len <$> ts)) as Hlen
    by apply shifted_rows_length.
  split_and!; [split; [done|] | | done | | |].
  - apply shifted_rows_ok; [done | lia].
  - by eapply shifted_rows_last.
  - rewrite Hlen. unfold ts. rewrite fmap_cons. simpl. lia.
  - intros Hrest. rewrite Hlen. unfold ts. rewrite fmap_cons. simpl.
    destruct rest as [|t1 rest]; [done|].
    unfold ts in Hlast. rewrite last_cons_cons in Hlast.
    assert (table_len lst ≤ sum_list (table_len <$> t1 :: rest)); [|lia].
    apply sum_list_last_le. by rewrite fmap_last, Hlast.
  - rewrite Hlen. unfold ts. rewrite fmap_cons. simpl. rewrite drop_0.
    destruct rest as [|t1 rest]; [constructor|].
    unfold ts in Hlast. rewrite last_cons_cons in Hlast.
    assert (last (table_len <$> t1 :: rest) = Some (table_len lst)) as Hll
      by by rewrite fmap_last, Hlast.
    eapply Forall_impl; [by apply prefix_sums_bounds|].
    intros o [? ?]. simpl in *. lia.
Qed.

Lemma empty_row_ok :
  tables_ok [with_empty_row Default_set] ∧
  final_row_empty (with_empty_row Default_set) ∧
  table_len (with_empty_row Default_set) = 1.
Proof.
  split_and!; [|by eexists|done].
  apply Forall_cons; split; [|constructor].
  apply Forall_cons; split; [|constructor]. by intros k s x H.
Qed.

(** *** The combinators *)

Lemma Nfa_init_table_ok t :
  wf_table t → 2 ≤ table_len t → final_row_empty t →
  ∃ n, Nfa_init t = Ok n ∧ nfa_table_ok (table n).
Proof.
  intros Hwf Hlen Hfin. destruct (wf_Nfa_init t Hwf) as [n Hn].
  exists n. split; [done|]. apply Nfa_init_Ok in Hn as [-> _]. done.
Qed.

Lemma row_ok_singleton b c x :
  x < b → row_ok b (TableRow_init {[c := {[x]}]} Default_set).
Proof.
  intros Hx. split; [done|]. intros k s y Hk Hy. simpl in Hk.
  apply lookup_singleton_Some in Hk as [_ <-].
  by apply elem_of_singleton in Hy as ->.
Qed.

Lemma row_ok_empty b : row_ok b (TableRow_init ∅ Default_set).
Proof. split; [done|]. by intros k s y Hk. Qed.

Lemma Nfa_epsilon_ok : ∃ n, Nfa_epsilon = Ok n ∧ nfa_table_ok (table n).
Proof.
  apply Nfa_init_table_ok;
    [split; [done|] | unfold table_len; simpl; lia | by eexists].
  apply Forall_cons; split;
    [apply row_ok_singleton; unfold table_len; simpl; lia|].
  apply Forall_cons; split; [apply row_ok_empty | constructor].
Qed.

Lemma Nfa_char_ok c : ∃ n, Nfa_char c = Ok n ∧ nfa_table_ok (table n).
Proof.
  apply Nfa_init_table_ok;
    [split; [done|] | unfold table_len; simpl; lia | by eexists].
  apply Forall_cons; split;
    [apply row_ok_singleton; unfold table_len; simpl; lia|].
  apply Forall_cons; split; [apply row_ok_empty | constructor].
Qed.

Lemma Nfa_concat_ok ns :
  ns ≠ [] → Forall (λ n, nfa_table_ok (table n)) ns →
  ∃ n, Nfa_concat ns = Ok n ∧ nfa_table_ok (table n).
Proof.
  intros Hne Hns. destruct ns as [|n1 ns]; [done|].
  assert (∃ lst, last (n1 :: ns) = Some lst) as [lst Hlst]
    by (destruct (last (n1 :: ns)) eqn:E; [eauto | by apply last_None in E]).
  assert (nfa_table_ok (table n1)) as ((Hd1 & ?) & Hl1 & _)
    by by inversion Hns.
  assert (nfa_table_ok (table lst)) as (_ & Hll & Hfl).
  { rewrite Forall_forall in Hns. apply Hns.
    apply last_Some in Hlst as [l' ->]. set_solver. }
  unfold Nfa_concat. rewrite fmap_cons, concat_tables_Ok, Hd1. cbn.
  edestruct (concat_tables_ok (table n1) (table <$> ns) (table lst))
    as (Hwf & Hfin & Hlen & Hge & _ & Hoff); [done| | |done|lia|lia|].
  { unfold tables_ok. rewrite <-fmap_cons. apply Forall_fmap.
    eapply Forall_impl; [exact Hns|].
    intros n (? & _). by apply nfa_table_ok_cells. }
  { by rewrite <-fmap_cons, fmap_last, Hlst. }
  edestruct link_rows_ok as (t' & -> & Hwf' & Hfin' & Hlen');
    [exact Hwf | exact Hfin | | ].
  { eapply Forall_impl; [exact Hoff|]. intros o [? ?].
    split_and!; [done..|]. by intros x ->%elem_of_singleton. }
  cbn. apply Nfa_init_table_ok; [done | | done].
  rewrite Hlen'. etrans; [exact Hl1 | exact Hge].
Qed.

Lemma final_to_nat t : 1 ≤ table_len t → Z.to_nat (table_final t) = table_len t - 1.
Proof. unfold table_final. lia. Qed.

Lemma Nfa_union_ok ns :
  Forall (λ n, nfa_table_ok (table n)) ns →
  ∃ n, Nfa_union ns = Ok n ∧ nfa_table_ok (table n).
Proof.
  intros Hns. destruct empty_row_ok as (HE1 & HE2 & HE3).
  unfold Nfa_union.
  change ([with_empty_row Default_set] ++ (table <$> ns)
          ++ [with_empty_row Default_set])
    with (with_empty_row Default_set
          :: ((table <$> ns) ++ [with_empty_row Default_set])).
  rewrite concat_tables_Ok.
  change (tdefault (with_empty_row Default_set)) with Default_set. cbn.
  edestruct (concat_tables_ok (with_empty_row Default_set)
               ((table <$> ns) ++ [with_empty_row Default_set])
               (with_empty_row Default_set))
    as (Hwf & Hfin & Hlen & _ & Hge & Hoff); [done| | |done|lia|lia|].
  { apply Forall_cons. split; [by inversion HE1|].
    apply Forall_app. split; [|done]. apply Forall_fmap.
    eapply Forall_impl; [exact Hns|].
    intros n (? & _). by apply nfa_table_ok_cells. }
  { by rewrite last_cons, last_snoc. }
  specialize (Hge ltac:(by destruct (table <$> ns))). rewrite HE3 in Hge.
  match goal with |- context [table_setcell ?t 0%Z EPSILON ?v] =>
    destruct (setcell_ok t 0 v Hwf Hfin) as (t0 & Ht0 & Hwf0 & Hfin0 & Hlen0)
  end; [lia | |].
  { intros x Hx%elem_of_list_to_set.
    apply elem_of_take in Hx as (i & Hx & _).
    rewrite Forall_lookup in Hoff. by destruct (Hoff _ _ Hx). }
  change (Z.of_nat 0) with 0%Z in Ht0. rewrite Ht0. cbn.
  edestruct (link_rows_ok t0) as (t' & -> & Hwf' & Hfin' & Hlen');
    [exact Hwf0 | exact Hfin0 | | ].
  { apply (Forall_drop _ 1) in Hoff. rewrite drop_drop in Hoff.
    eapply Forall_impl; [exact Hoff|]. intros o [? ?]. rewrite Hlen0.
    split_and!; [done..|]. intros x ->%elem_of_singleton.
    rewrite final_to_nat; lia. }
  cbn. apply Nfa_init_table_ok; [done | lia | done].
Qed.

Lemma Nfa_star_ok m :
  nfa_table_ok (table m) →
  ∃ n, Nfa_star m = Ok n ∧ nfa_table_ok (table n).
Proof.
  intros (Hm & _). destruct empty_row_ok as (HE1 & HE2 & HE3).
  unfold Nfa_star. rewrite concat_tables_Ok.
  change (tdefault (with_empty_row Default_set)) with Default_set. cbn.
  edestruct (concat_tables_ok (with_empty_row Default_set)
               [table m; with_empty_row Default_set]
               (with_empty_row Default_set))
    as (Hwf & Hfin & Hlen & _ & Hge & _); [done| |done|done|lia|lia|].
  { apply Forall_cons. split; [by inversion HE1|].
    apply Forall_cons. split; [by apply nfa_table_ok_cells | done]. }
  specialize (Hge ltac:(done)). rewrite HE3 in Hge.
  match goal with |- context [table_setcell ?t 0%Z EPSILON ?v] =>
    destruct (setcell_ok t 0 v Hwf Hfin) as (t0 & Ht0 & Hwf0 & Hfin0 & Hlen0)
  end; [lia | |].
  { intros x [->%elem_of_singleton| ->%elem_of_singleton]%elem_of_union;
      [lia | rewrite final_to_nat; lia]. }
  change (Z.of_nat 0) with 0%Z in Ht0. rewrite Ht0. cbn.
  destruct (setcell_ok t0 (table_len t0 - 2) {[0; Z.to_nat (table_final t0)]}
              Hwf0 Hfin0) as (t' & Ht' & Hwf' & Hfin' & Hlen'); [lia | |].
  { intros x [->%elem_of_singleton| ->%elem_of_singleton]%elem_of_union;
      [lia | rewrite final_to_nat; lia]. }
  replace (table_final t0 - 1)%Z with (Z.of_nat (table_len t0 - 2))
    by (unfold table_final; lia).
  rewrite Ht'. cbn. apply Nfa_init_table_ok; [done | lia | done].
Qed.
End TableFacts.

(** ** Induction on the automata built by the combinators *)

Section BuiltFacts.
Import Automata.

Lemma Built_ind (P : Nfa → Prop) :
  (∀ n, Nfa_epsilon = Ok n → P n) →
  (∀ c n, Nfa_char c = Ok n → P n) →
  (∀ ns n, Forall Built ns → Forall P ns → Nfa_concat ns = Ok n → P n) →
  (∀ ns n, Forall Built ns → Forall P ns → Nfa_union ns = Ok n → P n) →
  (∀ m n, Built m → P m → Nfa_star m = Ok n → P n) →
  ∀ n, Built n → P n.
Proof.
  intros He Hc Hcat Hun Hst. fix IH 2.
  intros n [n' H|c n' H|ns n' Hns H|ns n' Hns H|m n' Hm H].
  - by apply He.
  - by eapply Hc.
  - apply (Hcat ns); [done| |done].
    clear H. revert ns Hns. fix IHl 2.
    intros ns [|x l Hx Hl]; constructor; [apply IH, Hx | apply IHl, Hl].
  - apply (Hun ns); [done| |done].
    clear H. revert ns Hns. fix IHl 2.
    intros ns [|x l Hx Hl]; constructor; [apply IH, Hx | apply IHl, Hl].
  - apply (Hst m); [done | apply IH, Hm | done].
Qed.

(** [Nfa.concat] of no automaton at all raises. *)
Lemma Nfa_concat_nil : Nfa_concat [] = Raise IndexError.
Proof. done. Qed.

Lemma Built_table_ok n : Built n → nfa_table_ok (table n).
Proof.
  induction 1 as [n H|c n H|ns n _ IH H|ns n _ IH H|m n _ IH H]
    using Built_ind.
  - destruct Nfa_epsilon_ok as (n' & Hn' & ?). by assert (n' = n) as -> by congruence.
  - destruct (Nfa_char_ok c) as (n' & Hn' & ?). by assert (n' = n) as -> by congruence.
  - destruct ns as [|n1 ns]; [by rewrite Nfa_concat_nil in H|].
    destruct (Nfa_concat_ok (n1 :: ns)) as (n' & Hn' & ?); [done..|].
    by assert (n' = n) as -> by congruence.
  - destruct (Nfa_union_ok ns IH) as (n' & Hn' & ?). by assert (n' = n) as -> by congruence.
  - destruct (Nfa_star_ok m IH) as (n' & Hn' & ?). by assert (n' = n) as -> by congruence.
Qed.

(** The cache of a built automaton holds the closure of every state. *)
Lemma Built_cache n :
  Built n →
  ∀ s, s < nfa_len (table n) →
    ∃ c, _epsilon_closure n !! s = Some c ∧
         _find_epsilon_closure (table n) s = Ok c.
Proof.
  assert (∀ t n0, Nfa_init t = Ok n0 →
    ∀ s, s < nfa_len (table n0) →
    ∃ c, _epsilon_closure n0 !! s = Some c ∧
         _find_epsilon_closure (table n0) s = Ok c) as Hinit.
  { intros t n0 Hn. destruct (Nfa_init_Ok _ _ Hn) as [-> Hc]. exact Hc. }
  intros [n' H|c n' H|ns n' _ H|ns n' _ H|m n' _ H].
  - by eapply Hinit.
  - by eapply Hinit.
  - unfold Nfa_concat in H. apply bind_Ok in H as ([t o] & _ & H).
    apply bind_Ok in H as (t' & _ & H). by eapply Hinit.
  - unfold Nfa_union in H. apply bind_Ok in H as ([t o] & _ & H).
    apply bind_Ok in H as (t0 & _ & H).
    apply bind_Ok in H as (t' & _ & H). by eapply Hinit.
  - unfold Nfa_star in H. apply bind_Ok in H as ([t o] & _ & H).
    apply bind_Ok in H as (t0 & _ & H).
    apply bind_Ok in H as (t' & _ & H). by eapply Hinit.
Qed.
End BuiltFacts.

(** ** Claims about the automata *)

Section NfaClaims.
Import Automata.

Lemma wf_eps_step t x y : wf_table t → eps_step t x y → y < table_len t.
Proof.
  intros [_ Hwf] (row & s & Hrow & Hs & Hy).
  rewrite Forall_lookup in Hwf. destruct (Hwf _ _ Hrow) as [Hd Hc].
  unfold row_getitem, _return_default in Hs. rewrite Hd in Hs.
  destruct (data row !! EPSILON) as [s'|] eqn:Hs'; simplify_eq.
  - by eapply Hc.
  - set_solver.
Qed.

Lemma wf_reach t x y :
  wf_table t → x < table_len t → rtc (eps_step t) x y → y < table_len t.
Proof.
  intros Hwf Hx Hxy. induction Hxy as [|x y z Hxy _ IH]; [done|].
  apply IH. by eapply wf_eps_step.
Qed.

Lemma closed_reach t (c : gset nat) x y :
  (∀ x y, x ∈ c → eps_step t x y → y ∈ c) →
  x ∈ c → rtc (eps_step t) x y → y ∈ c.
Proof.
  intros Hcl Hx Hxy. induction Hxy as [|x y z Hxy _ IH]; [done|].
  apply IH. by eapply Hcl.
Qed.

(** C10: in every automaton built by epsilon, char, concat, union and
    star, the row of the final state is completely empty: it has no key,
    so no transition on any symbol, epsilon included, and every lookup in
    it gives the empty set. *)
Theorem final_row_of_built_is_empty n :
  Built n →
  ∃ row, table_getitem (table n) (final n) = Ok row ∧
         data row = ∅ ∧
         ∀ item, row_getitem row item = Some ∅.
Proof.
  intros Hb. destruct (Built_table_ok n Hb) as ((_ & Hwf) & Hlen & Hfin).
  destruct Hfin as (row & Hlast & Hempty). exists row.
  rewrite last_lookup in Hlast.
  split_and!; [|done|].
  - unfold table_getitem, py_getitem, final, table_final.
    unfold table_len in *.
    replace (Z.of_nat (length (tdata (table n))) - 1)%Z
      with (Z.of_nat (pred (length (tdata (table n))))) by lia.
    rewrite py_index_in by lia. by rewrite Hlast.
  - intros item. apply lookup_lt_Some in Hlast as Hlt.
    rewrite Forall_lookup in Hwf. destruct (Hwf _ _ Hlast) as [Hd _].
    unfold row_getitem, _return_default. by rewrite Hempty, lookup_empty, Hd.
Qed.

(** C7: in every automaton built by the combinators, each state belongs
    to its own epsilon-closure, and taking the closure of that closure
    gives the same set. *)
Theorem closure_reflexive_idempotent n s :
  Built n → s < nfa_len (table n) →
  ∃ c, epsilon_closure_int n s = Ok c ∧
       s ∈ c ∧
       epsilon_closure n c = Ok c.
Proof.
  intros Hb Hs. destruct (Built_table_ok n Hb) as (Hwf & _ & _).
  destruct (Built_cache n Hb s Hs) as (c & Hc & Hfind).
  destruct (find_epsilon_closure_spec _ _ _ Hfind) as (Hrefl & Hreach & Hcl).
  exists c. unfold epsilon_closure_int at 1. rewrite Hc.
  split_and!; [done..|].
  unfold epsilon_closure.
  destruct (mapM_total (epsilon_closure_int n) (elements c)) as [cs Hcs].
  { intros x Hx%elem_of_elements.
    destruct (Built_cache n Hb x) as (cx & Hcx & _).
    { eapply wf_reach; [done | exact Hs | by apply Hreach]. }
    exists cx. unfold epsilon_closure_int. by rewrite Hcx. }
  rewrite Hcs. cbn. f_equal. apply mapM_Ok in Hcs.
  apply set_eq. intros y. unfold set_union. rewrite elem_of_union_list.
  split.
  - intros (X & HX & Hy). apply list_elem_of_lookup in HX as [i Hi].
    destruct (Forall2_lookup_r _ _ _ _ _ Hcs Hi) as (x & Hx & Hcx).
    assert (x ∈ c) as Hxc
      by (apply elem_of_elements, list_elem_of_lookup; eauto).
    destruct (Built_cache n Hb x) as (cx & Hcx' & Hfx).
    { eapply wf_reach; [done | exact Hs | by apply Hreach]. }
    unfold epsilon_closure_int in Hcx. rewrite Hcx' in Hcx.
    injection Hcx as <-.
    destruct (find_epsilon_closure_spec _ _ _ Hfx) as (_ & Hrx & _).
    eapply closed_reach; [exact Hcl | exact Hxc | by apply Hrx].
  - intros Hy. apply elem_of_elements, list_elem_of_lookup in Hy as [i Hi].
    destruct (Forall2_lookup_l _ _ _ _ _ Hcs Hi) as (cy & Hcy & Hy).
    exists cy. split; [apply list_elem_of_lookup; eauto|].
    destruct (Built_cache n Hb y) as (cy' & Hcy' & Hfy).
    { eapply wf_reach; [done | exact Hs |].
      apply Hreach, elem_of_elements, list_elem_of_lookup; eauto. }
    unfold epsilon_closure_int in Hy. rewrite Hcy' in Hy.
    injection Hy as <-.
    by destruct (find_epsilon_closure_spec _ _ _ Hfy) as (? & _ & _).
Qed.
End NfaClaims.

Section NfaWitnesses.
Import Automata.

Lemma built_star_char_a :
  ∃ a n, Nfa_char "a" = Ok a ∧ Nfa_star a = Ok n ∧ Built n.
Proof.
  eexists _, _. split; [vm_compute; reflexivity|].
  split; [vm_compute; reflexivity|].
  eapply Built_star.
  - eapply (Built_char "a"). vm_compute. reflexivity.
  - vm_compute. reflexivity.
Qed.

Lemma final_row_of_built_is_empty_witness :
  ∃ a n, Nfa_char "a" = Ok a ∧ Nfa_star a = Ok n ∧
    ∃ row, table_getitem (table n) (final n) = Ok row ∧
           data row = ∅ ∧ ∀ item, row_getitem row item = Some ∅.
Proof.
  eexists _, _. split; [vm_compute; reflexivity|].
  split; [vm_compute; reflexivity|].
  apply final_row_of_built_is_empty.
  eapply Built_star.
  - eapply (Built_char "a"). vm_compute. reflexivity.
  - vm_compute. reflexivity.
Defined.

Lemma closure_reflexive_idempotent_witness :
  ∃ a n, Nfa_char "a" = Ok a ∧ Nfa_star a = Ok n ∧
    2 < nfa_len (table n) ∧
    ∃ c, epsilon_closure_int n 2 = Ok c ∧ 2 ∈ c ∧ epsilon_closure n c = Ok c.
Proof.
  eexists _, _. split; [vm_compute; reflexivity|].
  split; [vm_compute; reflexivity|].
  split; [vm_compute; lia|].
  apply closure_reflexive_idempotent.
  - eapply Built_star.
    + eapply (Built_char "a"). vm_compute. reflexivity.
    + vm_compute. reflexivity.
  - vm_compute. lia.
Defined.
End NfaWitnesses.

(** ** Behaviour at particular inputs *)

Section Evaluations.
Import Automata Lexer Grammar ParseTree Parser.

(** Every built automaton has at least two states, so [match] on the
    empty string, which tests the final state against [{0}], rejects. *)
Lemma Nfa_match_empty_false n : Built n → Nfa_match n "" = Ok false.
Proof.
  intros Hb. destruct (Built_table_ok n Hb) as (_ & Hlen & _).
  unfold Nfa_match. simpl. f_equal. unfold is_final, final, table_final.
  apply andb_false_intro2, bool_decide_eq_false.
  intros Hin%elem_of_singleton. lia.
Qed.

(** C2: on [Nfa.star(Nfa.char('a'))] the final state 3 is in the
    epsilon-closure of state 0, yet [match] on the empty string answers
    [False]: the closure of the initial state is never taken when the
    string has no character. *)
Theorem nfa_match_empty_string_skips_closure :
  ∃ a n c, Nfa_char "a" = Ok a ∧ Nfa_star a = Ok n ∧
    epsilon_closure n {[0]} = Ok c ∧
    final n = 3%Z ∧ 3 ∈ c ∧
    Nfa_match n "" = Ok false.
Proof.
  eexists _, _, _. split; [vm_compute; reflexivity|].
  split; [vm_compute; reflexivity|].
  split; [vm_compute; reflexivity|].
  split; [vm_compute; reflexivity|].
  split; [by vm_compute|]. vm_compute. reflexivity.
Qed.

(** C1: for the pattern [a*|b] the compiled DFA accepts the empty string
    and the NFA produced by the reductions rejects it. *)
Theorem dfa_and_nfa_disagree_on_empty_string :
  ∃ n d, Regex.NFA_of 8 "a*|b" = Ok (VObj n) ∧
         Regex.compile 8 "a*|b" = Ok d ∧
         Dfa_match d "" = true ∧
         Nfa_match n "" = Ok false.
Proof.
  eexists _, _. split; [vm_compute; reflexivity|].
  split; [vm_compute; reflexivity|].
  split; vm_compute; reflexivity.
Qed.

(** C3: the pattern [(ab)+cd] parses, its root production
    [UNION -> CONCAT] carries no reduction, and [return_value] is [None]
    although the bottom-up reduction of the tree gives an automaton. *)
Theorem root_without_reduction_returns_none :
  match parse 12 Regex.parser "(ab)+cd" with
  | Ok (ok, p) =>
      ok = true ∧
      parser_return_value p = VNone ∧
      match parse_tree p with
      | Some pt =>
          match _return_value (root pt) with
          | Ok (VObj n) => Nfa_match n "abcd" = Ok true
          | _ => False
          end
      | None => False
      end
  | _ => False
  end.
Proof. vm_compute. split_and!; reflexivity. Qed.

(** C4: on the empty string the parser of the prefix grammar raises
    [IndexError] instead of returning [False], and a parser whose start
    symbol derives the empty string returns [False]. *)
Theorem parse_empty_string_raises (fuel : nat) :
  parse (S (S fuel)) Prefix.parser "" = Raise IndexError ∧
  (∃ st, _match_production_element (arena Prefix.epsilon_grammar) []
           (S (S fuel)) (NonTerminal 0) (mkScan (Some 0) []) = Ok (true, st)) ∧
  ∃ p, parse (S (S fuel)) Prefix.epsilon_parser "" = Ok (false, p).
Proof.
  split; [reflexivity|]. split; eexists; reflexivity.
Qed.

(** C8: in the regex lexer the input backslash, opening parenthesis
    gives one token of category [(], not of the general class [char];
    two backslashes give no token at all. *)
Theorem escape_is_only_deleted :
  tokenize Regex.lexer "\(" = Ok [mkToken "(" "("] ∧
  tokenize Regex.lexer "\\" = Ok [] ∧
  tokenize Regex.lexer "\a" = Ok [mkToken "char" "a"].
Proof. split_and!; vm_compute; reflexivity. Qed.

(** C9: two rows created from the same dictionary and the same default
    are different objects, and so compare unequal. *)
Theorem equal_rows_compare_unequal {V} (d : gmap string V) (dflt : Default V)
    (h : row_store V) :
  let r1 := new_row d dflt h in
  let r2 := new_row d dflt r1.2 in
  r2.2 !! r1.1 = Some (TableRow_init d dflt) ∧
  r2.2 !! r2.1 = Some (TableRow_init d dflt) ∧
  row_eq r1.1 r2.1 = false.
Proof.
  unfold new_row, row_store. cbn [fst snd]. split_and!.
  - rewrite lookup_app_l by (rewrite length_app; simpl; lia).
    by rewrite lookup_app_r, Nat.sub_diag.
  - by rewrite lookup_app_r, Nat.sub_diag.
  - apply bool_decide_eq_false. rewrite length_app. simpl. lia.
Qed.
End Evaluations.

(** ** The recursive-descent matcher *)

Section MatcherFacts.
Import Lexer Grammar ParseTree Parser.
Context {U : Type}.
Variable arena : list (NonTerminalObj U).
Variable tokens : list Token.
Implicit Types (rec : element → scan U → result (bool * scan U))
  (st : scan U) (es : list element) (alts : list (Production U)).

Lemma scan_eta st : mkScan (_lookahead st) (_stack st) = st.
Proof. by destruct st. Qed.

Lemma match_elements_stack rec save es st b st' :
  stack_discipline rec →
  match_elements rec save es st = Ok (b, st') →
  (∃ ps, _stack st' = _stack st ++ ps) ∧ (b = false → _lookahead st' = save).
Proof.
  intros Hrec. revert st. induction es as [|e es IH]; intros st H; simpl in H.
  - injection H as <- <-. split; [exists []; by rewrite app_nil_r | done].
  - apply bind_Ok in H as ([ok st1] & He & H).
    destruct (Hrec _ _ _ _ He) as [[ps1 Hps1] _]. destruct ok.
    + destruct (IH _ H) as [[ps2 Hps2] Hla]. split; [|done].
      exists (ps1 ++ ps2). by rewrite Hps2, Hps1, app_assoc.
    + injection H as <- <-. simpl. split; [by exists ps1 | done].
Qed.

Lemma match_production_stack rec production st b st' :
  stack_discipline rec →
  _match_production rec production st = Ok (b, st') →
  (∃ ps, _stack st' = _stack st ++ ps) ∧
  (b = false → _lookahead st' = _lookahead st).
Proof. apply match_elements_stack. Qed.

Lemma match_alternatives_spec rec alts st b st' :
  stack_discipline rec →
  match_alternatives rec (length (_stack st)) alts st = Ok (b, st') →
  (b = false → st' = st ∧ Forall (alternative_fails rec st) alts) ∧
  (b = true → ∃ pre production post ps,
      alts = pre ++ production :: post ∧
      Forall (alternative_fails rec st) pre ∧
      _match_production rec production (push production st) = Ok (true, st') ∧
      _stack st' = _stack st ++ production :: ps).
Proof.
  intros Hrec. induction alts as [|q alts IH]; intros H; simpl in H.
  - injection H as <- <-. split; [by split | done].
  - apply bind_Ok in H as ([ok st2] & Hq & H). fold (push q st) in Hq.
    destruct (match_production_stack _ _ _ _ _ Hrec Hq) as [[ps Hps] Hla].
    destruct ok.
    + injection H as <- <-. split; [done|]. intros _.
      exists [], q, alts, ps. split_and!; [done | constructor | done |].
      rewrite Hps. simpl. by rewrite <-app_assoc.
    + assert (mkScan (_lookahead st2) (take (length (_stack st)) (_stack st2))
              = st) as Hback.
      { rewrite Hla by done. rewrite Hps. simpl.
        rewrite <-app_assoc, take_app_length. apply scan_eta. }
      rewrite Hback in H. destruct (IH H) as [IHf IHt]. split.
      * intros ->. destruct IHf as [-> Hall]; [done|]. split; [done|].
        constructor; [by exists st2 | done].
      * intros ->. destruct IHt as (pre & p & post & ps' & -> & Hpre & Hp & Hst);
          [done|].
        exists (q :: pre), p, post, ps'. split_and!; [done | | done | done].
        constructor; [by exists st2 | done].
Qed.

(** The matcher only appends to the stack, and a failed element leaves
    lookahead and stack as they were. *)
Lemma match_production_element_discipline fuel :
  stack_discipline (_match_production_element arena tokens fuel).
Proof.
  induction fuel as [|fuel IH]; intros e st b st' H; [done|].
  destruct e as [t|ref| |]; simpl in H.
  - unfold _match_terminal in H.
    destruct (_lookahead st) as [la|] eqn:Hla.
    + destruct (tokens !! la) as [tok|]; [|done]. case_decide.
      * injection H as <- <-. split; [|done]. exists [].
        unfold _advance_lookahead. rewrite Hla. simpl. by rewrite app_nil_r.
      * injection H as <- <-. split; [exists []; by rewrite app_nil_r | done].
    + injection H as <- <-. split; [exists []; by rewrite app_nil_r | done].
  - unfold _match_non_terminal in H.
    destruct (match_alternatives_spec _ _ _ _ _ IH H) as [Hf Ht].
    destruct b.
    + destruct Ht as (pre & p & post & ps & _ & _ & _ & Hst); [done|].
      split; [by exists (p :: ps) | done].
    + destruct Hf as [-> _]; [done|].
      split; [exists []; by rewrite app_nil_r | done].
  - injection H as <- <-. split; [exists []; by rewrite app_nil_r | done].
  - done.
Qed.

(** C5: matching is state-restoring.  A production that fails leaves the
    lookahead at the value it had when the production was entered.  A
    non-terminal tries its alternatives in the order they are declared,
    each one from the state at entry with only that production appended
    to the stack: when all fail, lookahead and stack are exactly as at
    entry; otherwise the first alternative that matches gives the result
    and the stack is the one at entry followed by that production and
    what its elements appended. *)
Theorem backtracking_restores_state fuel :
  let rec := _match_production_element arena tokens fuel in
  (∀ production st st',
      _match_production rec production st = Ok (false, st') →
      _lookahead st' = _lookahead st) ∧
  (∀ alts st st',
      _match_non_terminal rec alts st = Ok (false, st') →
      st' = st ∧ Forall (alternative_fails rec st) alts) ∧
  (∀ alts st st',
      _match_non_terminal rec alts st = Ok (true, st') →
      ∃ pre production post ps,
        alts = pre ++ production :: post ∧
        Forall (alternative_fails rec st) pre ∧
        _match_production rec production (push production st) = Ok (true, st') ∧
        _stack st' = _stack st ++ production :: ps).
Proof.
  intros rec.
  pose proof (match_production_element_discipline fuel) as Hrec.
  split_and!.
  - intros production st st' H.
    by destruct (match_production_stack _ _ _ _ _ Hrec H) as [_ ->].
  - intros alts st st' H.
    by destruct (match_alternatives_spec _ _ _ _ _ Hrec H) as [Hf _]; auto.
  - intros alts st st' H.
    by destruct (match_alternatives_spec _ _ _ _ _ Hrec H) as [_ Ht]; auto.
Qed.
End MatcherFacts.

Section MatcherWitness.
Import Lexer Grammar ParseTree Parser.

Lemma backtracking_restores_state_witness :
  let tokens := [mkToken "digit" "7"] in
  let rec := _match_production_element (arena Prefix.prefix_grammar) tokens 2 in
  let st := mkScan (Some 0) [] in
  ∃ st',
    _match_non_terminal rec Prefix.stmt_productions st = Ok (true, st') ∧
    ∃ pre production post ps,
      Prefix.stmt_productions = pre ++ production :: post ∧
      Forall (alternative_fails rec st) pre ∧
      _match_production rec production (push production st) = Ok (true, st') ∧
      _stack st' = _stack st ++ production :: ps.
Proof.
  intros tokens rec st. eexists. split; [reflexivity|].
  apply (proj2 (proj2 (backtracking_restores_state
                         (arena Prefix.prefix_grammar) tokens 2))).
  reflexivity.
Defined.
End MatcherWitness.

(** ** Building the parse tree *)

Section TreeFacts.
Import Lexer Grammar ParseTree Parser.
Context {U : Type}.
Implicit Types (t : tree U) (cs : list (tree U)) (es : list element)
  (R : nat → result (tree U * nat)) (prods : list (Production U))
  (rec : tree U → list Token → tree U * list Token).

Lemma tree_ind (P : tree U → Prop) :
  (∀ terminal tok, P (Leaf terminal tok)) →
  (∀ p cs, Forall P cs → P (Node p cs)) →
  P ActionChild →
  ∀ t, P t.
Proof.
  intros Hl Hn Ha. fix IH 1. intros [terminal tok|p cs|]; [apply Hl| |apply Ha].
  apply Hn. induction cs as [|c cs IHcs]; constructor; [apply IH | exact IHcs].
Qed.

Lemma add_tokens_children_cons rec c l toks :
  add_tokens_children rec (c :: l) toks
  = let '(c', tokens1) := rec c toks in
    let '(l'', tokens2) := add_tokens_children rec l tokens1 in
    (c' :: l'', tokens2).
Proof. done. Qed.

(** [_add_tokens] hands one token to each leaf, in the order of the walk,
    and gives the other tokens back. *)
Lemma add_tokens_spec t : ∀ toks rest,
  length toks = length (leaf_terminals t) →
  ∃ t', _add_tokens t (toks ++ rest) = (t', rest) ∧
        _find_leaves t' = zip_with labelled (leaf_terminals t) toks.
Proof.
  induction t as [terminal tok|p cs IH|] using tree_ind; intros toks rest Hlen.
  - destruct toks as [|k [|? ?]]; simpl in Hlen; try done.
    by eexists.
  - simpl in Hlen.
    assert (∃ cs', add_tokens_children _add_tokens cs (toks ++ rest) = (cs', rest) ∧
              concat (_find_leaves <$> cs')
              = zip_with labelled (concat (leaf_terminals <$> cs)) toks)
      as (cs' & Hcs' & Hleaves).
    { revert toks Hlen. induction IH as [|c cs Hc _ IHcs]; intros toks Hlen.
      - destruct toks; [|done]. by exists [].
      - change (length toks
                = length (leaf_terminals c ++ concat (leaf_terminals <$> cs)))
          in Hlen.
        rewrite length_app in Hlen.
        rewrite <-(take_drop (length (leaf_terminals c)) toks).
        destruct (Hc (take (length (leaf_terminals c)) toks)
                    (drop (length (leaf_terminals c)) toks ++ rest))
          as (c' & Hc' & Hl); [rewrite length_take; lia|].
        destruct (IHcs (drop (length (leaf_terminals c)) toks))
          as (cs' & Hcs' & Hls); [rewrite length_drop; lia|].
        exists (c' :: cs').
        rewrite add_tokens_children_cons, <-app_assoc, Hc', Hcs'.
        split; [done|]. rewrite !fmap_cons. cbn [concat].
        rewrite Hl, Hls.
        rewrite zip_with_app; [done|]. rewrite length_take. lia. }
    exists (Node p cs'). simpl. by rewrite Hcs'.
  - destruct toks; [|done]. by exists ActionChild.
Qed.

(** *** The cursor and the budget of [_build_tree] *)

Lemma build_children_cons R e es i :
  build_children R (e :: es) i
  = '(c1, i1) ← build_children R [e] i;
    '(c2, i2) ← build_children R es i1;
    Ok (c1 ++ c2, i2).
Proof.
  destruct e as [t|ref| |]; simpl.
  - by destruct (build_children R es i) as [[cs i']| |].
  - destruct (R i) as [[c i1]| |]; simpl; [|done..].
    by destruct (build_children R es i1) as [[cs i2]| |].
  - by destruct (build_children R es i) as [[cs i']| |].
  - by destruct (build_children R es i) as [[cs i']| |].
Qed.

Lemma build_children_cursor R es i cs i' :
  (∀ j t j', R j = Ok (t, j') → j ≤ j') →
  build_children R es i = Ok (cs, i') → i ≤ i'.
Proof.
  intros HR. revert i cs i'.
  induction es as [|[t|ref| |] es IH]; intros i cs i' H; simpl in H.
  - injection H as _ <-. done.
  - apply bind_Ok in H as ([cs1 i1] & H1 & [= _ <-]). eauto.
  - apply bind_Ok in H as ([c i1] & Hc & H).
    apply bind_Ok in H as ([cs1 i2] & H1 & [= _ <-]).
    etrans; [by eapply HR | eauto].
  - eauto.
  - apply bind_Ok in H as ([cs1 i1] & H1 & [= _ <-]). eauto.
Qed.

Lemma build_tree_cursor fuel prods i t i' :
  _build_tree fuel prods i = Ok (t, i') → i ≤ i'.
Proof.
  revert i t i'. induction fuel as [|fuel IH]; intros i t i' H; [done|].
  simpl in H. destruct (prods !! i) as [p|]; [|done].
  apply bind_Ok in H as ([cs j] & Hcs & [= _ <-]).
  apply build_children_cursor in Hcs; [lia | exact IH].
Qed.

Lemma build_children_mono R R' es i r :
  (∀ j r, R j = r → r ≠ Diverge → R' j = r) →
  build_children R es i = r → r ≠ Diverge → build_children R' es i = r.
Proof.
  intros HR. revert i r.
  induction es as [|[t|ref| |] es IH]; intros i r H Hr;
    cbn [build_children] in *.
  - done.
  - destruct (build_children R es i) as [x|e|] eqn:E.
    + by rewrite (IH i (Ok x) E).
    + by rewrite (IH i (Raise e) E).
    + by subst.
  - destruct (R i) as [[c i1]|e|] eqn:Ec.
    + rewrite (HR i (Ok (c, i1)) Ec) by done. cbn in *.
      destruct (build_children R es i1) as [x|e|] eqn:E.
      * by rewrite (IH i1 (Ok x) E).
      * by rewrite (IH i1 (Raise e) E).
      * by subst.
    + by rewrite (HR i (Raise e) Ec).
    + by subst.
  - eauto.
  - destruct (build_children R es i) as [x|e|] eqn:E.
    + by rewrite (IH i (Ok x) E).
    + by rewrite (IH i (Raise e) E).
    + by subst.
Qed.

(** A result obtained with some budget is obtained with any larger one. *)
Lemma build_tree_mono fuel fuel' prods i r :
  fuel ≤ fuel' →
  _build_tree fuel prods i = r → r ≠ Diverge → _build_tree fuel' prods i = r.
Proof.
  revert fuel' i r. induction fuel as [|fuel IH]; intros fuel' i r Hle H Hr;
    [by subst|].
  destruct fuel' as [|fuel']; [lia|]. cbn [_build_tree] in *.
  destruct (prods !! i) as [p|]; [|done].
  destruct (build_children (_build_tree fuel prods) (elements p) (S i))
    as [x|e|] eqn:E; [| |by subst].
  - rewrite (build_children_mono _ (_build_tree fuel' prods) _ _ _
               (λ j r', IH fuel' j r' ltac:(lia)) E); done.
  - rewrite (build_children_mono _ (_build_tree fuel' prods) _ _ _
               (λ j r', IH fuel' j r' ltac:(lia)) E); done.
Qed.

Lemma build_children_terminates R es i :
  (∀ j, i ≤ j → R j ≠ Diverge) →
  (∀ j t j', R j = Ok (t, j') → j ≤ j') →
  build_children R es i ≠ Diverge.
Proof.
  intros HR Hcur. revert i HR.
  induction es as [|[t|ref| |] es IH]; intros i HR; simpl.
  - done.
  - specialize (IH i HR). by destruct (build_children R es i) as [[cs i']| |].
  - specialize (HR i (le_n _)) as Hi.
    destruct (R i) as [[c i1]| |] eqn:Ec; [|done..]. simpl.
    assert (build_children R es i1 ≠ Diverge) as IH1.
    { apply IH. intros j Hj. apply HR. apply Hcur in Ec. lia. }
    by destruct (build_children R es i1) as [[cs i']| |].
  - eauto.
  - specialize (IH i HR). by destruct (build_children R es i) as [[cs i']| |].
Qed.

(** Every call of [_build_tree] moves the cursor, so a budget above the
    number of productions left is never exhausted. *)
Lemma build_tree_terminates fuel prods i :
  length prods - i < fuel → _build_tree fuel prods i ≠ Diverge.
Proof.
  revert i. induction fuel as [|fuel IH]; intros i Hf; [lia|].
  simpl. destruct (prods !! i) as [p|] eqn:Hp; [|done].
  apply lookup_lt_Some in Hp.
  assert (build_children (_build_tree fuel prods) (elements p) (S i) ≠ Diverge)
    as Hc.
  { apply build_children_terminates.
    - intros j Hj. apply IH. lia.
    - intros j t j'. apply build_tree_cursor. }
  by destruct (build_children (_build_tree fuel prods) (elements p) (S i))
    as [[cs j]| |].
Qed.

(** The tree does not depend on the budget. *)
Lemma build_tree_enough fuel prods i r :
  _build_tree fuel prods i = Ok r →
  _build_tree (S (length prods)) prods i = Ok r.
Proof.
  intros H.
  pose proof (build_tree_terminates (S (length prods)) prods i ltac:(lia)) as Ht.
  destruct (Nat.le_ge_cases fuel (S (length prods))) as [Hle|Hge].
  - by eapply build_tree_mono.
  - rewrite <-H. symmetry. by eapply build_tree_mono.
Qed.
End TreeFacts.

(** ** From a successful match to the parse tree *)

Section ParseFacts.
Import Lexer Grammar ParseTree Parser.
Context {U : Type}.
Variable arena : list (NonTerminalObj U).
Variable tokens : list Token.
Implicit Types (rec : element → scan U → result (bool * scan U))
  (st : scan U) (es : list element)
  (B : list (Production U) → nat → result (tree U * nat)).

Lemma consumed_app p l1 l2 :
  consumed tokens p l1 → consumed tokens (p + length l1) l2 →
  consumed tokens p (l1 ++ l2).
Proof.
  intros H1 H2 i t [Hi|[Hle Hi]]%lookup_app_Some; [by apply H1|].
  destruct (H2 _ _ Hi) as (tok & Htok & ?). exists tok. split; [|done].
  rewrite <-Htok. f_equal. lia.
Qed.

Lemma match_elements_parsed rec B save es st st' :
  (∀ e st st', rec e st = Ok (true, st') → parsed tokens B [e] st st') →
  match_elements rec save es st = Ok (true, st') →
  parsed tokens B es st st'.
Proof.
  intros Hrec. revert st. induction es as [|e es IH]; intros st H;
    cbn [match_elements] in H.
  - injection H as <-. exists [], []. split_and!.
    + by rewrite app_nil_r.
    + simpl. lia.
    + by intros i t.
    + intros pre rest. simpl. by rewrite Nat.add_0_r.
  - apply bind_Ok in H as ([ok st1] & He & H). destruct ok; [|done].
    destruct (Hrec _ _ _ He) as (ps1 & cs1 & Hs1 & Hp1 & Hc1 & Hb1).
    destruct (IH _ H) as (ps2 & cs2 & Hs2 & Hp2 & Hc2 & Hb2).
    exists (ps1 ++ ps2), (cs1 ++ cs2).
    rewrite fmap_app, concat_app, length_app. split_and!.
    + by rewrite Hs2, Hs1, app_assoc.
    + lia.
    + apply consumed_app; [done|]. by rewrite <-Hp1.
    + intros pre rest. rewrite build_children_cons.
      replace (pre ++ (ps1 ++ ps2) ++ rest) with (pre ++ ps1 ++ (ps2 ++ rest))
        by by rewrite <-!app_assoc.
      rewrite Hb1. cbn.
      replace (pre ++ ps1 ++ ps2 ++ rest) with ((pre ++ ps1) ++ ps2 ++ rest)
        by by rewrite <-!app_assoc.
      replace (length pre + length ps1) with (length (pre ++ ps1))
        by by rewrite length_app.
      rewrite Hb2. cbn. rewrite !length_app. do 2 f_equal. lia.
Qed.

Lemma match_element_parsed fuel e st st' :
  _match_production_element arena tokens fuel e st = Ok (true, st') →
  parsed tokens (_build_tree fuel) [e] st st'.
Proof.
  revert e st st'. induction fuel as [|fuel IH]; intros e st st' H; [done|].
  destruct e as [t|ref| |]; cbn [_match_production_element] in H.
  - unfold _match_terminal in H.
    destruct (_lookahead st) as [la|] eqn:Hla; [|done].
    destruct (tokens !! la) as [tok|] eqn:Htok; [|done].
    case_decide as Hcat; [|done]. injection H as <-.
    exists [], [Leaf t None]. split_and!.
    + unfold _advance_lookahead. rewrite Hla. simpl. by rewrite app_nil_r.
    + unfold _advance_lookahead. rewrite Hla. simpl.
      apply lookup_lt_Some in Htok. case_decide; simpl; lia.
    + rewrite Hla. intros i t' Hi. destruct i; [|done]. injection Hi as <-.
      exists tok. simpl. by rewrite Nat.add_0_r.
    + intros pre rest. simpl. by rewrite Nat.add_0_r.
  - unfold _match_non_terminal in H.
    pose proof (match_production_element_discipline arena tokens fuel) as Hd.
    destruct (match_alternatives_spec _ _ _ _ _ Hd H) as [_ Ht].
    destruct Ht as (pre0 & p & post & ps0 & _ & _ & Hp & _); [done|].
    apply (match_elements_parsed _ (_build_tree fuel)) in Hp; [|exact IH].
    destruct Hp as (ps & cs & Hs & Hpos & Hcons & Hb).
    exists (p :: ps), [Node (Some p) cs]. simpl in Hs, Hpos, Hcons.
    cbn [fmap list_fmap concat leaf_terminals]. rewrite app_nil_r.
    split_and!.
    + by rewrite Hs, <-app_assoc.
    + done.
    + done.
    + intros pre rest. cbn [build_children _build_tree].
      replace (pre ++ (p :: ps) ++ rest) with ((pre ++ [p]) ++ ps ++ rest)
        by by rewrite <-app_assoc.
      rewrite lookup_app_l by (rewrite length_app; simpl; lia).
      rewrite list_lookup_middle by done.
      replace (S (length pre)) with (length (pre ++ [p]))
        by (rewrite length_app; simpl; lia).
      rewrite Hb. cbn. rewrite length_app. simpl. do 2 f_equal. lia.
  - injection H as <-. exists [], []. split_and!.
    + by rewrite app_nil_r.
    + simpl. lia.
    + by intros i t.
    + intros pre rest. simpl. by rewrite Nat.add_0_r.
  - done.
Qed.
End ParseFacts.

(** ** Leaves and tokens *)

Section LeavesFacts.
Import Lexer Grammar ParseTree Parser.
Context {U : Type}.

Lemma labelled_leaves (tokens : list Token) (terminals : list string) :
  length terminals = length tokens →
  consumed tokens 0 terminals →
  Forall2 (λ (leaf : tree U) tok,
             ∃ terminal, leaf = Leaf terminal (Some tok) ∧
                         category tok = terminal)
    (zip_with labelled terminals tokens) tokens.
Proof.
  intros Hlen Hc. apply Forall2_same_length_lookup_2.
  - rewrite length_zip_with. lia.
  - intros i leaf tok Hleaf Htok.
    apply lookup_zip_with_Some in Hleaf as (t & tok' & -> & Ht & Htok').
    assert (tok' = tok) as -> by congruence.
    destruct (Hc i t Ht) as (tok2 & Htok2 & Hcat). simpl in Htok2.
    assert (tok2 = tok) as -> by congruence. by exists t.
Qed.

(** C6: when [parse] succeeds, the parse tree has as many leaves as the
    lexer produced tokens, and the i-th leaf of the walk carries the i-th
    token (whose category is the terminal of that leaf). *)
Theorem leaves_are_the_tokens fuel (p : RecursiveDescentParser U) s p' :
  parse fuel p s = Ok (true, p') →
  ∃ tokens pt,
    tokenize (lexer p) s = Ok tokens ∧
    parse_tree p' = Some pt ∧
    leaves pt = _find_leaves (root pt) ∧
    length (leaves pt) = length tokens ∧
    Forall2 (λ leaf tok,
               ∃ terminal, leaf = Leaf terminal (Some tok) ∧
                           category tok = terminal)
      (leaves pt) tokens.
Proof.
  unfold parse. intros H. apply bind_Ok in H as (tokens & Htok & H).
  apply bind_Ok in H as ([ok p1] & Hscan & H). destruct ok; [|done].
  apply bind_Ok in H as (pt & Hpt & [= <-]).
  exists tokens, pt. split; [done|]. split; [done|].
  unfold _scan in Hscan. simpl in Hscan.
  destruct (non_terminals (grammar p) !! 0) as [start|]; [|done].
  apply bind_Ok in Hscan as ([res st] & Hm & [= Hres <-]). simpl in Hpt.
  apply andb_true_iff in Hres as [-> Hla%bool_decide_eq_true].
  destruct (match_element_parsed _ _ _ _ _ _ Hm)
    as (ps & cs & Hs & Hpos & Hcons & Hb).
  rewrite Hla in Hpos. simpl in Hs, Hpos, Hcons.
  specialize (Hb [] []). rewrite app_nil_r in Hb. simpl in Hb.
  apply bind_Ok in Hb as ([c i1] & Hc & [= <- ->]).
  apply build_tree_enough in Hc.
  unfold ParseTree_init in Hpt. rewrite Hs, Hc in Hpt. cbn in Hpt.
  simpl in Hpos, Hcons. rewrite app_nil_r in Hpos, Hcons.
  destruct (add_tokens_spec c tokens []) as (t' & Ht' & Hleaves); [done|].
  rewrite app_nil_r in Ht'. rewrite Ht' in Hpt.
  assert (root pt = t' ∧ leaves pt = _find_leaves t') as [Hroot Hlv].
  { destruct t' as [?|[production|] ?|]; try done.
    destruct (return_value production); [|by injection Hpt as <-].
    apply bind_Ok in Hpt as (v & _ & [= <-]). done. }
  rewrite Hroot, Hlv, Hleaves. split_and!; [done | |].
  - rewrite length_zip_with. lia.
  - by apply labelled_leaves.
Qed.
End LeavesFacts.

Section LeavesWitness.
Import Lexer Grammar ParseTree Parser.

Lemma leaves_are_the_tokens_witness :
  ∃ p', parse 4 Prefix.parser "+12" = Ok (true, p') ∧
    ∃ tokens pt,
      tokenize (lexer Prefix.parser) "+12" = Ok tokens ∧
      parse_tree p' = Some pt ∧
      leaves pt = _find_leaves (root pt) ∧
      length (leaves pt) = length tokens ∧
      Forall2 (λ leaf tok,
                 ∃ terminal, leaf = Leaf terminal (Some tok) ∧
                             category tok = terminal)
        (leaves pt) tokens.
Proof.
  eexists. split; [vm_compute; reflexivity|].
  apply (leaves_are_the_tokens 4). vm_compute. reflexivity.
Defined.
End LeavesWitness.

(** * Further properties of the automata *)

Section ClosureProperties.
Import Automata.
Implicit Types (t : Table (gset nat)).

(** X1: when [_find_epsilon_closure] returns, its result is exactly the
    set of states that epsilon-transitions reach from the given state, the
    state itself included. *)
Theorem find_epsilon_closure_reachable t s c :
  _find_epsilon_closure t s = Ok c →
  ∀ y, y ∈ c ↔ rtc (eps_step t) s y.
Proof.
  intros H y. destruct (find_epsilon_closure_spec _ _ _ H) as (Hs & Hr & Hcl).
  split; [apply Hr|]. intros Hy. by eapply closed_reach.
Qed.

End ClosureProperties.

Section ClosureWitnesses.
Import Automata.

Lemma find_epsilon_closure_reachable_witness :
  _find_epsilon_closure (Table_of_dicts [{[EPSILON := {[1]}]}; ∅] Default_set) 0
  = Ok {[0; 1]} ∧
  ∀ y, y ∈ ({[0; 1]} : gset nat) ↔
       rtc (eps_step (Table_of_dicts [{[EPSILON := {[1]}]}; ∅] Default_set)) 0 y.
Proof.
  split; [vm_compute; reflexivity|].
  apply find_epsilon_closure_reachable. vm_compute. reflexivity.
Defined.

End ClosureWitnesses.

Section CombinatorProperties.
Import Automata.
Implicit Types (t : Table (gset nat)) (n m : Nfa) (ns : list Nfa).

Lemma setcell_len {V} (t t' : Table V) i item v :
  table_setcell t i item v = Ok t' → table_len t' = table_len t.
Proof.
  unfold table_setcell. destruct (py_index (table_len t) i) as [k|]; [|done].
  destruct (tdata t !! k) as [row|]; [|done]. intros [= <-].
  unfold table_len. simpl. apply length_insert.
Qed.

Lemma link_rows_len t offsets value t' :
  link_rows t offsets value = Ok t' → table_len t' = table_len t.
Proof.
  revert t. induction offsets as [|o offsets IH]; intros t H; simpl in H.
  - by injection H as <-.
  - apply bind_Ok in H as (t1 & H1 & H). apply setcell_len in H1.
    rewrite (IH _ H). done.
Qed.

Lemma concat_tables_len ts t offsets :
  _concat_tables ts = Ok (t, offsets) →
  table_len t = sum_list (table_len <$> ts) ∧
  offsets = prefix_sums 0 (table_len <$> ts).
Proof.
  destruct ts as [|first rest]; [done|]. rewrite concat_tables_Ok.
  intros [= <- <-]. split; [apply shifted_rows_length | done].
Qed.

Lemma Nfa_init_len t n : Nfa_init t = Ok n → table n = t.
Proof. intros H. by destruct (Nfa_init_Ok _ _ H). Qed.

(** X3: the number of states of the automata the combinators make:
    [epsilon] and [char] have 2 states, [concat] as many as its arguments
    together, [union] two more than that, and [star] two more than its
    argument. *)
Theorem combinator_state_counts :
  (∀ n, Nfa_epsilon = Ok n → nfa_len (table n) = 2) ∧
  (∀ c n, Nfa_char c = Ok n → nfa_len (table n) = 2) ∧
  (∀ ns n, Nfa_concat ns = Ok n →
     nfa_len (table n) = sum_list ((λ m, nfa_len (table m)) <$> ns)) ∧
  (∀ ns n, Nfa_union ns = Ok n →
     nfa_len (table n) = sum_list ((λ m, nfa_len (table m)) <$> ns) + 2) ∧
  (∀ m n, Nfa_star m = Ok n → nfa_len (table n) = nfa_len (table m) + 2).
Proof.
  split_and!.
  - intros n H. apply Nfa_init_len in H. by rewrite H.
  - intros c n H. apply Nfa_init_len in H. by rewrite H.
  - intros ns n H. unfold Nfa_concat in H.
    apply bind_Ok in H as ([t o] & Ht & H). apply bind_Ok in H as (t' & Hl & H).
    apply Nfa_init_len in H. apply link_rows_len in Hl.
    apply concat_tables_len in Ht as [Ht _].
    unfold nfa_len. rewrite H, Hl, Ht, <-list_fmap_compose. done.
  - intros ns n H. unfold Nfa_union in H.
    apply bind_Ok in H as ([t o] & Ht & H). apply bind_Ok in H as (t0 & H0 & H).
    apply bind_Ok in H as (t' & Hl & H).
    apply Nfa_init_len in H. apply link_rows_len in Hl. apply setcell_len in H0.
    apply concat_tables_len in Ht as [Ht _].
    unfold nfa_len. rewrite H, Hl, H0, Ht.
    rewrite !fmap_app, !sum_list_with_app, <-list_fmap_compose.
    change (sum_list (table_len <$> [with_empty_row Default_set])) with 1.
    change (table_len ∘ table) with (λ m : Nfa, table_len (table m)). lia.
  - intros m n H. unfold Nfa_star in H.
    apply bind_Ok in H as ([t o] & Ht & H). apply bind_Ok in H as (t0 & H0 & H).
    apply bind_Ok in H as (t' & H1 & H).
    apply Nfa_init_len in H. apply setcell_len in H0, H1.
    apply concat_tables_len in Ht as [Ht _].
    unfold nfa_len. rewrite H, H1, H0, Ht.
    change (sum_list (table_len <$> [with_empty_row Default_set; table m;
                                     with_empty_row Default_set]))
      with (1 + (table_len (table m) + (1 + 0))). lia.
Qed.


End CombinatorProperties.

Section CombinatorWitnesses.
Import Automata.

Lemma combinator_state_counts_witness :
  ∃ a n, Nfa_char "a" = Ok a ∧ Nfa_star a = Ok n ∧
         nfa_len (table n) = nfa_len (table a) + 2.
Proof.
  eexists _, _. split; [vm_compute; reflexivity|].
  split; [vm_compute; reflexivity|].
  apply (proj2 (proj2 (proj2 (proj2 combinator_state_counts)))).
  vm_compute. reflexivity.
Defined.


End CombinatorWitnesses.

(** * Further properties of the lexer *)

Section LexerProperties.
Import Automata Lexer.
Implicit Types (lx : CharacterStream) (cs : list string) (acc : list Token).

Lemma tokenize_chars_admitted lx cs acc :
  Forall (admitted lx) (unescaped lx cs) →
  tokenize_chars lx cs acc = Ok (acc ++ (token_of lx <$> unescaped lx cs)).
Proof.
  revert acc. induction cs as [|c cs IH]; intros acc Hadm; simpl.
  - by rewrite app_nil_r.
  - unfold unescaped in *. case_decide as Hesc.
    + rewrite filter_cons_False in Hadm |- * by (intros Hne; by apply Hne).
      by apply IH.
    + rewrite filter_cons_True in Hadm |- * by done.
      inversion Hadm as [|? ? Hc Hrest]; subst.
      rewrite decide_False by (intros [Hne Hnot]; by destruct Hc).
      rewrite fmap_cons.
      case_decide as Hsp; rewrite IH by done; rewrite <-app_assoc; simpl;
        unfold token_of at 2.
      * by rewrite (decide_False (P := c ∈ _special_characters lx)).
      * by rewrite (decide_True (P := c ∈ _special_characters lx)).
Qed.

Lemma tokenize_chars_rejected lx cs acc :
  ¬ Forall (admitted lx) (unescaped lx cs) →
  tokenize_chars lx cs acc = Raise ValueError.
Proof.
  revert acc. induction cs as [|c cs IH]; intros acc Hadm; simpl.
  - destruct Hadm. constructor.
  - unfold unescaped in *. case_decide as Hesc.
    + rewrite filter_cons_False in Hadm by (intros Hne; by apply Hne).
      by apply IH.
    + rewrite filter_cons_True in Hadm by done.
      case_decide as Hc; [done|].
      assert (admitted lx c) as Hc'.
      { unfold admitted.
        destruct (decide (_admissible_characters lx = ∅)); [by left|].
        destruct (decide (c ∈ _admissible_characters lx)); [by right|].
        destruct Hc. done. }
      assert (¬ Forall (admitted lx)
                (filter (λ char, char ≠ _escape_character lx) cs)) as Hrest
        by (intros ?; apply Hadm; by constructor).
      case_decide; by apply IH.
Qed.

(** X6: when every character of the input other than the escape
    character is admissible (always so when no admissible set is given),
    [tokenize] returns one token per such character, in order: a special
    character gives the token whose category and lexeme are that character,
    any other gives a token of the general class with the character as
    lexeme. *)
Theorem tokenize_admitted lx s :
  Forall (admitted lx) (unescaped lx (chars s)) →
  tokenize lx s = Ok (token_of lx <$> unescaped lx (chars s)).
Proof. intros H. unfold tokenize. by rewrite tokenize_chars_admitted. Qed.

(** X7: [tokenize] raises [ValueError] exactly when an admissible set is
    given and some character other than the escape character is not in
    it; it raises nothing else. *)
Theorem tokenize_raises_iff lx s :
  (tokenize lx s = Raise ValueError ↔
   ∃ char, char ∈ chars s ∧ char ≠ _escape_character lx ∧
           _admissible_characters lx ≠ ∅ ∧
           char ∉ _admissible_characters lx) ∧
  (∀ e, tokenize lx s = Raise e → e = ValueError) ∧
  tokenize lx s ≠ Diverge.
Proof.
  destruct (decide (Forall (admitted lx) (unescaped lx (chars s)))) as [Hall|Hnot].
  - rewrite (tokenize_admitted _ _ Hall). split_and!; [split; [done|] | done..].
    intros (c & Hin & Hesc & Hne & Hnotin). rewrite Forall_forall in Hall.
    destruct (Hall c); [|done..]. unfold unescaped. by apply list_elem_of_filter.
  - unfold tokenize. rewrite (tokenize_chars_rejected _ _ _ Hnot).
    split_and!; [split; [intros _|done] | by intros e [= <-] | done].
    apply not_Forall_Exists in Hnot; [|intros c; unfold admitted; apply _].
    apply Exists_exists in Hnot as (c & Hin & Hc).
    unfold unescaped in Hin. apply list_elem_of_filter in Hin as [Hesc Hin].
    exists c. split_and!; [done..| |]; intros ?; apply Hc; unfold admitted; auto.
Qed.

(** X8: the lexemes of the tokens, in order, are the characters of the
    input with the escape characters left out; every token carries a
    single character of the input. *)
Theorem tokenize_lexemes lx s toks :
  tokenize lx s = Ok toks →
  lexeme <$> toks = unescaped lx (chars s).
Proof.
  intros H.
  destruct (decide (Forall (admitted lx) (unescaped lx (chars s)))) as [Hall|Hnot].
  - rewrite (tokenize_admitted _ _ Hall) in H. injection H as <-.
    rewrite <-list_fmap_compose. rewrite <-(list_fmap_id (unescaped _ _)) at 2.
    apply list_fmap_ext. intros _ c _. simpl. unfold token_of.
    by case_decide.
  - unfold tokenize in H. by rewrite (tokenize_chars_rejected _ _ _ Hnot) in H.
Qed.
End LexerProperties.

Section LexerWitnesses.
Import Automata Lexer.

Lemma tokenize_admitted_witness :
  tokenize Regex.lexer "a|b"
  = Ok (token_of Regex.lexer <$> unescaped Regex.lexer (chars "a|b")).
Proof.
  apply tokenize_admitted. apply Forall_forall. intros c _. by left.
Defined.

Lemma tokenize_lexemes_witness :
  lexeme <$> [mkToken "-" "-"; mkToken "digit" "1"; mkToken "digit" "2"]
  = unescaped Prefix.lexer (chars "-12").
Proof. apply tokenize_lexemes. vm_compute. reflexivity. Defined.
End LexerWitnesses.

(** * Further properties of the parser *)

Section DerivationFacts.
Import Lexer Grammar ParseTree Parser.
Context {U : Type}.
Variable arena : list (NonTerminalObj U).
Variable tokens : list Token.
Implicit Types (rec : element → scan U → result (bool * scan U))
  (st : scan U) (es : list element) (cs : list (tree U)) (t : tree U)
  (B : list (Production U) → nat → result (tree U * nat)).

Lemma derives_children_app es1 es2 cs1 cs2 :
  derives_children arena es1 cs1 → derives_children arena es2 cs2 →
  derives_children arena (es1 ++ es2) (cs1 ++ cs2).
Proof.
  intros H1 H2. induction H1; simpl; [done|..].
  - by apply derives_terminal.
  - by apply derives_non_terminal.
  - by apply derives_epsilon.
Qed.

Lemma match_elements_derived rec B save es st st' :
  (∀ e st st', rec e st = Ok (true, st') → derived arena B [e] st st') →
  match_elements rec save es st = Ok (true, st') →
  derived arena B es st st'.
Proof.
  intros Hrec. revert st. induction es as [|e es IH]; intros st H;
    cbn [match_elements] in H.
  - injection H as <-. exists [], []. split_and!.
    + by rewrite app_nil_r.
    + constructor.
    + intros pre rest. simpl. by rewrite Nat.add_0_r.
  - apply bind_Ok in H as ([ok st1] & He & H). destruct ok; [|done].
    destruct (Hrec _ _ _ He) as (ps1 & cs1 & Hs1 & Hd1 & Hb1).
    destruct (IH _ H) as (ps2 & cs2 & Hs2 & Hd2 & Hb2).
    exists (ps1 ++ ps2), (cs1 ++ cs2). split_and!.
    + by rewrite Hs2, Hs1, app_assoc.
    + by apply (derives_children_app [e]).
    + intros pre rest. rewrite build_children_cons.
      replace (pre ++ (ps1 ++ ps2) ++ rest) with (pre ++ ps1 ++ (ps2 ++ rest))
        by by rewrite <-!app_assoc.
      rewrite Hb1. cbn.
      replace (pre ++ ps1 ++ ps2 ++ rest) with ((pre ++ ps1) ++ ps2 ++ rest)
        by by rewrite <-!app_assoc.
      replace (length pre + length ps1) with (length (pre ++ ps1))
        by by rewrite length_app.
      rewrite Hb2. cbn. rewrite !length_app. do 2 f_equal. lia.
Qed.

Lemma match_element_derived fuel e st st' :
  _match_production_element arena tokens fuel e st = Ok (true, st') →
  derived arena (_build_tree fuel) [e] st st'.
Proof.
  revert e st st'. induction fuel as [|fuel IH]; intros e st st' H; [done|].
  destruct e as [t|ref| |]; cbn [_match_production_element] in H.
  - unfold _match_terminal in H.
    destruct (_lookahead st) as [la|] eqn:Hla; [|done].
    destruct (tokens !! la) as [tok|] eqn:Htok; [|done].
    case_decide as Hcat; [|done]. injection H as <-.
    exists [], [Leaf t None]. split_and!.
    + unfold _advance_lookahead. rewrite Hla. simpl. by rewrite app_nil_r.
    + apply derives_terminal. constructor.
    + intros pre rest. simpl. by rewrite Nat.add_0_r.
  - unfold _match_non_terminal in H.
    pose proof (match_production_element_discipline arena tokens fuel) as Hd.
    destruct (match_alternatives_spec _ _ _ _ _ Hd H) as [_ Ht].
    destruct Ht as (pre0 & p & post & ps0 & Halts & _ & Hp & _); [done|].
    apply (match_elements_derived _ (_build_tree fuel)) in Hp; [|exact IH].
    destruct Hp as (ps & cs & Hs & Hder & Hb).
    exists (p :: ps), [Node (Some p) cs]. simpl in Hs. split_and!.
    + by rewrite Hs, <-app_assoc.
    + apply derives_non_terminal; [|done|constructor].
      rewrite Halts. set_solver.
    + intros pre rest. cbn [build_children _build_tree].
      replace (pre ++ (p :: ps) ++ rest) with ((pre ++ [p]) ++ ps ++ rest)
        by by rewrite <-app_assoc.
      rewrite lookup_app_l by (rewrite length_app; simpl; lia).
      rewrite list_lookup_middle by done.
      replace (S (length pre)) with (length (pre ++ [p]))
        by (rewrite length_app; simpl; lia).
      rewrite Hb. cbn. rewrite length_app. simpl. do 2 f_equal. lia.
  - injection H as <-. exists [], []. split_and!.
    + by rewrite app_nil_r.
    + apply derives_epsilon. constructor.
    + intros pre rest. simpl. by rewrite Nat.add_0_r.
  - done.
Qed.

(** Attaching tokens changes neither the shape of the tree nor its
    terminals nor its productions. *)
Lemma add_tokens_derives es cs : ∀ toks,
  derives_children arena es cs →
  derives_children arena es (add_tokens_children _add_tokens cs toks).1.
Proof.
  intros toks H. revert toks.
  induction H as [|t tok es cs H IH|ref q cs' es cs Hq H' IH' H IH|es cs H IH];
    intros toks.
  - constructor.
  - rewrite add_tokens_children_cons. cbn [_add_tokens].
    destruct toks as [|k toks].
    + specialize (IH []).
      destruct (add_tokens_children _add_tokens cs []) as [l r].
      by apply derives_terminal.
    + specialize (IH toks).
      destruct (add_tokens_children _add_tokens cs toks) as [l r].
      by apply derives_terminal.
  - rewrite add_tokens_children_cons. cbn [_add_tokens].
    specialize (IH' toks).
    destruct (add_tokens_children _add_tokens cs' toks) as [l1 r1].
    specialize (IH r1).
    destruct (add_tokens_children _add_tokens cs r1) as [l2 r2].
    by apply derives_non_terminal.
  - apply derives_epsilon, IH.
Qed.

Lemma add_tokens_leaf_terminals t : ∀ toks,
  leaf_terminals (_add_tokens t toks).1 = leaf_terminals t.
Proof.
  induction t as [terminal tok|p cs IH|] using tree_ind; intros toks.
  - by destruct toks.
  - cbn [_add_tokens].
    assert (concat (leaf_terminals
                      <$> (add_tokens_children _add_tokens cs toks).1)
            = concat (leaf_terminals <$> cs)) as Hcs.
    { revert toks. induction IH as [|c cs Hc _ IHcs]; intros toks; [done|].
      rewrite add_tokens_children_cons. specialize (Hc toks).
      destruct (_add_tokens c toks) as [c' r1]. specialize (IHcs r1).
      destruct (add_tokens_children _add_tokens cs r1) as [l r2].
      cbn [fst] in *. rewrite !fmap_cons. cbn [concat]. by rewrite Hc, IHcs. }
    destruct (add_tokens_children _add_tokens cs toks) as [l r]. exact Hcs.
  - done.
Qed.




Lemma consumed_all (terminals : list string) :
  length terminals = length tokens →
  consumed tokens 0 terminals →
  terminals = category <$> tokens.
Proof.
  intros Hlen Hc. apply list_eq. intros i. rewrite list_lookup_fmap.
  destruct (terminals !! i) as [x|] eqn:E.
  - destruct (Hc i x E) as (tok & Htok & <-). simpl in Htok. by rewrite Htok.
  - apply lookup_ge_None in E. rewrite lookup_ge_None_2; [done|lia].
Qed.
End DerivationFacts.

Section ParserProperties.
Import Lexer Grammar ParseTree Parser.
Context {U : Type}.
Implicit Types (p : RecursiveDescentParser U) (st : scan U)
  (rec : element → scan U → result (bool * scan U)).

(** What a successful [parse] went through. *)
Lemma parse_success_inv fuel p s p' :
  parse fuel p s = Ok (true, p') →
  ∃ tokens start st c pt,
    tokenize (lexer p) s = Ok tokens ∧
    non_terminals (grammar p) !! 0 = Some start ∧
    _match_production_element (arena (grammar p)) tokens fuel
      (NonTerminal start) (mkScan (Some 0) []) = Ok (true, st) ∧
    _lookahead st = None ∧
    _build_tree (S (length (_stack st))) (_stack st) 0
    = Ok (c, length (_stack st)) ∧
    root pt = (_add_tokens c tokens).1 ∧
    p' = mkParser (grammar p) (lexer p) (Some pt) (tree_return_value pt)
           tokens st.
Proof.
  unfold parse. intros H. apply bind_Ok in H as (tokens & Htok & H).
  apply bind_Ok in H as ([ok p1] & Hscan & H). destruct ok; [|done].
  apply bind_Ok in H as (pt & Hpt & [= <-]).
  unfold _scan in Hscan. simpl in Hscan.
  destruct (non_terminals (grammar p) !! 0) as [start|]; [|done].
  apply bind_Ok in Hscan as ([res st] & Hm & [= Hres <-]). simpl in Hpt.
  apply andb_true_iff in Hres as [-> Hla%bool_decide_eq_true].
  exists tokens, start, st.
  destruct (match_element_parsed _ _ _ _ _ _ Hm) as (ps & cs & Hs & _ & _ & Hb).
  specialize (Hb [] []). rewrite app_nil_r in Hb. simpl in Hb, Hs.
  apply bind_Ok in Hb as ([c i1] & Hc & [= <- ->]).
  apply build_tree_enough in Hc. rewrite <-Hs in Hc.
  exists c, pt. split_and!; [done..| |done].
  unfold ParseTree_init in Hpt. rewrite Hc in Hpt. cbn in Hpt.
  destruct (_add_tokens c tokens) as [t' r]. simpl.
  destruct t' as [?|[production|] ?|]; try done.
  destruct (return_value production); [|by injection Hpt as <-].
  by apply bind_Ok in Hpt as (v & _ & [= <-]).
Qed.

(** X9: soundness of the parser.  When [parse] succeeds, the root of the
    parse tree is a derivation tree of the start symbol of the grammar:
    every node carries one of the alternatives of its non-terminal and has
    one child for each terminal and non-terminal of that production, in
    order.  The terminals of its leaves, read from left to right, are the
    categories of the tokens of the input. *)
Theorem parse_tree_is_a_derivation fuel p s p' :
  parse fuel p s = Ok (true, p') →
  ∃ tokens start pt,
    tokenize (lexer p) s = Ok tokens ∧
    non_terminals (grammar p) !! 0 = Some start ∧
    parse_tree p' = Some pt ∧
    derives_children (arena (grammar p)) [NonTerminal start] [root pt] ∧
    leaf_terminals (root pt) = category <$> tokens.
Proof.
  intros H.
  destruct (parse_success_inv _ _ _ _ H)
    as (tokens & start & st & c & pt & Htok & Hstart & Hm & Hla & Hc & Hroot & ->).
  exists tokens, start, pt. split_and!; [done..| |].
  - destruct (match_element_derived _ _ _ _ _ _ Hm) as (ps & cs & Hs & Hd & Hb).
    specialize (Hb [] []). rewrite app_nil_r in Hb. simpl in Hb, Hs.
    apply bind_Ok in Hb as ([c' i1] & Hc' & [= <- ->]).
    apply build_tree_enough in Hc'. rewrite <-Hs in Hc'.
    assert (c' = c) as -> by congruence.
    apply (add_tokens_derives _ _ _ tokens) in Hd.
    rewrite add_tokens_children_cons in Hd. rewrite Hroot.
    destruct (_add_tokens c tokens) as [t' r]. exact Hd.
  - destruct (match_element_parsed _ _ _ _ _ _ Hm)
      as (ps & cs & Hs & Hpos & Hcons & Hb).
    specialize (Hb [] []). rewrite app_nil_r in Hb. simpl in Hb, Hs.
    apply bind_Ok in Hb as ([c' i1] & Hc' & [= <- ->]).
    apply build_tree_enough in Hc'. rewrite <-Hs in Hc'.
    assert (c' = c) as -> by congruence.
    rewrite Hla in Hpos. simpl in Hpos, Hcons. rewrite app_nil_r in Hpos, Hcons.
    rewrite Hroot, add_tokens_leaf_terminals.
    by apply consumed_all.
Qed.


Lemma match_elements_lookahead_fixed rec save es st b st' :
  (∀ e st b st', rec e st = Ok (b, st') → _lookahead st' = _lookahead st) →
  save = _lookahead st →
  match_elements rec save es st = Ok (b, st') →
  _lookahead st' = _lookahead st.
Proof.
  intros Hrec. revert st. induction es as [|e es IH]; intros st Hsave H;
    simpl in H.
  - by injection H as <- <-.
  - apply bind_Ok in H as ([ok st1] & He & H).
    pose proof (Hrec _ _ _ _ He) as Hla. destruct ok.
    + rewrite <-Hla. apply IH; [congruence | done].
    + by injection H as <- <-.
Qed.

(** Without tokens no terminal is ever matched. *)
Lemma no_tokens_lookahead_fixed (arena : list (NonTerminalObj U)) fuel :
  ∀ e st b st',
    _match_production_element arena [] fuel e st = Ok (b, st') →
    _lookahead st' = _lookahead st.
Proof.
  induction fuel as [|fuel IH]; intros e st b st' H; [done|].
  destruct e as [t|ref| |]; simpl in H.
  - unfold _match_terminal in H.
    destruct (_lookahead st) as [la|] eqn:Hla; [done|]. by injection H as <- <-.
  - unfold _match_non_terminal in H.
    pose proof (match_production_element_discipline arena [] fuel) as Hd.
    destruct (match_alternatives_spec _ _ _ _ _ Hd H) as [Hf Ht].
    destruct b.
    + destruct Ht as (pre & q & post & ps & _ & _ & Hq & _); [done|].
      by apply match_elements_lookahead_fixed in Hq.
    + by destruct Hf as [-> _].
  - by injection H as <- <-.
  - done.
Qed.

(** X11: a string that gives no token is never accepted, whatever the
    grammar: [_reset] sets the lookahead to 0, and only a matched terminal
    could set it to [None]. *)
Theorem parse_without_tokens_never_succeeds fuel p s p' :
  tokenize (lexer p) s = Ok [] →
  parse fuel p s ≠ Ok (true, p').
Proof.
  intros Htok H.
  destruct (parse_success_inv _ _ _ _ H)
    as (tokens & start & st & c & pt & Htok' & _ & Hm & Hla & _).
  assert (tokens = []) as -> by congruence.
  apply no_tokens_lookahead_fixed in Hm. simpl in Hm. congruence.
Qed.

(** *** Exceptions of the matcher *)








End ParserProperties.

Section ParserWitnesses.
Import Lexer Grammar ParseTree Parser.

Lemma parse_tree_is_a_derivation_witness :
  ∃ p', parse 4 Prefix.parser "+12" = Ok (true, p') ∧
    ∃ tokens start pt,
      tokenize (lexer Prefix.parser) "+12" = Ok tokens ∧
      non_terminals (grammar Prefix.parser) !! 0 = Some start ∧
      parse_tree p' = Some pt ∧
      derives_children (arena (grammar Prefix.parser))
        [NonTerminal start] [root pt] ∧
      leaf_terminals (root pt) = category <$> tokens.
Proof.
  eexists. split; [vm_compute; reflexivity|].
  apply (parse_tree_is_a_derivation 4). vm_compute. reflexivity.
Defined.


Lemma parse_without_tokens_never_succeeds_witness :
  tokenize (lexer Prefix.epsilon_parser) "" = Ok [] ∧
  ∀ p', parse 4 Prefix.epsilon_parser "" ≠ Ok (true, p').
Proof.
  split; [reflexivity|]. intros p'.
  apply (parse_without_tokens_never_succeeds 4 Prefix.epsilon_parser "" p').
  reflexivity.
Defined.

End ParserWitnesses.

(** * Further properties of the automata: the subset construction *)

Section NfaSemantics.
Import Automata.
Implicit Types (n : Nfa) (S T C : gset nat) (c : string).

Lemma Built_nfa_ok n : Built n → nfa_ok n.
Proof.
  intros Hb. split; [apply (Built_table_ok _ Hb) | by apply Built_cache].
Qed.

Lemma closure_int_spec n s :
  nfa_ok n → s < table_len (table n) →
  ∃ C, epsilon_closure_int n s = Ok C ∧
       ∀ y, y ∈ C ↔ rtc (eps_step (table n)) s y.
Proof.
  intros [Hwf Hc] Hs. destruct (Hc s Hs) as (C & Hl & Hf). exists C.
  unfold epsilon_closure_int. rewrite Hl. split; [done|].
  destruct (find_epsilon_closure_spec _ _ _ Hf) as (Hs' & Hr & Hcl).
  intros y. split; [apply Hr|]. intros Hy. by eapply closed_reach.
Qed.

Lemma epsilon_closure_spec n S :
  nfa_ok n → in_range (table n) S →
  ∃ C, epsilon_closure n S = Ok C ∧
       ∀ y, y ∈ C ↔ ∃ x, x ∈ S ∧ rtc (eps_step (table n)) x y.
Proof.
  intros Hok Hin. unfold epsilon_closure.
  destruct (mapM_total (epsilon_closure_int n) (elements S)) as [cs Hcs].
  { intros x Hx%elem_of_elements.
    destruct (closure_int_spec n x Hok (Hin _ Hx)) as (C & -> & _).
    by eexists. }
  exists (set_union cs). rewrite Hcs. split; [done|].
  apply mapM_Ok in Hcs. intros y. unfold set_union.
  rewrite elem_of_union_list. split.
  - intros (C & HC & Hy). apply list_elem_of_lookup in HC as [i Hi].
    destruct (Forall2_lookup_r _ _ _ _ _ Hcs Hi) as (x & Hx & HxC).
    apply list_elem_of_lookup_2, elem_of_elements in Hx.
    exists x. split; [done|].
    destruct (closure_int_spec n x Hok (Hin _ Hx)) as (C' & HC' & Hspec).
    assert (C' = C) as -> by congruence. by apply Hspec.
  - intros (x & Hx & Hr).
    destruct (closure_int_spec n x Hok (Hin _ Hx)) as (C & HC & Hspec).
    apply elem_of_elements, list_elem_of_lookup in Hx as [i Hi].
    destruct (Forall2_lookup_l _ _ _ _ _ Hcs Hi) as (C' & HC' & HxC).
    assert (C' = C) as -> by congruence.
    exists C. split; [by eapply list_elem_of_lookup_2 | by apply Hspec].
Qed.

Lemma epsilon_closure_closed n S C :
  nfa_ok n → in_range (table n) S → epsilon_closure n S = Ok C →
  closed_states n C ∧ S ⊆ C.
Proof.
  intros Hok Hin HC.
  destruct (epsilon_closure_spec n S Hok Hin) as (C' & HC' & Hspec).
  assert (C' = C) as -> by congruence. split; [split|].
  - intros y (x & Hx & Hr)%Hspec. eapply wf_reach; [apply Hok|by apply Hin|done].
  - intros x y (x0 & Hx0 & Hr)%Hspec Hstep. apply Hspec. exists x0.
    split; [done|]. by eapply rtc_r.
  - intros x Hx. apply Hspec. by exists x.
Qed.

Lemma epsilon_closure_fixed n S :
  nfa_ok n → closed_states n S → epsilon_closure n S = Ok S.
Proof.
  intros Hok [Hin Hcl].
  destruct (epsilon_closure_spec n S Hok Hin) as (C & HC & Hspec).
  rewrite HC. f_equal. apply set_eq. intros y. rewrite Hspec. split.
  - intros (x & Hx & Hr). by eapply closed_reach.
  - intros Hy. by exists y.
Qed.

Lemma transition_closed n S c :
  nfa_ok n → in_range (table n) S →
  ∃ T, transition n S c = Ok T ∧ closed_states n T.
Proof.
  intros Hok Hin. unfold transition.
  destruct (epsilon_closure_spec n S Hok Hin) as (C & HC & _).
  destruct (epsilon_closure_closed n S C Hok Hin HC) as [[HinC _] _].
  destruct (wf_cells_union (table n) c C (proj1 Hok) HinC)
    as (cs & u & Hcs & Hu & Hinu).
  destruct (epsilon_closure_spec n u Hok Hinu) as (T & HT & _).
  exists T. rewrite HC. simpl. rewrite Hcs. simpl. rewrite Hu. simpl.
  split; [done|]. by eapply epsilon_closure_closed.
Qed.

Lemma transition_closure n S C c :
  epsilon_closure n S = Ok C → epsilon_closure n C = Ok C →
  transition n S c = transition n C c.
Proof. unfold transition. by intros -> ->. Qed.

Lemma insert_sorted_elem (x y : string) (l : list string) :
  y ∈ insert_sorted x l ↔ y = x ∨ y ∈ l.
Proof.
  induction l as [|z l IH]; simpl.
  - rewrite list_elem_of_singleton. set_solver.
  - destruct (String.leb x z).
    + by rewrite elem_of_cons.
    + rewrite !elem_of_cons, IH. naive_solver.
Qed.

Lemma sorted_elem (x : string) (l : list string) : x ∈ sorted l ↔ x ∈ l.
Proof.
  induction l as [|z l IH]; [done|]. unfold sorted in *. simpl.
  rewrite insert_sorted_elem, IH, elem_of_cons. done.
Qed.

Lemma input_characters_spec n S cols :
  get_input_characters n S = Ok cols →
  ∀ c, c ∈ cols ↔
       c ≠ EPSILON ∧
       ∃ x row, x ∈ S ∧ tdata (table n) !! x = Some row ∧
                is_Some (data row !! c).
Proof.
  unfold get_input_characters. intros H.
  apply bind_Ok in H as (cs & Hcs & [= <-]). apply mapM_Ok in Hcs.
  intros c. unfold set_union.
  rewrite elem_of_difference, elem_of_union_list, not_elem_of_singleton.
  split.
  - intros [(X & HX & Hc) Hne]. split; [done|].
    apply list_elem_of_lookup in HX as [i Hi].
    destruct (Forall2_lookup_r _ _ _ _ _ Hcs Hi) as (x & Hx & HxX).
    apply list_elem_of_lookup_2, elem_of_elements in Hx.
    destruct (tdata (table n) !! x) as [row|] eqn:Hrow; [|done].
    injection HxX as <-. exists x, row. split_and!; [done..|].
    apply elem_of_list_to_set in Hc. unfold row_columns in Hc.
    rewrite sorted_elem, elem_of_elements in Hc. by apply elem_of_dom.
  - intros [Hne (x & row & Hx & Hrow & Hc)]. split; [|done].
    apply elem_of_elements, list_elem_of_lookup in Hx as [i Hi].
    destruct (Forall2_lookup_l _ _ _ _ _ Hcs Hi) as (X & HX & HxX).
    rewrite Hrow in HxX. injection HxX as <-.
    eexists. split; [by eapply list_elem_of_lookup_2|].
    apply elem_of_list_to_set. unfold row_columns.
    rewrite sorted_elem, elem_of_elements. by apply elem_of_dom.
Qed.

Lemma epsilon_closure_empty n : epsilon_closure n ∅ = Ok ∅.
Proof. unfold epsilon_closure. by rewrite elements_empty. Qed.

(** A character that no state of a closed set has as a column leads
    nowhere. *)
Lemma transition_dead n S c cols :
  nfa_ok n → closed_states n S →
  get_input_characters n S = Ok cols → c ∉ cols → c ≠ EPSILON →
  transition n S c = Ok ∅.
Proof.
  intros Hok Hcl Hcols Hc Hne. unfold transition.
  rewrite (epsilon_closure_fixed n S Hok Hcl). simpl.
  destruct (wf_cells_union (table n) c S (proj1 Hok) (proj1 Hcl))
    as (cs & u & Hcs & Hu & Hinu).
  rewrite Hcs. simpl. rewrite Hu. simpl.
  assert (u = ∅) as ->; [|apply epsilon_closure_empty].
  apply set_eq. intros y. split; [|set_solver]. intros Hy. exfalso.
  destruct (cells_union _ _ _ _ _ Hcs Hu) as [_ Hback].
  destruct (Hback y Hy) as (x & row & s & Hx & Hrow & Hs & Hys).
  unfold row_getitem in Hs.
  destruct (data row !! c) as [s'|] eqn:Hd.
  - apply Hc. apply (input_characters_spec _ _ _ Hcols). split; [done|].
    exists x, row. by rewrite Hd.
  - destruct Hok as [[_ Hrows] _].
    rewrite Forall_forall in Hrows.
    destruct (Hrows row) as [Hdef _]; [by eapply list_elem_of_lookup_2|].
    unfold _return_default in Hs. rewrite Hdef in Hs. simpl in Hs.
    injection Hs as <-. set_solver.
Qed.

Lemma input_characters_empty n : get_input_characters n ∅ = Ok ∅.
Proof.
  unfold get_input_characters. rewrite elements_empty. simpl. by f_equal.
Qed.

Lemma is_final_empty n : is_final n ∅ = false.
Proof.
  unfold is_final. rewrite andb_false_iff. right.
  apply bool_decide_eq_false. set_solver.
Qed.

Lemma chars_not_epsilon (s : string) : Forall (λ c, c ≠ EPSILON) (chars s).
Proof. induction s as [|a s IH]; simpl; constructor; [by intros [=] | done]. Qed.
End NfaSemantics.

Section TranslateFacts.
Import Automata.
Variable n : Nfa.
Hypothesis Hok : nfa_ok n.
Implicit Types (S T : gset nat) (reg : gmap (gset nat) nat)
  (stack : list (gset nat)) (row : gmap string nat)
  (data : gmap nat (gmap string nat)) (fin : gset nat).

(** The loop over the input characters of a set: it registers and pushes
    the sets that are new, and fills the row. *)
Lemma translate_chars_spec S cs : ∀ reg stack row reg' stack' row',
  closed_states n S → registered_ok n reg →
  translate_chars n S cs reg stack row = Ok (reg', stack', row') →
  registered_ok n reg' ∧ reg ⊆ reg' ∧
  (∃ new, stack' = new ++ stack ∧ NoDup new ∧
          ∀ T, T ∈ new ↔ reg !! T = None ∧ is_Some (reg' !! T)) ∧
  (∀ c, is_Some (row' !! c) ↔ c ∈ cs ∨ is_Some (row !! c)) ∧
  (∀ c k, row' !! c = Some k →
     (∃ T, transition n S c = Ok T ∧ reg' !! T = Some k) ∨ row !! c = Some k).
Proof.
  intros reg stack row reg' stack' row' HS.
  revert reg stack row.
  induction cs as [|c cs IH]; intros reg stack row Hreg H; simpl in H.
  - injection H as <- <- <-. split_and!; [done..| | |].
    + exists []. split_and!; [done|constructor|]. intros T. split.
      * by intros ?%elem_of_nil.
      * intros [HN [? HS']]. congruence.
    + intros c. rewrite elem_of_nil. tauto.
    + intros c k ?. by right.
  - apply bind_Ok in H as (T & HT & H).
    destruct (transition_closed n S c Hok (proj1 HS)) as (T' & HT' & HclT).
    assert (T' = T) as -> by congruence.
    destruct (reg !! T) as [k0|] eqn:HregT.
    + destruct (IH _ _ _ Hreg H) as (Hreg' & Hsub & Hnew & Hdom & Hrow).
      split_and!; [done..| |].
      * intros c'. rewrite Hdom, elem_of_cons.
        destruct (decide (c' = c)) as [->|Hne].
        -- rewrite lookup_insert_eq. split; [by left; left|by right].
        -- rewrite lookup_insert_ne by done. naive_solver.
      * intros c' k Hk. destruct (Hrow c' k Hk) as [?|Hk']; [by left|].
        destruct (decide (c' = c)) as [->|Hne].
        -- rewrite lookup_insert_eq in Hk'. injection Hk' as <-. left.
           exists T. split; [done|]. by eapply lookup_weaken.
        -- rewrite lookup_insert_ne in Hk' by done. by right.
    + assert (registered_ok n (<[T := size reg]> reg)) as Hreg1.
      { destruct Hreg as [Hb Hinj]. split.
        - intros T1 i. rewrite map_size_insert_None by done.
          destruct (decide (T1 = T)) as [->|Hne].
          + rewrite lookup_insert_eq. intros [= <-]. split; [lia|done].
          + rewrite lookup_insert_ne by done. intros Hi.
            destruct (Hb _ _ Hi). split; [lia|done].
        - intros T1 T2 i.
          destruct (decide (T1 = T)) as [->|Hne1];
            destruct (decide (T2 = T)) as [->|Hne2]; [done|..].
          + rewrite lookup_insert_eq, lookup_insert_ne by done.
            intros [= <-] Hi. destruct (Hb _ _ Hi). lia.
          + rewrite lookup_insert_eq, lookup_insert_ne by done.
            intros Hi [= <-]. destruct (Hb _ _ Hi). lia.
          + rewrite !lookup_insert_ne by done. apply Hinj. }
      destruct (IH _ _ _ Hreg1 H)
        as (Hreg' & Hsub & (new & -> & Hnd & Hnew) & Hdom & Hrow).
      assert (reg ⊆ reg') as Hsub'.
      { etrans; [|exact Hsub]. by apply insert_subseteq. }
      assert (reg' !! T = Some (size reg)) as HregT'.
      { eapply lookup_weaken; [|exact Hsub]. by rewrite lookup_insert_eq. }
      split_and!; [done..| | |].
      * exists (new ++ [T]). split_and!.
        -- by rewrite <-app_assoc.
        -- apply NoDup_app. split_and!; [done| |apply NoDup_singleton].
           intros T1 [HN _]%Hnew ->%list_elem_of_singleton.
           by rewrite lookup_insert_eq in HN.
        -- intros T1. rewrite elem_of_app, list_elem_of_singleton, Hnew.
           destruct (decide (T1 = T)) as [->|Hne].
           ++ rewrite lookup_insert_eq. split; [|by right].
              intros _. split; [done|by eexists].
           ++ rewrite lookup_insert_ne by done. naive_solver.
      * intros c'. rewrite Hdom, elem_of_cons.
        destruct (decide (c' = c)) as [->|Hne].
        -- rewrite lookup_insert_eq. split; [by left; left|by right].
        -- rewrite lookup_insert_ne by done. naive_solver.
      * intros c' k Hk. destruct (Hrow c' k Hk) as [?|Hk']; [by left|].
        destruct (decide (c' = c)) as [->|Hne].
        -- rewrite lookup_insert_eq in Hk'. injection Hk' as <-. left.
           by exists T.
        -- rewrite lookup_insert_ne in Hk' by done. by right.
Qed.
End TranslateFacts.

Section DfaFacts.
Import Automata.
Variable n : Nfa.
Hypothesis Hok : nfa_ok n.
Implicit Types (S T : gset nat) (reg : gmap (gset nat) nat)
  (stack : list (gset nat)) (row : gmap string nat)
  (data : gmap nat (gmap string nat)) (fin : gset nat) (d : Dfa).

Lemma translate_inv_init S0 :
  closed_states n S0 → translate_inv n {[0 := ∅]} ∅ {[S0 := 0]} [S0].
Proof.
  intros HS0. split_and!.
  - split.
    + intros S i [<- <-]%lookup_singleton_Some.
      rewrite map_size_singleton. split; [lia|done].
    + intros S S' i [<- _]%lookup_singleton_Some [<- _]%lookup_singleton_Some.
      done.
  - apply NoDup_singleton.
  - intros i [[row Hi]|Hi]; [|set_solver].
    apply lookup_singleton_Some in Hi as [<- _]. exists S0.
    by rewrite lookup_singleton_eq.
  - intros S ->%list_elem_of_singleton. exists 0.
    rewrite !lookup_singleton_eq. split_and!; [done..|set_solver].
  - intros S i [<- <-]%lookup_singleton_Some HS. exfalso. apply HS.
    by apply list_elem_of_singleton.
Qed.

Lemma row_done_weaken reg reg' S row :
  reg ⊆ reg' → row_done n reg S row → row_done n reg' S row.
Proof.
  intros Hsub (cols & Hcols & Hdom & Htr). exists cols. split_and!; [done..|].
  intros c k Hk. destruct (Htr c k Hk) as (T & HT & HregT).
  exists T. split; [done|]. by eapply lookup_weaken.
Qed.

(** One turn of the [while stack] loop keeps [translate_inv]. *)
Lemma translate_inv_step data fin reg S stack i cols reg1 stack1 row1 :
  translate_inv n data fin reg (S :: stack) →
  reg !! S = Some i →
  get_input_characters n S = Ok cols →
  translate_chars n S (sorted (elements cols)) reg stack
    (from_option id ∅ (data !! i)) = Ok (reg1, stack1, row1) →
  reg ⊆ reg1 ∧
  translate_inv n (<[i := row1]> data)
    (if is_final n S then fin ∪ {[i]} else fin) reg1 stack1.
Proof.
  intros (Hreg & Hnd & Hkeys & Hstack & Hdone) HregS Hcols Htc.
  destruct (Hstack S) as (i' & HregS' & Hrow0 & Hfin0); [by left|].
  assert (i' = i) as -> by congruence. rewrite Hrow0 in Htc.
  destruct (proj1 Hreg _ _ HregS) as [_ HclS].
  destruct (translate_chars_spec n Hok S _ _ _ _ _ _ _ HclS Hreg Htc)
    as (Hreg1 & Hsub & (new & -> & Hndnew & Hnew) & Hdom & Hrow).
  apply NoDup_cons in Hnd as [HSstack Hnd].
  assert (∀ T j, reg1 !! T = Some j → reg !! T = None →
            (∀ T0, reg !! T0 ≠ Some j)) as Hfresh.
  { intros T j HT HN T0 HT0.
    assert (T0 = T) as ->.
    { apply (proj2 Hreg1 _ _ j); [by eapply lookup_weaken | done]. }
    congruence. }
  assert (∀ j, j ∈ (if is_final n S then fin ∪ {[i]} else fin) →
            j ∈ fin ∨ j = i) as Hfin'.
  { intros j. destruct (is_final n S); set_solver. }
  split; [done|]. split_and!.
  - done.
  - apply NoDup_app. split_and!; [done| |done].
    intros T [HN _]%Hnew HT.
    destruct (Hstack T) as (j & Hj & _); [by right|]. congruence.
  - intros j [Hj|Hj].
    + destruct (decide (j = i)) as [->|Hne].
      * exists S. by eapply lookup_weaken.
      * rewrite lookup_insert_ne in Hj by done.
        destruct (Hkeys j) as [T HT]; [by left|].
        exists T. by eapply lookup_weaken.
    + destruct (Hfin' j Hj) as [Hj'| ->].
      * destruct (Hkeys j) as [T HT]; [by right|].
        exists T. by eapply lookup_weaken.
      * exists S. by eapply lookup_weaken.
  - intros T [HT|HT]%elem_of_app.
    + apply Hnew in HT as [HN [j Hj]]. exists j.
      pose proof (Hfresh _ _ Hj HN) as Hfr.
      assert (j ≠ i) as Hne by (intros ->; by apply (Hfr S)).
      rewrite lookup_insert_ne by done.
      assert (data !! j = None) as ->.
      { destruct (data !! j) as [r|] eqn:E; [|done].
        destruct (Hkeys j) as [T0 HT0]; [left; by eexists|].
        by destruct (Hfr T0). }
      split_and!; [done..|]. intros [Hj'| ->]%Hfin'; [|done].
      destruct (Hkeys j) as [T0 HT0]; [by right|]. by destruct (Hfr T0).
    + destruct (Hstack T) as (j & Hj & Hrowj & Hfinj); [by right|].
      exists j.
      assert (j ≠ i) as Hne.
      { intros ->. apply HSstack.
        by rewrite (proj2 Hreg _ _ _ HregS Hj). }
      rewrite lookup_insert_ne by done.
      split_and!; [by eapply lookup_weaken | done |].
      intros [Hj'| ->]%Hfin'; done.
  - intros T j HT HTstack.
    rewrite elem_of_app in HTstack.
    destruct (reg !! T) as [j'|] eqn:HregT.
    2:{ exfalso. apply HTstack. left. apply Hnew. split; [done|by eexists]. }
    assert (j' = j) as ->.
    { pose proof (lookup_weaken _ _ _ _ HregT Hsub). congruence. }
    destruct (decide (T = S)) as [->|HTS].
    + assert (j = i) as -> by congruence. split.
      * destruct (is_final n S); [set_solver|]. split; [done|done].
      * exists row1. rewrite lookup_insert_eq. split; [done|].
        exists cols. split_and!; [done| |].
        -- intros c. rewrite Hdom, sorted_elem, elem_of_elements, lookup_empty.
           split; [intros [?|[? ?]]; done | by left].
        -- intros c k Hk. destruct (Hrow c k Hk) as [?|Hk']; [done|].
           by rewrite lookup_empty in Hk'.
    + destruct (Hdone T j HregT) as [Hiff (row & Hdata & Hrd)].
      { rewrite elem_of_cons. intros [?|?]; [done|]. apply HTstack. by right. }
      assert (j ≠ i) as Hne.
      { intros ->. apply HTS. by apply (proj2 Hreg _ _ i). }
      split.
      * rewrite <-Hiff. destruct (is_final n S); set_solver.
      * exists row. rewrite lookup_insert_ne by done. split; [done|].
        by eapply row_done_weaken.
Qed.

Lemma translate_loop_spec fuel : ∀ data fin reg stack data' fin',
  translate_inv n data fin reg stack →
  translate_loop fuel n data fin reg stack = Ok (data', fin') →
  ∃ reg', reg ⊆ reg' ∧ translate_inv n data' fin' reg' [].
Proof.
  induction fuel as [|fuel IH]; intros data fin reg stack data' fin' Hinv H;
    destruct stack as [|S stack]; simpl in H; try done.
  - injection H as <- <-. by exists reg.
  - injection H as <- <-. by exists reg.
  - destruct (reg !! S) as [i|] eqn:HregS; [|done].
    apply bind_Ok in H as (cols & Hcols & H).
    apply bind_Ok in H as ([[reg1 stack1] row1] & Htc & H).
    destruct (translate_inv_step _ _ _ _ _ _ _ _ _ _ Hinv HregS Hcols Htc)
      as [Hsub Hinv1].
    destruct (IH _ _ _ _ _ _ Hinv1 H) as (reg' & Hsub' & Hinv').
    exists reg'. split; [by etrans|done].
Qed.

Lemma dfa_init_inv fuel d :
  0 < table_len (table n) →
  Dfa_init fuel n = Ok d →
  ∃ S0 reg, epsilon_closure_int n 0 = Ok S0 ∧ closed_states n S0 ∧
            reg !! S0 = Some 0 ∧
            translate_inv n (dfa_table d) (finals d) reg [].
Proof.
  intros Hlen H. unfold Dfa_init in H.
  apply bind_Ok in H as ([t fin] & Htr & [= <-]).
  unfold _translate_nfa in Htr. apply bind_Ok in Htr as (S0 & HS0 & Hloop).
  destruct (closure_int_spec n 0 Hok Hlen) as (C & HC & Hspec).
  assert (C = S0) as -> by congruence.
  assert (closed_states n S0) as Hcl.
  { split.
    - intros y Hy%Hspec. eapply wf_reach; [apply Hok|exact Hlen|done].
    - intros x y Hx%Hspec Hstep. apply Hspec. by eapply rtc_r. }
  destruct (translate_loop_spec _ _ _ _ _ _ _ (translate_inv_init S0 Hcl) Hloop)
    as (reg & Hsub & Hinv).
  exists S0, reg. split_and!; [done..| |done].
  eapply lookup_weaken; [|exact Hsub]. by rewrite lookup_singleton_eq.
Qed.

(** The state of the empty set, when there is one, accepts nothing. *)
Lemma dfa_dead d reg k :
  translate_inv n (dfa_table d) (finals d) reg [] →
  reg !! ∅ = Some k → ∀ w, dfa_match_loop d k w = false.
Proof.
  intros (Hreg & _ & _ & _ & Hdone) Hk w.
  destruct (Hdone ∅ k Hk) as [Hiff (row & Hdata & cols & Hcols & Hdom & _)];
    [by intros ?%elem_of_nil|].
  destruct w as [|c w]; simpl.
  - unfold dfa_is_final. apply bool_decide_eq_false. intros Hf%Hiff.
    by rewrite is_final_empty in Hf.
  - rewrite Hdata. simpl.
    rewrite input_characters_empty in Hcols. injection Hcols as <-.
    destruct (row !! c) as [k'|] eqn:Hc; [|done].
    exfalso. apply (not_elem_of_empty (C := gset string) c).
    apply Hdom. by eexists.
Qed.

(** The automaton made by [_translate_nfa] runs as the Nfa does from the
    set of states its state stands for. *)
Lemma dfa_run d reg :
  translate_inv n (dfa_table d) (finals d) reg [] →
  ∀ w S i, Forall (λ c, c ≠ EPSILON) w → reg !! S = Some i →
    match_loop n S w = Ok (dfa_match_loop d i w).
Proof.
  intros Hinv. pose proof Hinv as (Hreg & _ & _ & _ & Hdone).
  induction w as [|c w IH]; intros S i Hw HS;
    (destruct (Hdone S i HS)
      as [Hiff (row & Hdata & cols & Hcols & Hdom & Htr)];
     [by intros ?%elem_of_nil|]); simpl.
  - f_equal. unfold dfa_is_final.
    destruct (is_final n S) eqn:E; symmetry.
    + apply bool_decide_eq_true. by apply Hiff.
    + apply bool_decide_eq_false. intros Hf%Hiff. done.
  - apply Forall_cons in Hw as [Hc Hw]. rewrite Hdata. simpl.
    destruct (row !! c) as [k|] eqn:Hrc.
    + destruct (Htr c k Hrc) as (T & HT & HregT). rewrite HT. simpl.
      case_decide as HTe.
      * subst T. by rewrite (dfa_dead d reg k Hinv HregT).
      * by apply IH.
    + destruct (proj1 Hreg _ _ HS) as [_ HclS].
      rewrite (transition_dead n S c cols Hok HclS Hcols); [|
        |done].
      * simpl. by case_decide.
      * intros Hin%Hdom. rewrite Hrc in Hin. by destruct Hin.
Qed.
End DfaFacts.

Section DfaProperties.
Import Automata.

(** X13: the subset construction is correct on every string that is not
    empty.  For an automaton [n] made by the combinators and the Dfa [d]
    that [Dfa(n)] returns, [d.match(s)] is the answer of [n.match(s)],
    and [n.match(s)] raises nothing. *)
Theorem dfa_agrees_with_nfa n fuel d s :
  Built n → Dfa_init fuel n = Ok d → s ≠ "" →
  Nfa_match n s = Ok (Dfa_match d s).
Proof.
  intros Hb Hd Hs. pose proof (Built_nfa_ok n Hb) as Hok.
  assert (0 < table_len (table n)) as Hlen.
  { destruct (Built_table_ok n Hb) as (_ & ? & _). lia. }
  destruct (dfa_init_inv n Hok fuel d Hlen Hd) as (S0 & reg & HS0 & Hcl & Hreg & Hinv).
  unfold Nfa_match, Dfa_match.
  pose proof (chars_not_epsilon s) as Hw.
  destruct (chars s) as [|c w] eqn:Hchars; [by destruct s|].
  rewrite <-(dfa_run n Hok d reg Hinv (c :: w) S0 0 Hw Hreg).
  assert (epsilon_closure n {[0]} = Ok S0) as Hc0.
  { unfold epsilon_closure. rewrite elements_singleton. simpl.
    rewrite HS0. simpl. f_equal. unfold set_union. simpl.
    by rewrite (right_id_L ∅ (∪)). }
  simpl.
  by rewrite (transition_closure n {[0]} S0 c Hc0
                (epsilon_closure_fixed n S0 Hok Hcl)).
Qed.

(** X14: on the empty string the Dfa answers whether the final state of
    the Nfa is in the epsilon-closure of state 0. *)
Theorem dfa_on_empty_string n fuel d :
  Built n → Dfa_init fuel n = Ok d →
  ∃ c, epsilon_closure_int n 0 = Ok c ∧ Dfa_match d "" = is_final n c.
Proof.
  intros Hb Hd. pose proof (Built_nfa_ok n Hb) as Hok.
  assert (0 < table_len (table n)) as Hlen.
  { destruct (Built_table_ok n Hb) as (_ & ? & _). lia. }
  destruct (dfa_init_inv n Hok fuel d Hlen Hd) as (S0 & reg & HS0 & Hcl & Hreg & Hinv).
  exists S0. split; [done|].
  pose proof (dfa_run n Hok d reg Hinv [] S0 0 (Forall_nil_2 _) Hreg) as Hrun.
  simpl in Hrun. unfold Dfa_match. simpl. congruence.
Qed.

(** X15: the table of the Dfa is closed: every state a row leads to has
    a row of its own, state 0 has a row, and every final state has a
    row. *)
Theorem dfa_table_is_closed n fuel d :
  Built n → Dfa_init fuel n = Ok d →
  is_Some (dfa_table d !! 0) ∧
  (∀ i row c k, dfa_table d !! i = Some row → row !! c = Some k →
     is_Some (dfa_table d !! k)) ∧
  (∀ i, i ∈ finals d → is_Some (dfa_table d !! i)).
Proof.
  intros Hb Hd. pose proof (Built_nfa_ok n Hb) as Hok.
  assert (0 < table_len (table n)) as Hlen.
  { destruct (Built_table_ok n Hb) as (_ & ? & _). lia. }
  destruct (dfa_init_inv n Hok fuel d Hlen Hd)
    as (S0 & reg & HS0 & Hcl & Hreg & (Hr & _ & Hkeys & _ & Hdone)).
  assert (∀ S i, reg !! S = Some i → is_Some (dfa_table d !! i)) as Hrow.
  { intros S i HS. destruct (Hdone S i HS) as [_ (row & -> & _)]; [|done].
    by intros ?%elem_of_nil. }
  split_and!.
  - by eapply Hrow.
  - intros i row c k Hi Hk.
    destruct (Hkeys i) as [S HS]; [left; by eexists|].
    destruct (Hdone S i HS) as [_ (row' & Hdata & _ & _ & _ & Htr)];
      [by intros ?%elem_of_nil|].
    assert (row' = row) as -> by congruence.
    destruct (Htr c k Hk) as (T & _ & HT). by eapply Hrow.
  - intros i Hi. destruct (Hkeys i) as [S HS]; [by right|]. by eapply Hrow.
Qed.
End DfaProperties.

Section DfaWitnesses.
Import Automata.

Lemma dfa_agrees_with_nfa_witness :
  ∃ a n d, Nfa_char "a" = Ok a ∧ Nfa_star a = Ok n ∧ Dfa_init 8 n = Ok d ∧
           Nfa_match n "aa" = Ok (Dfa_match d "aa").
Proof.
  eexists _, _, _. split; [vm_compute; reflexivity|].
  split; [vm_compute; reflexivity|].
  split; [vm_compute; reflexivity|].
  apply (dfa_agrees_with_nfa _ 8).
  - eapply Built_star.
    + eapply (Built_char "a"). vm_compute. reflexivity.
    + vm_compute. reflexivity.
  - vm_compute. reflexivity.
  - done.
Defined.

Lemma dfa_on_empty_string_witness :
  ∃ a n d, Nfa_char "a" = Ok a ∧ Nfa_star a = Ok n ∧ Dfa_init 8 n = Ok d ∧
    ∃ c, epsilon_closure_int n 0 = Ok c ∧ Dfa_match d "" = is_final n c.
Proof.
  eexists _, _, _. split; [vm_compute; reflexivity|].
  split; [vm_compute; reflexivity|].
  split; [vm_compute; reflexivity|].
  apply (dfa_on_empty_string _ 8).
  - eapply Built_star.
    + eapply (Built_char "a"). vm_compute. reflexivity.
    + vm_compute. reflexivity.
  - vm_compute. reflexivity.
Defined.

Lemma dfa_table_is_closed_witness :
  ∃ a n d, Nfa_char "a" = Ok a ∧ Nfa_star a = Ok n ∧ Dfa_init 8 n = Ok d ∧
    is_Some (dfa_table d !! 0) ∧
    (∀ i row c k, dfa_table d !! i = Some row → row !! c = Some k →
       is_Some (dfa_table d !! k)) ∧
    (∀ i, i ∈ finals d → is_Some (dfa_table d !! i)).
Proof.
  eexists _, _, _. split; [vm_compute; reflexivity|].
  split; [vm_compute; reflexivity|].
  split; [vm_compute; reflexivity|].
  eapply (dfa_table_is_closed _ 8).
  - eapply Built_star.
    + eapply (Built_char "a"). vm_compute. reflexivity.
    + vm_compute. reflexivity.
  - vm_compute. reflexivity.
Defined.
End DfaWitnesses.

(** ** The subset construction stops *)

Section Counting.

Lemma size_set_map_inj `{Countable A, Countable B} (f : A → B) (X : gset A) :
  (∀ x y, x ∈ X → y ∈ X → f x = f y → x = y) →
  size (set_map f X : gset B) = size X.
Proof.
  induction X as [|x X Hx IH] using set_ind_L; intros Hinj.
  - by rewrite set_map_empty, !size_empty.
  - rewrite set_map_union_L, set_map_singleton_L.
    rewrite !size_union, !size_singleton, IH; [done| |set_solver|].
    + intros y z Hy Hz. apply Hinj; set_solver.
    + intros y ->%elem_of_singleton (z & Hfz & Hz)%elem_of_map.
      apply Hinj in Hfz; set_solver.
Qed.

(** There are at most [2 ^ len] sets of numbers below [len]. *)
Lemma subsets_bound (len : nat) (X : gset (gset nat)) :
  (∀ S x, S ∈ X → x ∈ S → x < len) → size X ≤ 2 ^ len.
Proof.
  revert X. induction len as [|len IH]; intros X HX.
  - assert (X ⊆ {[∅]}) as Hsub.
    { intros S HS. apply elem_of_singleton. apply set_eq. intros x.
      split; [|set_solver]. intros Hx. specialize (HX _ _ HS Hx). lia. }
    apply subseteq_size in Hsub. by rewrite size_singleton in Hsub.
  - rewrite <-(filter_union_complement_L (λ S, len ∈ S) X X).
    rewrite size_union by set_solver.
    assert (size (filter (λ S, len ∉ S) X) ≤ 2 ^ len) as HB.
    { apply IH. intros S x [Hlen HS]%elem_of_filter Hx.
      specialize (HX _ _ HS Hx).
      assert (x ≠ len) by (by intros ->). lia. }
    assert (size (filter (λ S, len ∈ S) X) ≤ 2 ^ len) as HA.
    { rewrite <-(size_set_map_inj (λ S, S ∖ {[len]})).
      - apply IH. intros S' x (S & -> & [Hlen HS]%elem_of_filter)%elem_of_map
          [Hx Hne]%elem_of_difference.
        specialize (HX _ _ HS Hx). apply not_elem_of_singleton in Hne. lia.
      - intros S S' [Hl HS]%elem_of_filter [Hl' HS']%elem_of_filter Heq.
        apply set_eq. intros x. destruct (decide (x = len)) as [->|Hne].
        + tauto.
        + assert (x ∈ S ∖ {[len]} ↔ x ∈ S' ∖ {[len]}) as Hiff
            by by rewrite Heq.
          set_solver. }
    rewrite Nat.pow_succ_r'. lia.
Qed.
End Counting.

Section DfaTermination.
Import Automata.
Variable n : Nfa.
Hypothesis Hok : nfa_ok n.
Implicit Types (S T : gset nat) (reg : gmap (gset nat) nat)
  (stack : list (gset nat)) (row : gmap string nat)
  (data : gmap nat (gmap string nat)) (fin : gset nat).

Lemma registered_size reg :
  registered_ok n reg → size reg ≤ 2 ^ table_len (table n).
Proof.
  intros [Hb _]. rewrite <-(size_dom (D := gset (gset nat))).
  apply subsets_bound. intros S x [i Hi]%elem_of_dom Hx.
  destruct (Hb _ _ Hi) as [_ [Hin _]]. by apply Hin.
Qed.

Lemma translate_chars_total S cs :
  closed_states n S →
  ∀ reg stack row,
    ∃ reg' new row',
      translate_chars n S cs reg stack row = Ok (reg', new ++ stack, row') ∧
      size reg' = size reg + length new.
Proof.
  intros HS. induction cs as [|c cs IH]; intros reg stack row; simpl.
  - exists reg, [], row. split; [done|]. simpl. lia.
  - destruct (transition_closed n S c Hok (proj1 HS)) as (T & -> & _). simpl.
    destruct (reg !! T) as [k|] eqn:HT.
    + apply IH.
    + destruct (IH (<[T := size reg]> reg) (T :: stack)
                  (<[c := size reg]> row)) as (reg' & new & row' & -> & Hsize).
      exists reg', (new ++ [T]), row'. rewrite <-app_assoc. split; [done|].
      rewrite Hsize, map_size_insert_None, length_app by done. simpl. lia.
Qed.

Lemma input_characters_total S :
  in_range (table n) S → ∃ cols, get_input_characters n S = Ok cols.
Proof.
  intros Hin. unfold get_input_characters.
  destruct (mapM_total
              (λ state, match tdata (table n) !! state with
                        | Some row =>
                            Ok (list_to_set (C := gset string) (row_columns row))
                        | None => Raise IndexError
                        end) (elements S)) as [cols ->].
  - intros x Hx%elem_of_elements. apply Hin in Hx.
    apply lookup_lt_is_Some_2 in Hx as [row ->]. by eexists.
  - by eexists.
Qed.

(** Every turn of the loop takes a set from the work list, and every
    set it pushes is a new registered set; there are at most [2 ^ len]
    of them. *)
Lemma translate_loop_total fuel : ∀ data fin reg stack,
  translate_inv n data fin reg stack →
  (2 ^ table_len (table n) - size reg) + length stack ≤ fuel →
  ∃ r, translate_loop fuel n data fin reg stack = Ok r.
Proof.
  induction fuel as [|fuel IH]; intros data fin reg stack Hinv Hfuel;
    destruct stack as [|S stack]; simpl in *; [by eexists|lia|by eexists|].
  pose proof Hinv as (Hreg & _ & _ & Hstack & _).
  destruct (Hstack S) as (i & HregS & _); [by left|]. rewrite HregS.
  destruct (proj1 Hreg _ _ HregS) as [_ HclS].
  destruct (input_characters_total S (proj1 HclS)) as [cols Hcols].
  rewrite Hcols. simpl.
  destruct (translate_chars_total S (sorted (elements cols)) HclS reg stack
              (from_option id ∅ (data !! i)))
    as (reg1 & new & row1 & Htc & Hsize).
  rewrite Htc. simpl.
  destruct (translate_inv_step n Hok _ _ _ _ _ _ _ _ _ _ Hinv HregS Hcols Htc)
    as [_ Hinv1].
  apply IH; [done|].
  pose proof (registered_size reg1 (proj1 Hinv1)) as Hle.
  rewrite length_app. lia.
Qed.
End DfaTermination.

Section DfaTerminationProperty.
Import Automata.

(** X16: [Dfa(n)] returns for every automaton [n] made by the
    combinators: the [while stack] loop of [_translate_nfa] makes at most
    [2 ^ len(n)] turns and raises nothing. *)
Theorem dfa_construction_terminates n :
  Built n → ∃ d, Dfa_init (2 ^ nfa_len (table n)) n = Ok d.
Proof.
  intros Hb. pose proof (Built_nfa_ok n Hb) as Hok.
  assert (0 < table_len (table n)) as Hlen.
  { destruct (Built_table_ok n Hb) as (_ & ? & _). lia. }
  destruct (closure_int_spec n 0 Hok Hlen) as (S0 & HS0 & Hspec).
  assert (closed_states n S0) as Hcl.
  { split.
    - intros y Hy%Hspec. eapply wf_reach; [apply Hok|exact Hlen|done].
    - intros x y Hx%Hspec Hstep. apply Hspec. by eapply rtc_r. }
  unfold Dfa_init, _translate_nfa. rewrite HS0. simpl.
  destruct (translate_loop_total n Hok (2 ^ nfa_len (table n))
              {[0 := ∅]} ∅ {[S0 := 0]} [S0]) as [[t fin] ->].
  - by apply translate_inv_init.
  - rewrite map_size_singleton. simpl. unfold nfa_len.
    assert (1 ≤ 2 ^ table_len (table n)); [|lia].
    apply Nat.pow_lower_bound. lia.
  - by eexists.
Qed.
End DfaTerminationProperty.

Section DfaTerminationWitness.
Import Automata.

Lemma dfa_construction_terminates_witness :
  ∃ a n, Nfa_char "a" = Ok a ∧ Nfa_star a = Ok n ∧
         ∃ d, Dfa_init (2 ^ nfa_len (table n)) n = Ok d.
Proof.
  eexists _, _. split; [vm_compute; reflexivity|].
  split; [vm_compute; reflexivity|].
  apply dfa_construction_terminates.
  eapply Built_star.
  - eapply (Built_char "a"). vm_compute. reflexivity.
  - vm_compute. reflexivity.
Defined.
End DfaTerminationWitness.

(** ** What the automata accept *)

Section PathFacts.
Import Automata.
Implicit Types (t : Table (gset nat)) (n : Nfa) (S T : gset nat)
  (c : string) (w : list string).

Lemma nfa_path_eps_star t w x y z :
  rtc (eps_step t) x y → nfa_path t w y z → nfa_path t w x z.
Proof.
  induction 1 as [|x x1 y Hstep _ IH]; [done|].
  intros Hp. eapply path_eps; [exact Hstep|]. by apply IH.
Qed.

Lemma nfa_path_nil_inv t w x z :
  nfa_path t w x z → w = [] → rtc (eps_step t) x z.
Proof.
  induction 1 as [x|w x y z Hstep _ IH|]; intros Hw; [done| |done].
  eapply rtc_l; [exact Hstep|]. by apply IH.
Qed.

Lemma nfa_path_cons_inv t w0 x z :
  nfa_path t w0 x z → ∀ c w, w0 = c :: w →
  ∃ x' y, c ≠ EPSILON ∧ rtc (eps_step t) x x' ∧ char_step t c x' y ∧
          nfa_path t w y z.
Proof.
  induction 1 as [x|w0 x y z Hstep _ IH|c0 w0 x y z Hne Hstep Hp _];
    intros c w Hw; [done| |].
  - destruct (IH c w Hw) as (x' & y' & Hne & Hr & Hc & Hp).
    exists x', y'. split_and!; [done|by eapply rtc_l|done..].
  - injection Hw as -> ->. by exists x, y.
Qed.

(** The set a transition leads to: epsilon-transitions, one transition
    on the character, epsilon-transitions. *)
Lemma transition_spec n S c T :
  nfa_ok n → in_range (table n) S → transition n S c = Ok T →
  ∀ y, y ∈ T ↔
       ∃ x x' y', x ∈ S ∧ rtc (eps_step (table n)) x x' ∧
                  char_step (table n) c x' y' ∧
                  rtc (eps_step (table n)) y' y.
Proof.
  intros Hok Hin H. unfold transition in H.
  apply bind_Ok in H as (C & HC & H). apply bind_Ok in H as (cs & Hcs & H).
  apply bind_Ok in H as (u & Hu & HT).
  destruct (epsilon_closure_spec n S Hok Hin) as (C' & HC' & HspecC).
  assert (C' = C) as -> by congruence.
  destruct (epsilon_closure_closed n S C Hok Hin HC) as [[HinC _] _].
  destruct (wf_cells_union (table n) c C (proj1 Hok) HinC)
    as (cs' & u' & Hcs' & Hu' & Hinu).
  assert (cs' = cs) as -> by congruence. assert (u' = u) as -> by congruence.
  destruct (epsilon_closure_spec n u Hok Hinu) as (T' & HT' & HspecT).
  assert (T' = T) as -> by congruence.
  destruct (cells_union _ _ _ _ _ Hcs Hu) as [Hfwd Hback].
  intros y. rewrite HspecT. split.
  - intros (y' & Hy' & Hr). destruct (Hback y' Hy') as (x' & row & s & Hx' & ?).
    apply HspecC in Hx' as (x & Hx & Hrx).
    exists x, x', y'. split_and!; [done..| |done]. by exists row, s.
  - intros (x & x' & y' & Hx & Hrx & (row & s & Hrow & Hs & Hy') & Hr).
    exists y'. split; [|done].
    assert (x' ∈ C) as Hx' by (apply HspecC; by exists x).
    destruct (Hfwd x' Hx') as (row' & s' & Hrow' & Hs' & Hsub).
    assert (row' = row) as -> by congruence.
    assert (s' = s) as -> by congruence. by apply Hsub.
Qed.

Lemma is_final_spec n S :
  1 ≤ table_len (table n) →
  is_final n S = true ↔ Z.to_nat (final n) ∈ S.
Proof.
  intros Hlen. unfold is_final. rewrite andb_true_iff, !bool_decide_eq_true.
  unfold final, table_final. split; [by intros [_ ?]|]. intros ?. split; [lia|done].
Qed.

(** From a closed set, [match] answers whether some state of the set has
    a run on the input to the final state. *)
Lemma match_loop_spec n w :
  nfa_ok n → 1 ≤ table_len (table n) →
  Forall (λ c, c ≠ EPSILON) w →
  ∀ S, closed_states n S →
    ∃ b, match_loop n S w = Ok b ∧
         (b = true ↔
          ∃ x, x ∈ S ∧ nfa_path (table n) w x (Z.to_nat (final n))).
Proof.
  intros Hok Hlen Hw. induction w as [|c w IH]; intros S HS; simpl.
  - eexists. split; [done|]. rewrite is_final_spec by done. split.
    + intros Hf. eexists. split; [done|constructor].
    + intros (x & Hx & Hp). apply nfa_path_nil_inv in Hp; [|done].
      by eapply closed_reach; [apply HS|..].
  - apply Forall_cons in Hw as [Hne Hw].
    destruct (transition_closed n S c Hok (proj1 HS)) as (T & HT & HclT).
    pose proof (transition_spec n S c T Hok (proj1 HS) HT) as Hspec.
    rewrite HT. simpl. case_decide as HTe.
    + exists false. split; [done|]. split; [done|].
      intros (x & Hx & Hp). exfalso.
      destruct (nfa_path_cons_inv _ _ _ _ Hp c w eq_refl)
        as (x' & y & _ & Hr & Hc & _).
      assert (y ∈ T) as Hy by (apply Hspec; by exists x, x', y).
      set_solver.
    + destruct (IH Hw T HclT) as (b & Hb & Hiff). exists b. split; [done|].
      rewrite Hiff. split.
      * intros (y & Hy & Hp).
        apply Hspec in Hy as (x & x' & y' & Hx & Hrx & Hc & Hry).
        exists x. split; [done|]. eapply nfa_path_eps_star; [exact Hrx|].
        eapply path_char; [exact Hne|exact Hc|]. by eapply nfa_path_eps_star.
      * intros (x & Hx & Hp).
        destruct (nfa_path_cons_inv _ _ _ _ Hp c w eq_refl)
          as (x' & y & _ & Hr & Hc & Hp').
        exists y. split; [|done]. apply Hspec. by exists x, x', y.
Qed.

(** The first transition of [match] closes the start set [{0}]. *)
Lemma match_loop_from_start n S0 c w :
  nfa_ok n → closed_states n S0 → epsilon_closure_int n 0 = Ok S0 →
  match_loop n {[0]} (c :: w) = match_loop n S0 (c :: w).
Proof.
  intros Hok Hcl HS0.
  assert (epsilon_closure n {[0]} = Ok S0) as Hc0.
  { unfold epsilon_closure. rewrite elements_singleton. simpl.
    rewrite HS0. simpl. f_equal. unfold set_union. simpl.
    by rewrite (right_id_L ∅ (∪)). }
  simpl.
  by rewrite (transition_closure n {[0]} S0 c Hc0
                (epsilon_closure_fixed n S0 Hok Hcl)).
Qed.

Lemma start_closure n :
  nfa_ok n → 1 ≤ table_len (table n) →
  ∃ S0, epsilon_closure_int n 0 = Ok S0 ∧ closed_states n S0 ∧
        ∀ w z, (∃ x, x ∈ S0 ∧ nfa_path (table n) w x z)
               ↔ nfa_path (table n) w 0 z.
Proof.
  intros Hok Hlen.
  destruct (closure_int_spec n 0 Hok Hlen) as (S0 & HS0 & Hspec).
  exists S0. split_and!; [done| |].
  - split.
    + intros y Hy%Hspec. eapply wf_reach; [apply Hok|exact Hlen|done].
    + intros x y Hx%Hspec Hstep. apply Hspec. by eapply rtc_r.
  - intros w z. split.
    + intros (x & Hx%Hspec & Hp). by eapply nfa_path_eps_star.
    + intros Hp. exists 0. split; [by apply Hspec|done].
Qed.
End PathFacts.

Section AcceptanceProperties.
Import Automata.

(** X17: what [Nfa.match] decides.  For an automaton made by the
    combinators and a string that is not empty, [match] returns, and it
    returns [True] exactly when the automaton has a run on the characters
    of the string from state 0 to its final state. *)
Theorem nfa_match_accepts n s :
  Built n → s ≠ "" →
  ∃ b, Nfa_match n s = Ok b ∧
       (b = true ↔ nfa_path (table n) (chars s) 0 (Z.to_nat (final n))).
Proof.
  intros Hb Hs. pose proof (Built_nfa_ok n Hb) as Hok.
  assert (1 ≤ table_len (table n)) as Hlen.
  { destruct (Built_table_ok n Hb) as (_ & ? & _). lia. }
  destruct (start_closure n Hok Hlen) as (S0 & HS0 & Hcl & Hstart).
  unfold Nfa_match. pose proof (chars_not_epsilon s) as Hw.
  destruct (chars s) as [|c w] eqn:Hchars; [by destruct s|].
  rewrite (match_loop_from_start n S0 c w Hok Hcl HS0).
  destruct (match_loop_spec n (c :: w) Hok Hlen Hw S0 Hcl) as (b & Hm & Hiff).
  exists b. split; [done|]. by rewrite Hiff, Hstart.
Qed.

(** X18: what [Dfa.match] decides.  For the Dfa made from an automaton
    built by the combinators, [match] returns [True] exactly when the Nfa
    has a run on the characters of the string from state 0 to its final
    state; this holds for the empty string as well. *)
Theorem dfa_match_accepts n fuel d s :
  Built n → Dfa_init fuel n = Ok d →
  Dfa_match d s = true ↔
  nfa_path (table n) (chars s) 0 (Z.to_nat (final n)).
Proof.
  intros Hb Hd. pose proof (Built_nfa_ok n Hb) as Hok.
  assert (1 ≤ table_len (table n)) as Hlen.
  { destruct (Built_table_ok n Hb) as (_ & ? & _). lia. }
  destruct (dfa_init_inv n Hok fuel d Hlen Hd)
    as (S0 & reg & HS0 & Hcl & Hreg & Hinv).
  destruct (start_closure n Hok Hlen) as (S0' & HS0' & _ & Hstart).
  assert (S0' = S0) as -> by congruence.
  pose proof (dfa_run n Hok d reg Hinv (chars s) S0 0
                (chars_not_epsilon s) Hreg) as Hrun.
  destruct (match_loop_spec n (chars s) Hok Hlen (chars_not_epsilon s) S0 Hcl)
    as (b & Hm & Hiff).
  unfold Dfa_match. rewrite <-Hstart, <-Hiff. split; congruence.
Qed.
End AcceptanceProperties.

Section AcceptanceWitnesses.
Import Automata.

Lemma nfa_match_accepts_witness :
  ∃ a n, Nfa_char "a" = Ok a ∧ Nfa_star a = Ok n ∧
    ∃ b, Nfa_match n "aa" = Ok b ∧
         (b = true ↔ nfa_path (table n) (chars "aa") 0 (Z.to_nat (final n))).
Proof.
  eexists _, _. split; [vm_compute; reflexivity|].
  split; [vm_compute; reflexivity|].
  apply nfa_match_accepts; [|done].
  eapply Built_star.
  - eapply (Built_char "a"). vm_compute. reflexivity.
  - vm_compute. reflexivity.
Defined.

Lemma dfa_match_accepts_witness :
  ∃ a n d, Nfa_char "a" = Ok a ∧ Nfa_star a = Ok n ∧ Dfa_init 8 n = Ok d ∧
    (Dfa_match d "" = true ↔
     nfa_path (table n) (chars "") 0 (Z.to_nat (final n))).
Proof.
  eexists _, _, _. split; [vm_compute; reflexivity|].
  split; [vm_compute; reflexivity|].
  split; [vm_compute; reflexivity|].
  apply (dfa_match_accepts _ 8).
  - eapply Built_star.
    + eapply (Built_char "a"). vm_compute. reflexivity.
    + vm_compute. reflexivity.
  - vm_compute. reflexivity.
Defined.
End AcceptanceWitnesses.

(** * The languages of the combinators *)

Section BlockFacts.
Import Automata.
Implicit Types (t : Table (gset nat)) (ts : list (Table (gset nat)))
  (c : string) (w : list string).

Lemma offset_0 ts : offset ts 0 = 0.
Proof. done. Qed.

Lemma offset_S t ts i : offset (t :: ts) (S i) = table_len t + offset ts i.
Proof. done. Qed.

Lemma offset_next ts i t :
  ts !! i = Some t → offset ts (S i) = offset ts i + table_len t.
Proof.
  revert i. induction ts as [|t0 ts IH]; intros i Hi; [done|].
  destruct i as [|i].
  - injection Hi as ->. unfold offset. simpl. lia.
  - rewrite !offset_S, (IH i Hi). lia.
Qed.

Lemma offset_all ts : offset ts (length ts) = sum_list (table_len <$> ts).
Proof.
  unfold offset. rewrite take_ge; [done|]. by rewrite length_fmap.
Qed.

Lemma offset_mono ts i j : i ≤ j → offset ts i ≤ offset ts j.
Proof.
  revert i j. induction ts as [|t ts IH]; intros i j Hij.
  - unfold offset. rewrite fmap_nil, !take_nil. done.
  - destruct i as [|i]; [rewrite offset_0; lia|].
    destruct j as [|j]; [lia|]. rewrite !offset_S.
    specialize (IH i j). lia.
Qed.

Lemma prefix_sums_lookup off (ls : list nat) i :
  prefix_sums off ls !! i
  = if decide (i < length ls) then Some (off + sum_list (take i ls)) else None.
Proof.
  revert off i. induction ls as [|l ls IH]; intros off i; [by destruct i|].
  destruct i as [|i]; simpl.
  - f_equal. lia.
  - rewrite IH. repeat case_decide; try lia; [|done]. f_equal. lia.
Qed.

Lemma offsets_lookup ts i :
  prefix_sums 0 (table_len <$> ts) !! i
  = if decide (i < length ts) then Some (offset ts i) else None.
Proof. rewrite prefix_sums_lookup, length_fmap. done. Qed.

(** The rows of the concatenated table: the row of state [x0] of the
    [i]-th table is at [offset ts i + x0], its cells shifted. *)
Lemma shifted_rows_lookup dflt off ts j row :
  shifted_rows dflt off ts !! j = Some row ↔
  ∃ i t x0 r, ts !! i = Some t ∧ j = offset ts i + x0 ∧
              tdata t !! x0 = Some r ∧
              row = mkTableRow (shift (off + offset ts i) <$> data r) dflt.
Proof.
  revert off j row. induction ts as [|t ts IH]; intros off j row.
  - unfold shifted_rows. simpl. split; [done|].
    by intros (i & t & x0 & r & Hi & _).
  - rewrite shifted_rows_cons. split.
    + intros H. apply lookup_app_Some in H as [H|[Hge H]].
      * rewrite list_lookup_fmap in H.
        destruct (tdata t !! j) as [r|] eqn:Hr; [|done]. injection H as <-.
        exists 0, t, j, r. rewrite offset_0, Nat.add_0_r. done.
      * rewrite length_fmap in Hge, H.
        apply IH in H as (i & t' & x0 & r & Hi & Hj & Hr & ->).
        exists (S i), t', x0, r. rewrite offset_S.
        split_and!; [done|unfold table_len; lia|done|].
        by rewrite Nat.add_assoc.
    + intros (i & t' & x0 & r & Hi & -> & Hr & ->).
      apply lookup_app_Some. destruct i as [|i].
      * injection Hi as <-. left. rewrite offset_0, Nat.add_0_r. simpl.
        by rewrite list_lookup_fmap, Hr.
      * right. rewrite length_fmap, offset_S.
        split; [unfold table_len; lia|]. apply IH.
        exists i, t', x0, r. split_and!; [done|unfold table_len; lia|done|].
        by rewrite ?offset_S, Nat.add_assoc.
Qed.

Lemma char_step_data t c x y :
  (∀ r, r ∈ tdata t → default r = Default_set) →
  char_step t c x y ↔
  ∃ r s, tdata t !! x = Some r ∧ data r !! c = Some s ∧ y ∈ s.
Proof.
  intros Hd. unfold char_step, row_getitem. split.
  - intros (row & s & Hrow & Hs & Hy).
    destruct (data row !! c) as [s'|] eqn:E.
    + injection Hs as ->. by exists row, s.
    + unfold _return_default in Hs.
      rewrite (Hd row) in Hs by by eapply list_elem_of_lookup_2.
      simpl in Hs. injection Hs as <-. set_solver.
  - intros (r & s & Hr & Hs & Hy). exists r, s. by rewrite Hs.
Qed.

Lemma wf_table_defaults t :
  wf_table t → ∀ r, r ∈ tdata t → default r = Default_set.
Proof.
  intros [_ Hrows] r Hr. rewrite Forall_forall in Hrows.
  by destruct (Hrows r Hr).
Qed.

Lemma shifted_rows_defaults off ts r :
  r ∈ shifted_rows Default_set off ts → default r = Default_set.
Proof.
  intros [j Hj]%list_elem_of_lookup.
  by apply shifted_rows_lookup in Hj as (i & t & x0 & r0 & _ & _ & _ & ->).
Qed.

(** The transitions of the concatenated table are those of its
    tables. *)
Lemma concat_step ts c x y :
  Forall wf_table ts →
  char_step (mkTable Default_set (shifted_rows Default_set 0 ts)) c x y ↔
  ∃ i t x0 y0, ts !! i = Some t ∧ x = offset ts i + x0 ∧
               y = offset ts i + y0 ∧ char_step t c x0 y0.
Proof.
  intros Hts. rewrite char_step_data by apply shifted_rows_defaults.
  simpl. split.
  - intros (r & s & Hr & Hs & Hy).
    apply shifted_rows_lookup in Hr as (i & t & x0 & r0 & Hi & -> & Hr0 & ->).
    simpl in Hs. rewrite lookup_fmap in Hs.
    destruct (data r0 !! c) as [s0|] eqn:Hs0; [|done]. injection Hs as <-.
    apply elem_of_map in Hy as (y0 & -> & Hy0).
    exists i, t, x0, y0. split_and!; [done..|lia|].
    apply char_step_data.
    { apply wf_table_defaults. rewrite Forall_forall in Hts. apply Hts.
      by eapply list_elem_of_lookup_2. }
    by exists r0, s0.
  - intros (i & t & x0 & y0 & Hi & -> & -> & Hstep).
    apply char_step_data in Hstep as (r0 & s0 & Hr0 & Hs0 & Hy0).
    2:{ apply wf_table_defaults. rewrite Forall_forall in Hts. apply Hts.
        by eapply list_elem_of_lookup_2. }
    eexists _, _. split_and!.
    + apply shifted_rows_lookup. by exists i, t, x0, r0.
    + simpl. by rewrite lookup_fmap, Hs0.
    + apply elem_of_map. exists y0. split; [lia|done].
Qed.

(** The final row of a table stays empty in the concatenated table. *)
Lemma shifted_rows_final off ts i t :
  ts !! i = Some t → final_row_empty t →
  ∃ row, shifted_rows Default_set off ts !! (offset ts (S i) - 1) = Some row ∧
         data row = ∅ ∧ 1 ≤ table_len t.
Proof.
  intros Hi (r & Hlast & Hd). rewrite last_lookup in Hlast.
  assert (1 ≤ table_len t) as Hlen.
  { apply lookup_lt_Some in Hlast. unfold table_len. lia. }
  exists (mkTableRow (shift (off + offset ts i) <$> data r) Default_set).
  split_and!; [|by simpl; rewrite Hd, fmap_empty|done].
  apply shifted_rows_lookup. exists i, t, (table_len t - 1), r.
  split_and!; [done| | |done].
  - rewrite (offset_next ts i t Hi). lia.
  - rewrite <-Hlast. f_equal. unfold table_len. lia.
Qed.

(** Assigning the epsilon cell of an empty row adds epsilon-transitions
    from that row. *)
Lemma setcell_step t i v t' row :
  tdata t !! i = Some row → data row = ∅ →
  (∀ r, r ∈ tdata t → default r = Default_set) →
  table_setcell t (Z.of_nat i) EPSILON v = Ok t' →
  (∀ r, r ∈ tdata t' → default r = Default_set) ∧
  (∀ j, j ≠ i → tdata t' !! j = tdata t !! j) ∧
  ∀ c x y, char_step t' c x y ↔
           char_step t c x y ∨ (c = EPSILON ∧ x = i ∧ y ∈ v).
Proof.
  intros Hrow Hempty Hd H. rewrite (setcell_Ok _ _ _ _ _ Hrow) in H.
  injection H as <-. simpl.
  assert (∀ r, r ∈ <[i := row_setitem row EPSILON v]> (tdata t) →
               default r = Default_set) as Hd'.
  { intros r [j Hj]%list_elem_of_lookup.
    apply list_lookup_insert_Some in Hj as [(-> & <- & _)|[_ Hj]].
    - simpl. apply Hd. by eapply list_elem_of_lookup_2.
    - apply Hd. by eapply list_elem_of_lookup_2. }
  split_and!; [done| |].
  - intros j Hj. by rewrite list_lookup_insert_ne.
  - intros c x y. rewrite !char_step_data by done. simpl. split.
    + intros (r & s & Hr & Hs & Hy).
      apply list_lookup_insert_Some in Hr as [(-> & <- & _)|[Hne Hr]].
      * right. simpl in Hs. rewrite Hempty in Hs.
        apply lookup_insert_Some in Hs as [[<- <-]|[_ Hs]]; [done|].
        by rewrite lookup_empty in Hs.
      * left. by exists r, s.
    + intros [(r & s & Hr & Hs & Hy)|(-> & -> & Hy)].
      * exists r, s. split; [|done].
        apply list_lookup_insert_Some. right. split; [|done].
        intros <-. assert (r = row) as -> by congruence.
        by rewrite Hempty, lookup_empty in Hs.
      * exists (row_setitem row EPSILON v), v.
        split_and!; [|by simpl; rewrite lookup_insert_eq|done].
        apply list_lookup_insert_Some. left. split_and!; [done..|].
        by eapply lookup_lt_Some.
Qed.

Lemma link_rows_step value : ∀ offsets t t',
  link_rows t offsets value = Ok t' →
  NoDup offsets →
  (∀ o, o ∈ offsets →
     1 ≤ o ∧ ∃ row, tdata t !! (o - 1) = Some row ∧ data row = ∅) →
  (∀ r, r ∈ tdata t → default r = Default_set) →
  ∀ c x y, char_step t' c x y ↔
           char_step t c x y ∨
           (c = EPSILON ∧ ∃ o, o ∈ offsets ∧ x = o - 1 ∧ y ∈ value o).
Proof.
  induction offsets as [|o offsets IH]; intros t t' H Hnd Hrows Hd c x y;
    simpl in H.
  - injection H as <-. split; [by left|]. intros [?|(_ & o & Ho & _)]; [done|].
    by apply elem_of_nil in Ho.
  - apply bind_Ok in H as (t1 & Ht1 & H).
    apply NoDup_cons in Hnd as [Ho Hnd].
    destruct (Hrows o) as [Ho1 (row & Hrow & Hempty)]; [by left|].
    replace (Z.of_nat o - 1)%Z with (Z.of_nat (o - 1)) in Ht1 by lia.
    destruct (setcell_step _ _ _ _ _ Hrow Hempty Hd Ht1)
      as (Hd1 & Hsame & Hstep1).
    rewrite (IH t1 t' H Hnd); [| |done].
    + rewrite Hstep1. split.
      * intros [[?|(-> & -> & Hy)]|(-> & o' & Ho' & -> & Hy)].
        -- by left.
        -- right. split; [done|]. exists o. split_and!; [by left|done..].
        -- right. split; [done|]. exists o'. split_and!; [by right|done..].
      * intros [?|(-> & o' & [->|Ho']%elem_of_cons & -> & Hy)].
        -- by left; left.
        -- by left; right.
        -- right. split; [done|]. by exists o'.
    + intros o' Ho'. destruct (Hrows o') as [Ho'1 (row' & Hrow' & Hempty')];
        [by right|].
      split; [done|]. exists row'. split; [|done].
      rewrite Hsame; [done|]. intros Heq.
      assert (o' = o) as -> by lia. done.
Qed.

(** *** Runs *)

Lemma nfa_path_app t w1 w2 x y z :
  nfa_path t w1 x y → nfa_path t w2 y z → nfa_path t (w1 ++ w2) x z.
Proof.
  induction 1 as [x|w x y0 y Hstep _ IH|c w x y0 y Hne Hstep _ IH]; intros H2.
  - done.
  - eapply path_eps; [exact Hstep|]. by apply IH.
  - simpl. eapply path_char; [exact Hne|exact Hstep|]. by apply IH.
Qed.

Lemma nfa_path_map t t' (f : nat → nat) w x z :
  (∀ c x y, char_step t c x y → char_step t' c (f x) (f y)) →
  nfa_path t w x z → nfa_path t' w (f x) (f z).
Proof.
  intros Hf. induction 1 as [x|w x y z Hstep _ IH|c w x y z Hne Hstep _ IH].
  - constructor.
  - eapply path_eps; [|exact IH]. by apply (Hf EPSILON).
  - eapply path_char; [done| |exact IH]. by apply Hf.
Qed.

Lemma nfa_path_eps_step t w x y z :
  char_step t EPSILON x y → nfa_path t w y z → nfa_path t w x z.
Proof. intros H. by apply path_eps. Qed.
End BlockFacts.
